(** * migrate-lids.py: resolving anonymized (LID) identifiers in the message store

    A shallow embedding of [migrate-lids.py] and the verification of its
    specification.  The script reads the LID→phone table of the protocol
    client's database, then rewrites the [chats] and [messages] tables of the
    bridge's message database inside one transaction.

    Layout:
    - [PyStr]: the Python string operations and the SQL [LIKE] test the
      script uses;
    - [Sql]: rows, tables and the meaning of the script's SQL statements;
    - [PyDict]: dictionaries in insertion order;
    - [Runtime]: the process model (file system, one [sqlite3] connection,
      standard output) as a state-and-exception monad;
    - [Script]: the three functions of the script, line by line;
    - [Tables]: what the three loops of a successful run do to the tables;
    - the notions of the statements, the specification's words, sample data;
    - the lemmas and the theorems on the claims C1 to C10 of the
      specification. *)

From Stdlib Require Import Ascii.
From stdpp Require Import base decidable option list sorting gmap strings.

Set Default Proof Using "Type".


(** ** Python strings *)

Module PyStr.

(** ["@" in s] *)
Fixpoint contains_at (s : string) : bool :=
  match s with
  | EmptyString => false
  | String c s' => Ascii.eqb c "@" || contains_at s'
  end.

(** [s.split("@")[0]]: the text before the first ["@"], all of [s] when there
    is none. *)
Fixpoint before_at (s : string) : string :=
  match s with
  | EmptyString => EmptyString
  | String c s' => if Ascii.eqb c "@" then EmptyString else String c (before_at s')
  end.

(** [s.split("@")[0] if "@" in s else s], lines 36, 37 and 110. *)
Definition user_part (s : string) : string :=
  if contains_at s then before_at s else s.

(** [s.endswith(suffix)]: some tail of [s] is [suffix]. *)
Fixpoint endswith (s suffix : string) : bool :=
  String.eqb s suffix ||
  match s with
  | EmptyString => false
  | String _ s' => endswith s' suffix
  end.

(** [s.replace(old, new)] for a non-empty [old]: occurrences are found from
    the left and do not overlap.  [skip] counts the characters of a match
    that are still to be dropped. *)
Fixpoint replace_from (old new : string) (skip : nat) (s : string) : string :=
  match s with
  | EmptyString => EmptyString
  | String c s' =>
      match skip with
      | S k => replace_from old new k s'
      | O =>
          if String.prefix old s
          then new +:+ replace_from old new (String.length old - 1) s'
          else String c (replace_from old new 0 s')
      end
  end.

Definition replace (s old new : string) : string := replace_from old new 0 s.

(** SQLite folds the 26 upper-case ASCII letters for [LIKE]. *)
Definition ascii_lower (c : ascii) : ascii :=
  let n := nat_of_ascii c in
  if (65 <=? n)%nat && (n <=? 90)%nat then ascii_of_nat (n + 32) else c.

Fixpoint lower (s : string) : string :=
  match s with
  | EmptyString => EmptyString
  | String c s' => String (ascii_lower c) (lower s')
  end.

(** [x LIKE '%@lid']: [%] matches any prefix, the rest is compared without
    regard to ASCII case. *)
Definition like_lid (s : string) : bool := endswith (lower s) "@lid".

(** The f-string of line 51: [f"{phone_user}@s.whatsapp.net"]. *)
Definition whatsapp_jid (phone_user : string) : string :=
  phone_user +:+ "@s.whatsapp.net".

(** Line 48: [chat_jid.replace("@lid", "") if chat_jid.endswith("@lid") else chat_jid]. *)
Definition bare_lid (chat_jid : string) : string :=
  if endswith chat_jid "@lid" then replace chat_jid "@lid" "" else chat_jid.

End PyStr.

Import PyStr.

(** ** The two databases and the script's SQL statements *)

Module Sql.

(** Modelled from the spec: the schema of [messages.db] is declared by the
    bridge, not by the script.  Section 6 gives [chats] the key [jid] and
    [messages] the columns [id], [chat_jid] and [sender]; they are the
    columns the statements of the script name.  All of them hold text.  The
    columns the script never names are kept in one field. *)
Record chat_row := ChatRow { jid : string; chat_cols : string }.

Record message_row := MessageRow {
  msg_id : string; chat_jid : string; sender : string; msg_cols : string }.

(** The tables of [messages.db], rows in storage order. *)
Record store := Store { chats : list chat_row; messages : list message_row }.

(** A database file.  [whatsapp.db] has the table [whatsmeow_lid_map] of
    (lid, pn) pairs, [messages.db] has [chats] and [messages], which the
    bridge creates together; tables the file lacks are [None].  SQLite
    creates an empty file, [no_tables], when asked to open a path that does
    not exist. *)
Record database := Database {
  whatsmeow_lid_map : option (list (string * string));
  tables : option store }.

Definition no_tables : database := Database None None.

Definition set_tables (db : database) (s : store) : database :=
  Database (whatsmeow_lid_map db) (Some s).

#[global] Instance chat_row_eq_dec : EqDecision chat_row.
Proof. solve_decision. Defined.
#[global] Instance message_row_eq_dec : EqDecision message_row.
Proof. solve_decision. Defined.
#[global] Instance store_eq_dec : EqDecision store.
Proof. solve_decision. Defined.
#[global] Instance database_eq_dec : EqDecision database.
Proof. solve_decision. Defined.

Definition set_jid (new : string) (c : chat_row) : chat_row :=
  ChatRow new (chat_cols c).
Definition set_chat_jid (new : string) (m : message_row) : message_row :=
  MessageRow (msg_id m) new (sender m) (msg_cols m).
Definition set_sender (new : string) (m : message_row) : message_row :=
  MessageRow (msg_id m) (chat_jid m) new (msg_cols m).

(** The statements of the script, with their [?] parameters in the order of
    the parameter tuple. *)
Inductive stmt :=
  | SelectLidMap                              (* line 16 *)
  | SelectLidChats                            (* line 41 *)
  | CountChats (p1 : string)                  (* lines 53, 74 *)
  | DeleteDuplicates (p1 p2 p3 : string)      (* lines 56-60, 76-80 *)
  | UpdateMessagesChat (p1 p2 : string)       (* lines 62, 68, 82, 88 *)
  | DeleteChat (p1 : string)                  (* lines 64, 84 *)
  | UpdateChatJid (p1 p2 : string)            (* lines 67, 87 *)
  | SelectLidSenders                          (* line 98 *)
  | UpdateSender (p1 p2 : string)             (* lines 106, 113, 126 *)
  | SelectSenders.                            (* line 120 *)

#[global] Instance stmt_eq_dec : EqDecision stmt.
Proof. solve_decision. Defined.

(** What a cursor holds after [execute]: the rows of a one-column or a
    two-column [SELECT], the number of a [SELECT COUNT( * )], or [rowcount]. *)
Inductive cursor :=
  | Rows (l : list string)
  | Pairs (l : list (string * string))
  | Number (n : nat)
  | RowCount (n : nat).

Definition fetchall (c : cursor) : list string :=
  match c with Rows l => l | _ => [] end.
Definition fetchall_pairs (c : cursor) : list (string * string) :=
  match c with Pairs l => l | _ => [] end.
(** [cur.fetchone()[0]] *)
Definition fetchone_0 (c : cursor) : nat :=
  match c with Number n => n | _ => 0 end.
Definition rowcount (c : cursor) : nat :=
  match c with RowCount n => n | _ => 0 end.

Inductive sqlite_error :=
  | OperationalError (msg : string)
  | IntegrityError (msg : string)
  | ProgrammingError (msg : string).

(** What the script cannot see of SQLite and of the machine: which
    statements fail (I/O errors, constraints of a schema the script does not
    declare), in which order a [SELECT] without [ORDER BY] yields its rows,
    and where a new file can be created. *)
Record engine := Engine {
  fault : stmt → database → option sqlite_error;
  commit_fault : database → option sqlite_error;
  row_order : stmt → list string → list string;
  row_order_perm : ∀ q l, row_order q l ≡ₚ l;
  pair_order : list (string * string) → list (string * string);
  pair_order_perm : ∀ l, pair_order l ≡ₚ l;
  creatable : string → bool }.

(** The engine that never fails and scans in storage order. *)
Definition plain_engine : engine :=
  Engine (λ _ _, None) (λ _, None) (λ _ l, l) (λ _ l, reflexivity l)
         (λ l, l) (λ l, reflexivity l) (λ _, true).

Section statements.
Context (E : engine).

(** The subquery of lines 57-59:
    [SELECT m1.id FROM messages m1 INNER JOIN messages m2 ON m1.id = m2.id
     WHERE m1.chat_jid = ? AND m2.chat_jid = ?]. *)
Definition duplicate_ids (p2 p3 : string) (ms : list message_row) : list string :=
  m1 ← ms; m2 ← ms;
  if decide (msg_id m1 = msg_id m2 ∧ chat_jid m1 = p2 ∧ chat_jid m2 = p3)
  then [msg_id m1] else [].

(** The [WHERE] clause of the [DELETE] of lines 56-60. *)
Definition deleted_by (p1 p2 p3 : string) (ms : list message_row) (m : message_row) : Prop :=
  chat_jid m = p1 ∧ msg_id m ∈ duplicate_ids p2 p3 ms.

#[global] Instance deleted_by_dec p1 p2 p3 ms m : Decision (deleted_by p1 p2 p3 ms m).
Proof. unfold deleted_by. apply _. Defined.

(** A statement on [chats] and [messages]: the tables after it and the
    cursor. *)
Definition run_stmt (q : stmt) (s : store) : store * cursor :=
  match q with
  | SelectLidMap => (s, Pairs [])
  | SelectLidChats =>
      (s, Rows (row_order E q (filter (λ j, like_lid j) (jid <$> chats s))))
  | CountChats p1 =>
      (s, Number (length (filter (λ c, jid c = p1) (chats s))))
  | DeleteDuplicates p1 p2 p3 =>
      (Store (chats s) (filter (λ m, ¬ deleted_by p1 p2 p3 (messages s) m) (messages s)),
       RowCount (length (filter (deleted_by p1 p2 p3 (messages s)) (messages s))))
  | UpdateMessagesChat p1 p2 =>
      (Store (chats s)
             ((λ m, if decide (chat_jid m = p2) then set_chat_jid p1 m else m) <$> messages s),
       RowCount (length (filter (λ m, chat_jid m = p2) (messages s))))
  | DeleteChat p1 =>
      (Store (filter (λ c, jid c ≠ p1) (chats s)) (messages s),
       RowCount (length (filter (λ c, jid c = p1) (chats s))))
  | UpdateChatJid p1 p2 =>
      (Store ((λ c, if decide (jid c = p2) then set_jid p1 c else c) <$> chats s) (messages s),
       RowCount (length (filter (λ c, jid c = p2) (chats s))))
  | SelectLidSenders =>
      (s, Rows (row_order E q
                  (remove_dups (filter (λ x, like_lid x) (sender <$> messages s)))))
  | UpdateSender p1 p2 =>
      (Store (chats s)
             ((λ m, if decide (sender m = p2) then set_sender p1 m else m) <$> messages s),
       RowCount (length (filter (λ m, sender m = p2) (messages s))))
  | SelectSenders =>
      (s, Rows (row_order E q (remove_dups (sender <$> messages s))))
  end.

(** A statement on a database file: it fails when its table is missing. *)
Definition sql (q : stmt) (db : database) : sqlite_error + database * cursor :=
  match q with
  | SelectLidMap =>
      match whatsmeow_lid_map db with
      | None => inl (OperationalError "no such table: whatsmeow_lid_map")
      | Some rows => inr (db, Pairs (pair_order E rows))
      end
  | _ =>
      match tables db with
      | None => inl (OperationalError "no such table")
      | Some s => inr (set_tables db (run_stmt q s).1, (run_stmt q s).2)
      end
  end.
End statements.

End Sql.

Import Sql.

(** ** Python dictionaries in insertion order *)

Module PyDict.

(** The items of a [dict], oldest key first. *)
Definition dict := list (string * string).

(** [d[k] = v]: an existing key keeps its place. *)
Fixpoint setitem (k v : string) (d : dict) : dict :=
match d with
| [] => [(k, v)]
| (k', v') :: d' => if decide (k = k') then (k, v) :: d' else (k', v') :: setitem k v d'
end.

Fixpoint getitem (k : string) (d : dict) : option string :=
match d with
| [] => None
| (k', v') :: d' => if decide (k = k') then Some v' else getitem k d'
end.

End PyDict.

(** ** The process: files, one connection, standard output *)

Module Runtime.

Inductive exn :=
| SqliteError (e : sqlite_error)
| FileNotFoundError (path : string)
| SystemExit (code : nat).

(** The lines the script prints, by their format string. *)
Inductive line :=
| Loaded (n : nat)                            (* line 21 *)
| ChatsWithLid (n : nat)                      (* line 43 *)
| Merged (old new : string) (dupes moved : nat)   (* lines 65, 85 *)
| Renamed (old new : string)                  (* lines 69, 89 *)
| NoMapping (chat : string)                   (* line 92 *)
| ChatsUpdated (n total : nat)                (* line 94 *)
| LidSenders (n : nat)                        (* line 100 *)
| LidSendersUpdated (n total : nat)           (* line 116 *)
| BareSendersUpdated (n : nat)                (* line 129 *)
| Complete (chats senders : nat)              (* line 133 *)
| WhatsmeowNotFound (path : string)           (* line 138 *)
| MessagesNotFound (path : string).           (* line 141 *)

Inductive event :=
| EvConnect (path : string)
| EvExecute (q : stmt)
| EvCommit (path : string)
| EvClose
| EvPrint (l : line)
| EvRaise (e : exn).

(** [files] is what is on disk (committed); [connection] is the open
    [sqlite3] connection with its path and its view of the database, which
    includes the changes of the transaction in progress; [trace] is what the
    process has done so far, oldest event first. *)
Record world := World {
files : gmap string database;
connection : option (string * database);
trace : list event }.

(** A process that has just started. *)
Definition boot (fs : gmap string database) : world := World fs None [].

Definition log (ev : event) (w : world) : world :=
World (files w) (connection w) (trace w ++ [ev]).

(** Computations: they end with a value or with an uncaught exception, and
    in both cases leave a world behind. *)
Definition M (A : Type) : Type := world → (exn + A) * world.

#[global] Instance M_ret : MRet M := λ A a w, (inr a, w).
#[global] Instance M_bind : MBind M := λ A B f m w,
match m w with
| (inl e, w') => (inl e, w')
| (inr a, w') => f a w'
end.

Definition raise {A} (e : exn) : M A := λ w, (inl e, log (EvRaise e) w).

Definition print (l : line) : M unit := λ w, (inr (), log (EvPrint l) w).

(** [exit(n)] *)
Definition exit {A} (n : nat) : M A := raise (SystemExit n).

(** [os.path.exists(path)] *)
Definition os_path_exists (path : string) : M bool :=
λ w, (inr (bool_decide (is_Some (files w !! path))), w).

(** [for x in l: acc = body(acc, x)] *)
Fixpoint for_in {A B} (l : list A) (acc : B) (body : B → A → M B) : M B :=
match l with
| [] => mret acc
| x :: l' => acc' ← body acc x; for_in l' acc' body
end.

Section sqlite3.
Context (E : engine).

(** [sqlite3.connect(path)]: opens the file, creating an empty database
    when there is none. *)
Definition connect (path : string) : M unit := λ w,
  match files w !! path with
  | Some db => (inr (), World (files w) (Some (path, db)) (trace w ++ [EvConnect path]))
  | None =>
      if creatable E path
      then (inr (), World (<[path := no_tables]> (files w)) (Some (path, no_tables))
                          (trace w ++ [EvConnect path]))
      else raise (SqliteError (OperationalError "unable to open database file"))
                 (log (EvConnect path) w)
  end.

(** [cur.execute(q, params)]: changes are made in the connection's view
    only. *)
Definition execute (q : stmt) : M cursor := λ w,
  match connection w with
  | None => raise (SqliteError (ProgrammingError "Cannot operate on a closed database."))
                  (log (EvExecute q) w)
  | Some (path, db) =>
      match fault E q db with
      | Some e => raise (SqliteError e) (log (EvExecute q) w)
      | None =>
          match sql E q db with
          | inl e => raise (SqliteError e) (log (EvExecute q) w)
          | inr (db', cur) =>
              (inr cur, World (files w) (Some (path, db')) (trace w ++ [EvExecute q]))
          end
      end
  end.

(** [conn.commit()]: the connection's view becomes the file. *)
Definition commit : M unit := λ w,
  match connection w with
  | None => raise (SqliteError (ProgrammingError "Cannot operate on a closed database.")) w
  | Some (path, db) =>
      match commit_fault E db with
      | Some e => raise (SqliteError e) w
      | None => (inr (), World (<[path := db]> (files w)) (Some (path, db))
                               (trace w ++ [EvCommit path]))
      end
  end.

(** [conn.close()]: what was not committed is lost. *)
Definition close : M unit := λ w,
  (inr (), World (files w) None (trace w ++ [EvClose])).
End sqlite3.

(** What the process has printed. *)
Definition stdout (w : world) : list line :=
  omap (λ ev, match ev with EvPrint l => Some l | _ => None end) (trace w).

(** The exit status of the process. *)
Definition exit_status {A} (r : exn + A) : nat :=
match r with
| inr _ => 0
| inl (SystemExit n) => n
| inl _ => 1
end.

End Runtime.

Import PyDict Runtime.

(** ** The script *)

Module Script.

(** [os.path.join(a, b)] on POSIX. *)
Definition os_path_join (a b : string) : string :=
if String.prefix "/" b then b
else if bool_decide (a = "") || endswith a "/" then a +:+ b
else a +:+ "/" +:+ b.

(** Lines 31-38: the two lookup tables built from [lid_map.items()]. *)
Definition build_maps (lid_map : dict) : gmap string string * gmap string string :=
foldl (λ '(jid_map, user_map) '(lid_jid, pn_jid),
         let jid_map := <[lid_jid := pn_jid]> jid_map in
         let lid_user := user_part lid_jid in
         let pn_user := user_part pn_jid in
         (jid_map, <[lid_user := pn_user]> user_map))
      (∅, ∅) lid_map.

Section script.
Context (E : engine).
(** [os.path.dirname(__file__)] *)
Context (script_dir : string).

Definition STORE_DIR : string :=
  os_path_join (os_path_join script_dir "whatsapp-bridge") "store".
Definition WHATSMEOW_DB : string := os_path_join STORE_DIR "whatsapp.db".
Definition MESSAGES_DB : string := os_path_join STORE_DIR "messages.db".

(** Lines 12-22. *)
Definition load_lid_map (whatsmeow_db_path : string) : M dict :=
  connect E whatsmeow_db_path;;
  cur ← execute E SelectLidMap;
  let lid_map := foldl (λ lid_map '(lid, pn), setitem lid pn lid_map) [] (fetchall_pairs cur) in
  close;;
  print (Loaded (length lid_map));;
  mret lid_map.

(** Lines 47-92: the body of the loop over the chats. *)
Definition migrate_chat (jid_map user_map : gmap string string)
    (chats_updated : nat) (chat_jid : string) : M nat :=
  let bare_lid := bare_lid chat_jid in
  match user_map !! bare_lid with
  | Some phone_user =>
      let new_jid := whatsapp_jid phone_user in
      cur ← execute E (CountChats new_jid);
      (if (0 <? fetchone_0 cur)%nat then
         cur ← execute E (DeleteDuplicates chat_jid chat_jid new_jid);
         let dupes := rowcount cur in
         cur ← execute E (UpdateMessagesChat new_jid chat_jid);
         let moved := rowcount cur in
         execute E (DeleteChat chat_jid);;
         print (Merged chat_jid new_jid dupes moved)
       else
         execute E (UpdateChatJid new_jid chat_jid);;
         execute E (UpdateMessagesChat new_jid chat_jid);;
         print (Renamed chat_jid new_jid));;
      mret (chats_updated + 1)
  | None =>
      match jid_map !! chat_jid with
      | Some new_jid =>
          cur ← execute E (CountChats new_jid);
          (if (0 <? fetchone_0 cur)%nat then
             cur ← execute E (DeleteDuplicates chat_jid chat_jid new_jid);
             let dupes := rowcount cur in
             cur ← execute E (UpdateMessagesChat new_jid chat_jid);
             let moved := rowcount cur in
             execute E (DeleteChat chat_jid);;
             print (Merged chat_jid new_jid dupes moved)
           else
             execute E (UpdateChatJid new_jid chat_jid);;
             execute E (UpdateMessagesChat new_jid chat_jid);;
             print (Renamed chat_jid new_jid));;
          mret (chats_updated + 1)
      | None =>
          print (NoMapping chat_jid);;
          mret chats_updated
      end
  end.

(** Lines 104-114: the body of the loop over the senders ending in [@lid]. *)
Definition migrate_lid_sender (jid_map user_map : gmap string string)
    (senders_updated : nat) (sender : string) : M nat :=
  match jid_map !! sender with
  | Some new_sender =>
      execute E (UpdateSender new_sender sender);;
      mret (senders_updated + 1)
  | None =>
      let user_part := user_part sender in
      match user_map !! user_part with
      | Some new_sender =>
          execute E (UpdateSender new_sender sender);;
          mret (senders_updated + 1)
      | None => mret senders_updated
      end
  end.

(** Lines 124-127: the body of the loop over all the senders. *)
Definition migrate_bare_sender (user_map : gmap string string)
    (bare_updated : nat) (sender : string) : M nat :=
  if negb (contains_at sender) then
    match user_map !! sender with
    | Some new_sender =>
        execute E (UpdateSender new_sender sender);;
        mret (bare_updated + 1)
    | None => mret bare_updated
    end
  else mret bare_updated.

(** Lines 25-133. *)
Definition migrate_messages_db (messages_db_path : string) (lid_map : dict) : M unit :=
  connect E messages_db_path;;
  let '(jid_map, user_map) := build_maps lid_map in
  cur ← execute E SelectLidChats;
  let lid_chats := fetchall cur in
  print (ChatsWithLid (length lid_chats));;
  chats_updated ← for_in lid_chats 0 (migrate_chat jid_map user_map);
  print (ChatsUpdated chats_updated (length lid_chats));;
  cur ← execute E SelectLidSenders;
  let lid_senders_full := fetchall cur in
  print (LidSenders (length lid_senders_full));;
  senders_updated ← for_in lid_senders_full 0 (migrate_lid_sender jid_map user_map);
  print (LidSendersUpdated senders_updated (length lid_senders_full));;
  cur ← execute E SelectSenders;
  let all_senders := fetchall cur in
  bare_updated ← for_in all_senders 0 (migrate_bare_sender user_map);
  print (BareSendersUpdated bare_updated);;
  commit E;;
  close;;
  print (Complete chats_updated (senders_updated + bare_updated)).

(** Lines 136-145. *)
Definition main : M unit :=
  whatsmeow_exists ← os_path_exists WHATSMEOW_DB;
  if negb whatsmeow_exists then
    print (WhatsmeowNotFound WHATSMEOW_DB);;
    exit 1
  else
    messages_exists ← os_path_exists MESSAGES_DB;
    if negb messages_exists then
      print (MessagesNotFound MESSAGES_DB);;
      exit 1
    else
      lid_map ← load_lid_map WHATSMEOW_DB;
      migrate_messages_db MESSAGES_DB lid_map.
End script.

End Script.

Import Script.


(** ** What a successful run computes

    The functions below describe, on the tables alone, what the statements
    of the three passes do when none of them fails; [migrate_chat_tables]
    and its companions relate them to the script. *)

Module Tables.

Definition jid_map (lid_map : dict) : gmap string string := (build_maps lid_map).1.
Definition user_map (lid_map : dict) : gmap string string := (build_maps lid_map).2.

(** The identifier a chat is rewritten to, if any. *)
Definition chat_target (jm um : gmap string string) (c : string) : option string :=
  match um !! bare_lid c with
  | Some phone_user => Some (whatsapp_jid phone_user)
  | None => jm !! c
  end.

Definition has_chat (t : string) (s : store) : bool :=
  (0 <? length (filter (λ c, jid c = t) (chats s)))%nat.

Definition retarget (c t : string) (m : message_row) : message_row :=
  if decide (chat_jid m = c) then set_chat_jid t m else m.

Definition rejid (c t : string) (r : chat_row) : chat_row :=
  if decide (jid r = c) then set_jid t r else r.

Definition merge_into (c t : string) (s : store) : store :=
  Store (filter (λ r, jid r ≠ c) (chats s))
        (retarget c t <$> filter (λ m, ¬ deleted_by c c t (messages s) m) (messages s)).

Definition rename_to (c t : string) (s : store) : store :=
  Store (rejid c t <$> chats s) (retarget c t <$> messages s).

Definition chat_step (jm um : gmap string string) (s : store) (c : string) : store :=
  match chat_target jm um c with
  | None => s
  | Some t => if has_chat t s then merge_into c t s else rename_to c t s
  end.

(** The line printed for a chat. *)
Definition chat_line (jm um : gmap string string) (s : store) (c : string) : line :=
  match chat_target jm um c with
  | None => NoMapping c
  | Some t =>
      if has_chat t s
      then Merged c t
             (length (filter (deleted_by c c t (messages s)) (messages s)))
             (length (filter (λ m, chat_jid m = c)
                        (filter (λ m, ¬ deleted_by c c t (messages s) m) (messages s))))
      else Renamed c t
  end.

Definition lid_chats (E : engine) (s : store) : list string :=
  row_order E SelectLidChats (filter (λ j, like_lid j) (jid <$> chats s)).

Definition chat_pass (E : engine) (jm um : gmap string string) (s : store) : store :=
  foldl (chat_step jm um) s (lid_chats E s).

(** [UPDATE messages SET sender = new WHERE sender = old] on a row. *)
Definition resend (old new : string) (m : message_row) : message_row :=
  if decide (sender m = old) then set_sender new m else m.

(** The lookups of the two sender loops. *)
Definition full_lookup (jm um : gmap string string) (x : string) : option string :=
  match jm !! x with
  | Some t => Some t
  | None => um !! user_part x
  end.

Definition bare_lookup (um : gmap string string) (x : string) : option string :=
  if contains_at x then None else um !! x.

Definition sender_step (g : string → option string) (s : store) (x : string) : store :=
  match g x with
  | Some y => Store (chats s) (resend x y <$> messages s)
  | None => s
  end.

Definition lid_senders (E : engine) (s : store) : list string :=
  row_order E SelectLidSenders (remove_dups (filter (λ x, like_lid x) (sender <$> messages s))).

Definition all_senders (E : engine) (s : store) : list string :=
  row_order E SelectSenders (remove_dups (sender <$> messages s)).

Definition full_pass (E : engine) (jm um : gmap string string) (s : store) : store :=
  foldl (sender_step (full_lookup jm um)) s (lid_senders E s).

Definition bare_pass (E : engine) (um : gmap string string) (s : store) : store :=
  foldl (sender_step (bare_lookup um)) s (all_senders E s).

Definition migrate_store (E : engine) (lid_map : dict) (s : store) : store :=
  let jm := jid_map lid_map in
  let um := user_map lid_map in
  bare_pass E um (full_pass E jm um (chat_pass E jm um s)).

(** The tables of the file at [path], as committed. *)
Definition stored (w : world) (path : string) : option store :=
  files w !! path ≫= tables.

End Tables.

Import Tables.

(** ** Notions used in the statements *)

(** The value a sender is rewritten to by the two sender loops taken one
    after the other, if any: the loop over the [@lid] senders applies to the
    values matching [LIKE '%@lid'], the loop over all the senders to the
    values without ["@"]. *)
Definition sender_target (jm um : gmap string string) (x : string) : option string :=
  match (if like_lid x then full_lookup jm um x else None) with
  | Some y => Some y
  | None => bare_lookup um x
  end.

(** No value a sender is rewritten to is itself rewritten. *)
Definition no_sender_chain (jm um : gmap string string) : Prop :=
  ∀ x y, sender_target jm um x = Some y → sender_target jm um y = None.

(** A chat identifier the chat loop sees and rewrites. *)
Definition mapped_chat (jm um : gmap string string) (c : string) : Prop :=
  like_lid c ∧ is_Some (chat_target jm um c).

#[global] Instance mapped_chat_dec jm um c : Decision (mapped_chat jm um c).
Proof. unfold mapped_chat. apply _. Defined.

(** No identifier a chat is rewritten to is itself rewritten. *)
Definition no_chat_chain (jm um : gmap string string) : Prop :=
  ∀ c t, like_lid c → chat_target jm um c = Some t → ¬ mapped_chat jm um t.

(** [evolved D R l k]: [k] is [l] in the same order, after some rows that
    satisfy [D] were deleted and each remaining row was replaced by one that
    is [R]-related to it. *)
Inductive evolved {A B} (D : A → Prop) (R : A → B → Prop) : list A → list B → Prop :=
  | evolved_nil : evolved D R [] []
  | evolved_delete x l k : D x → evolved D R l k → evolved D R (x :: l) k
  | evolved_keep x y l k : R x y → evolved D R l k → evolved D R (x :: l) (y :: k).

(** The sender of a row after a loop over [xs] that rewrites [x] to [g x]. *)
Fixpoint chase (g : string → option string) (xs : list string) (x : string) : string :=
  match xs with
  | [] => x
  | y :: xs' =>
      chase g xs' match g y with
                  | Some z => if decide (x = y) then z else x
                  | None => x
                  end
  end.

(** A message with the same [id] is filed under [t]. *)
Definition collides (t : string) (ms : list message_row) (m : message_row) : Prop :=
  ∃ m2, m2 ∈ ms ∧ msg_id m2 = msg_id m ∧ chat_jid m2 = t.

#[global] Instance collides_dec t ms m : Decision (collides t ms m).
Proof.
  refine (cast_if (decide (Exists (λ m2, msg_id m2 = msg_id m ∧ chat_jid m2 = t) ms)));
    unfold collides; rewrite Exists_exists in *; naive_solver.
Defined.

(** A message without its sender. *)
Definition unsent (m : message_row) : string * string * string :=
  (msg_id m, chat_jid m, msg_cols m).

(** The sender of a row after the two loops. *)
Definition final_sender (E : engine) (jm um : gmap string string) (s : store)
    (x : string) : string :=
  chase (bare_lookup um) (all_senders E (full_pass E jm um s))
    (chase (full_lookup jm um) (lid_senders E s) x).

(** What the chat loop keeps of a row: everything but the chat, and the
    chat too unless the row is filed under a chat the loop rewrites. *)
Definition refiled (jm um : gmap string string) (m m' : message_row) : Prop :=
  msg_id m' = msg_id m ∧ sender m' = sender m ∧ msg_cols m' = msg_cols m ∧
  (¬ mapped_chat jm um (chat_jid m) → chat_jid m' = chat_jid m).

(** ** Runs that fail

    [quiet m]: [m] leaves the files alone and commits nothing; when it ends
    with an exception, raising it is the last thing that happened, and
    nothing was raised before; when it ends with a value, nothing was raised
    at all.  [guarded m] asks the same of the failing runs only. *)
Definition raised_last (e : exn) (evs : list event) : Prop :=
  ∃ evs', evs = evs' ++ [EvRaise e] ∧ ∀ e', EvRaise e' ∉ evs'.

Definition quiet {A} (m : M A) : Prop :=
  ∀ w r w', m w = (r, w') →
    files w' = files w ∧
    ∃ evs, trace w' = trace w ++ evs ∧ (∀ p, EvCommit p ∉ evs) ∧
      match r with
      | inl e => raised_last e evs
      | inr _ => ∀ e', EvRaise e' ∉ evs
      end.

Definition guarded {A} (m : M A) : Prop :=
  ∀ w r w', m w = (r, w') →
    ∃ evs, trace w' = trace w ++ evs ∧
      match r with
      | inl e => files w' = files w ∧ (∀ p, EvCommit p ∉ evs) ∧ raised_last e evs
      | inr _ => ∀ e', EvRaise e' ∉ evs
      end.

(** ** The specification's words

    Definitions that follow the text of the specification, to be compared
    with the script. *)

(** Section 4.2, step 3: with a target in hand, merge when a chat with the
    target identifier exists, rename otherwise. *)
Definition merge_or_rename (E : engine) (chat_jid new_jid : string) : M unit :=
  cur ← execute E (CountChats new_jid);
  if (0 <? fetchone_0 cur)%nat then
    cur ← execute E (DeleteDuplicates chat_jid chat_jid new_jid);
    let dupes := rowcount cur in
    cur ← execute E (UpdateMessagesChat new_jid chat_jid);
    let moved := rowcount cur in
    execute E (DeleteChat chat_jid);;
    print (Merged chat_jid new_jid dupes moved)
  else
    execute E (UpdateChatJid new_jid chat_jid);;
    execute E (UpdateMessagesChat new_jid chat_jid);;
    print (Renamed chat_jid new_jid).

(** Section 4.2, step 1, and the glossary: the identifier with its trailing
    domain suffix removed (Python's [s.removesuffix(suffix)]). *)
Fixpoint removesuffix (s suffix : string) : string :=
  if String.eqb s suffix then EmptyString
  else match s with
       | EmptyString => EmptyString
       | String c s' => String c (removesuffix s' suffix)
       end.

(** The messages of [t] after the chat [c] was merged into it, as section 8
    words it: those of [t] are retained, those of [c] that collide with one
    of [t] are dropped, the others of [c] are filed under [t]. *)
Definition merged (c t : string) (ms : list message_row) : list message_row :=
  set_chat_jid t <$>
    filter (λ m, chat_jid m = t ∨ (chat_jid m = c ∧ ¬ collides t ms m)) ms.

(** ** Sample data *)

(** The second scenario of the specification: [111@lid] and its target both
    exist, message [m1] is filed under both. *)
Definition sample_store : store :=
  Store [ChatRow "111@lid" "alice"; ChatRow "22211111111@s.whatsapp.net" "alice"]
        [MessageRow "m1" "111@lid" "111@lid" "hello";
         MessageRow "m2" "111@lid" "333" "again";
         MessageRow "m1" "22211111111@s.whatsapp.net" "111@lid" "hello"].

Definition sample_map : dict :=
  [("111@lid", "22211111111@s.whatsapp.net"); ("333", "44433333333")].

Definition sample_files : gmap string database :=
  {[ "messages.db" := Database None (Some sample_store) ]}.

(** An engine whose disk fails when the messages of a chat are moved. *)
Definition broken_engine : engine :=
  Engine (λ q _, match q with
                 | UpdateMessagesChat _ _ => Some (OperationalError "disk I/O error")
                 | _ => None
                 end)
         (λ _, None) (λ _ l, l) (λ _ l, reflexivity l)
         (λ l, l) (λ l, reflexivity l) (λ _, true).

(** A connection to the sample store, mid-run. *)
Definition sample_world : world :=
  World sample_files (Some ("messages.db", Database None (Some sample_store))) [].

(** A mapping in which the stable user of the first entry is the anonymized
    user of the second, and one message sent by the first. *)
Definition chain_map : dict := [("1", "2"); ("2", "3")].

Definition chain_store : store :=
  Store [ChatRow "9@s.whatsapp.net" "group"]
        [MessageRow "m1" "9@s.whatsapp.net" "1@lid" "hello"].

Definition chain_files : gmap string database :=
  {[ "messages.db" := Database None (Some chain_store) ]}.

(** One message sent by the bare user [1]. *)
Definition relay_store : store :=
  Store [ChatRow "9@s.whatsapp.net" "group"]
        [MessageRow "m1" "9@s.whatsapp.net" "1" "hello"].

Definition relay_files : gmap string database :=
  {[ "messages.db" := Database None (Some relay_store) ]}.

(** Two anonymized chats of one phone number, each with a message [m], and
    the chat of that number, empty. *)
Definition shared_map : dict := [("1", "5"); ("2", "5")].

Definition shared_store : store :=
  Store [ChatRow "1@lid" "a"; ChatRow "2@lid" "b"; ChatRow "5@s.whatsapp.net" "c"]
        [MessageRow "m" "1@lid" "x" "first"; MessageRow "m" "2@lid" "y" "second"].

Definition shared_files : gmap string database :=
  {[ "messages.db" := Database None (Some shared_store) ]}.

(** A chat whose identifier holds the suffix twice, and a mapping for the
    user [12]. *)
Definition inner_map : dict := [("12", "99")].

Definition inner_store : store := Store [ChatRow "1@lid2@lid" "odd"] [].

Definition inner_files : gmap string database :=
  {[ "messages.db" := Database None (Some inner_store) ]}.

(** ** The report of a run *)

(** The lines among some events, in their order. *)
Definition printed (evs : list event) : list line :=
  omap (λ ev, match ev with EvPrint l => Some l | _ => None end) evs.

(** An event of the passes: a statement or a line, neither a connection,
    nor a commit, nor an exception. *)
Definition inner (ev : event) : Prop :=
  match ev with
  | EvExecute _ | EvPrint _ => True
  | _ => False
  end.

(** The lines of the loop over the chats [cs], from the tables [s] on. *)
Fixpoint chat_lines (jm um : gmap string string) (s : store) (cs : list string) : list line :=
  match cs with
  | [] => []
  | c :: cs' => chat_line jm um s c :: chat_lines jm um (chat_step jm um s c) cs'
  end.

(** An engine that raises nothing by itself. *)
Definition calm (E : engine) : Prop :=
  (∀ q db, fault E q db = None) ∧ ∀ db, commit_fault E db = None.

(** ** Runs that succeed *)

(** A connection is open on a store that has its two tables. *)
Definition open_store (w : world) : Prop :=
  ∃ path l s, connection w = Some (path, Database l (Some s)).

(** From such a world [m] ends with a value, in a world that satisfies [Q]. *)
Definition succeeds {A} (Q : world → Prop) (m : M A) : Prop :=
  ∀ w, open_store w → ∃ a w', m w = (inr a, w') ∧ Q w'.

(** Both stores, where [main] looks for them when the script is in the
    current directory. *)
Definition sample_disk : gmap string database :=
  {[ WHATSMEOW_DB "" := Database (Some sample_map) None;
     MESSAGES_DB "" := Database None (Some sample_store) ]}.

(** A line that reports a chat as updated: [MERGED] or [RENAMED]. *)
Definition update_line (ln : line) : Prop :=
  match ln with
  | Merged _ _ _ _ | Renamed _ _ => True
  | _ => False
  end.

#[global] Instance update_line_dec ln : Decision (update_line ln).
Proof. destruct ln; simpl; apply _. Defined.

(** ** The keys of the two tables *)

(** The key the merge works with: a message is known by its [id] within its
    chat (the [DELETE] of lines 56-60 looks for one [id] under two chats). *)
Definition message_key (m : message_row) : string * string := (msg_id m, chat_jid m).

(** One chat row per [jid], one message row per [id] and chat, and every
    message filed under a chat that has a row. *)
Definition well_keyed (s : store) : Prop :=
  NoDup (jid <$> chats s) ∧
  NoDup (message_key <$> messages s) ∧
  ∀ m, m ∈ messages s → chat_jid m ∈ jid <$> chats s.

(** The first scenario of the specification: [111@lid] has two messages and
    its target has no chat. *)
Definition fresh_store : store :=
  Store [ChatRow "111@lid" "alice"]
        [MessageRow "m1" "111@lid" "111@lid" "hello";
         MessageRow "m2" "111@lid" "333" "again"].

Definition fresh_files : gmap string database :=
  {[ "messages.db" := Database None (Some fresh_store) ]}.

(** A chat whose identifier has the suffix in capitals and is mapped to
    itself, with one message. *)
Definition self_map : dict := [("1@LID", "1@LID")].

Definition self_store : store :=
  Store [ChatRow "1@LID" "odd"; ChatRow "9@s.whatsapp.net" "group"]
        [MessageRow "m1" "1@LID" "9" "hello"; MessageRow "m2" "9@s.whatsapp.net" "9" "again"].

Definition self_files : gmap string database :=
  {[ "messages.db" := Database None (Some self_store) ]}.

(** A sender whose user part is not the sender without its suffix, and a
    mapping for the user [7]. *)
Definition part_map : dict := [("7", "9")].

Definition part_store : store :=
  Store [ChatRow "9@s.whatsapp.net" "group"]
        [MessageRow "m1" "9@s.whatsapp.net" "7@a@lid" "hello";
         MessageRow "m2" "9@s.whatsapp.net" "8" "again"].

Definition part_files : gmap string database :=
  {[ "messages.db" := Database None (Some part_store) ]}.

(** The chat whose identifier holds the suffix twice, with a message. *)
Definition stray_store : store :=
  Store [ChatRow "1@lid2@lid" "odd"] [MessageRow "m1" "1@lid2@lid" "me" "hello"].

Definition stray_files : gmap string database :=
  {[ "messages.db" := Database None (Some stray_store) ]}.

(** ** The scenarios of section 8 *)

(** Mapping [{"111@lid": "22211111111@s.whatsapp.net"}], chat [111@lid] with
    two messages, no chat for the target: the chat is renamed and its two
    messages follow. *)
Example scenario_rename :
  let s := Store [ChatRow "111@lid" "alice"]
                 [MessageRow "m1" "111@lid" "111@lid" "hello";
                  MessageRow "m2" "111@lid" "me" "again"] in
  let run := migrate_messages_db plain_engine "messages.db"
               [("111@lid", "22211111111@s.whatsapp.net")]
               (boot {[ "messages.db" := Database None (Some s) ]}) in
  run.1 = inr () ∧
  stored run.2 "messages.db" =
    Some (Store [ChatRow "22211111111@s.whatsapp.net" "alice"]
                [MessageRow "m1" "22211111111@s.whatsapp.net"
                            "22211111111@s.whatsapp.net" "hello";
                 MessageRow "m2" "22211111111@s.whatsapp.net" "me" "again"]) ∧
  stdout run.2 =
    [ChatsWithLid 1; Renamed "111@lid" "22211111111@s.whatsapp.net";
     ChatsUpdated 1 1; LidSenders 1; LidSendersUpdated 1 1;
     BareSendersUpdated 0; Complete 1 1].
Proof. by vm_compute. Qed.

(** The same mapping, the target chat exists with message [m1], and
    [111@lid] has [m1] and [m2]: the chats are merged, one duplicate is
    removed, one message is moved, the old chat row is deleted. *)
Example scenario_merge :
  let s := Store [ChatRow "111@lid" "alice"; ChatRow "22211111111@s.whatsapp.net" "alice"]
                 [MessageRow "m1" "22211111111@s.whatsapp.net" "me" "hello";
                  MessageRow "m1" "111@lid" "me" "hello";
                  MessageRow "m2" "111@lid" "me" "again"] in
  let run := migrate_messages_db plain_engine "messages.db"
               [("111@lid", "22211111111@s.whatsapp.net")]
               (boot {[ "messages.db" := Database None (Some s) ]}) in
  run.1 = inr () ∧
  stored run.2 "messages.db" =
    Some (Store [ChatRow "22211111111@s.whatsapp.net" "alice"]
                [MessageRow "m1" "22211111111@s.whatsapp.net" "me" "hello";
                 MessageRow "m2" "22211111111@s.whatsapp.net" "me" "again"]) ∧
  stdout run.2 =
    [ChatsWithLid 1; Merged "111@lid" "22211111111@s.whatsapp.net" 1 1;
     ChatsUpdated 1 1; LidSenders 0; LidSendersUpdated 0 0;
     BareSendersUpdated 0; Complete 1 0].
Proof. by vm_compute. Qed.

(** ** Strings *)

Lemma append_nil v : "" +:+ v = v.
Proof. done. Qed.

Lemma append_cons c u v : String c u +:+ v = String c (u +:+ v).
Proof. done. Qed.

Lemma endswith_refl s : endswith s s = true.
Proof. destruct s; cbn [endswith]; by rewrite String.eqb_refl. Qed.

Lemma contains_at_app u v : contains_at (u +:+ v) = contains_at u || contains_at v.
Proof.
  induction u as [|c u IH]; [done|].
  rewrite append_cons. simpl. by rewrite IH, orb_assoc.
Qed.

Lemma before_at_no_at s : contains_at (before_at s) = false.
Proof.
  induction s as [|c s IH]; simpl; [done|].
  destruct (Ascii.eqb c "@") eqn:Hc; simpl; [done|]. by rewrite Hc.
Qed.

(** The user part never holds an ["@"]. *)
Lemma user_part_no_at s : contains_at (user_part s) = false.
Proof.
  unfold user_part. destruct (contains_at s) eqn:Hs; [apply before_at_no_at|done].
Qed.

Lemma before_at_app u v :
  contains_at u = false → before_at (u +:+ String "@" v) = u.
Proof.
  induction u as [|c u IH]; [done|]. rewrite append_cons. simpl.
  destruct (Ascii.eqb c "@"); simpl; [done|]. intros Hu. by rewrite IH.
Qed.

(** For an identifier [u@lid] whose [u] holds no ["@"], the user part is
    the identifier without its suffix. *)
Lemma user_part_lid u : contains_at u = false → user_part (u +:+ "@lid") = u.
Proof.
  intros Hu. unfold user_part. rewrite contains_at_app, Hu. simpl.
  by apply (before_at_app u "lid").
Qed.

Lemma endswith_app u v : endswith (u +:+ v) v = true.
Proof.
  induction u as [|c u IH]; [apply endswith_refl|].
  rewrite append_cons. cbn [endswith]. rewrite IH. apply orb_true_r.
Qed.

Lemma replace_from_no_at old new u v :
  contains_at u = false →
  replace_from (String "@" old) new 0 (u +:+ v) = u +:+ replace_from (String "@" old) new 0 v.
Proof.
  induction u as [|d u IH]; [done|]. cbn [contains_at]. intros [Hd Hu]%orb_false_elim.
  rewrite !append_cons. cbn [replace_from String.prefix].
  destruct (ascii_dec "@" d) as [<-|_]; [done|]. by rewrite IH.
Qed.

(** On an identifier [u@lid] whose [u] holds no ["@"], line 48 removes the
    suffix and nothing else. *)
Lemma bare_lid_simple u : contains_at u = false → bare_lid (u +:+ "@lid") = u.
Proof.
  intros Hu. unfold bare_lid, replace. rewrite endswith_app.
  rewrite (replace_from_no_at "lid" "" u "@lid" Hu). simpl.
  clear Hu. induction u; [done|]. rewrite append_cons. by f_equal.
Qed.

Lemma length_append u v : String.length (u +:+ v) = String.length u + String.length v.
Proof. induction u as [|c u IH]; [done|]. rewrite append_cons. simpl. by rewrite IH. Qed.

Lemma removesuffix_app u v : removesuffix (u +:+ v) v = u.
Proof.
  induction u as [|c u IH].
  - rewrite append_nil. destruct v; cbn [removesuffix]; by rewrite String.eqb_refl.
  - rewrite append_cons. cbn [removesuffix].
    destruct (String.eqb_spec (String c (u +:+ v)) v) as [Heq|_]; [|by rewrite IH].
    apply (f_equal String.length) in Heq. simpl in Heq.
    rewrite length_append in Heq. lia.
Qed.

Lemma ascii_lower_at c : Ascii.eqb (ascii_lower c) "@" = Ascii.eqb c "@".
Proof. by destruct c as [[] [] [] [] [] [] [] []]. Qed.

Lemma contains_at_lower s : contains_at (lower s) = contains_at s.
Proof. induction s as [|c s IH]; simpl; [done|]. by rewrite ascii_lower_at, IH. Qed.

Lemma endswith_lid_contains_at s : endswith s "@lid" = true → contains_at s = true.
Proof.
  induction s as [|c s IH]; [done|]. cbn [endswith contains_at].
  intros [Heq|Htl]%orb_true_iff.
  - apply String.eqb_eq in Heq. by simplify_eq.
  - rewrite IH by done. apply orb_true_r.
Qed.

(** A value matched by [LIKE '%@lid'] holds an ["@"]. *)
Lemma like_lid_contains_at x : like_lid x = true → contains_at x = true.
Proof.
  unfold like_lid. intros H%endswith_lid_contains_at. by rewrite contains_at_lower in H.
Qed.

Lemma endswith_lower s v : endswith s v = true → endswith (lower s) (lower v) = true.
Proof.
  induction s as [|c s IH]; cbn [endswith lower].
  - intros [Heq|?]%orb_true_iff; [|done]. apply String.eqb_eq in Heq as <-. done.
  - intros [Heq|Htl]%orb_true_iff.
    + apply String.eqb_eq in Heq as <-. cbn [lower]. by rewrite String.eqb_refl.
    + rewrite IH by done. apply orb_true_r.
Qed.

(** An identifier that ends with [@lid] is matched by [LIKE '%@lid']. *)
Lemma endswith_like_lid x : endswith x "@lid" = true → like_lid x = true.
Proof. intros H. by apply endswith_lower in H. Qed.

Lemma lower_app u v : lower (u +:+ v) = lower u +:+ lower v.
Proof. induction u as [|c u IH]; [done|]. rewrite append_cons. simpl. by rewrite IH. Qed.

Lemma endswith_longer u v w :
  String.length w < String.length v → endswith v w = false →
  endswith (u +:+ v) w = false.
Proof.
  intros Hlen Hv. induction u as [|c u IH]; [done|].
  rewrite append_cons. cbn [endswith]. rewrite IH, orb_false_r.
  apply String.eqb_neq. intros Heq. apply (f_equal String.length) in Heq.
  simpl in Heq. rewrite length_append in Heq. lia.
Qed.

(** The identifiers built on line 51 are not matched by [LIKE '%@lid']. *)
Lemma whatsapp_jid_not_lid phone_user : like_lid (whatsapp_jid phone_user) = false.
Proof.
  unfold like_lid, whatsapp_jid. rewrite lower_app.
  apply endswith_longer; [vm_compute; lia|by vm_compute].
Qed.

(** ** Dictionaries and the lookup tables *)

Lemma getitem_setitem k k' v d :
  getitem k (setitem k' v d) = if decide (k = k') then Some v else getitem k d.
Proof.
  induction d as [|[k1 v1] d IH]; simpl.
  - by destruct (decide (k = k')).
  - destruct (decide (k' = k1)) as [->|Hne]; simpl.
    + by destruct (decide (k = k1)).
    + rewrite IH. destruct (decide (k = k1)) as [->|]; [|done].
      by rewrite decide_False.
Qed.

Lemma setitem_keys k v d : k ∈ d.*1 → (setitem k v d).*1 = d.*1.
Proof.
  induction d as [|[k1 v1] d IH]; simpl; [by intros ?%elem_of_nil|].
  destruct (decide (k = k1)) as [->|Hne]; [done|].
  intros [?|?]%elem_of_cons; [done|]. simpl. f_equal. auto.
Qed.

Lemma setitem_new_key k v d : k ∉ d.*1 → (setitem k v d).*1 = d.*1 ++ [k].
Proof.
  induction d as [|[k1 v1] d IH]; simpl; [done|].
  intros [? ?]%not_elem_of_cons. rewrite decide_False by done. simpl. f_equal. auto.
Qed.

Lemma setitem_NoDup k v d : NoDup d.*1 → NoDup (setitem k v d).*1.
Proof.
  intros Hd. destruct (decide (k ∈ d.*1)).
  - by rewrite setitem_keys.
  - rewrite setitem_new_key by done. apply NoDup_app. set_solver by eauto using NoDup_singleton.
Qed.

(** The dictionary of lines 17-19 has one entry per [lid], the last one. *)
Lemma loaded_dict rows :
  let d := foldl (λ lid_map '(lid, pn), setitem lid pn lid_map) [] rows in
  NoDup d.*1 ∧ ∀ k, getitem k d = snd <$> last (filter (λ p, p.1 = k) rows).
Proof.
  induction rows as [|[lid pn] rows IH] using rev_ind; simpl.
  - split; [constructor|done].
  - rewrite foldl_app. simpl. destruct IH as [Hnd Hget]. split; [by apply setitem_NoDup|].
    intros k. rewrite getitem_setitem, filter_app, Hget. simpl.
    rewrite filter_cons, filter_nil. simpl.
    repeat case_decide; simplify_eq; by rewrite ?last_snoc, ?app_nil_r.
Qed.

(** The values of the bare-user map hold no ["@"]. *)
Lemma user_map_no_at lid_map k v :
  user_map lid_map !! k = Some v → contains_at v = false.
Proof.
  unfold user_map, build_maps.
  assert (∀ acc : gmap string string * gmap string string,
    (∀ k v, acc.2 !! k = Some v → contains_at v = false) →
    ∀ k v, (foldl (λ '(jid_map, user_map) '(lid_jid, pn_jid),
               (<[lid_jid := pn_jid]> jid_map,
                <[user_part lid_jid := user_part pn_jid]> user_map)) acc lid_map).2 !! k
           = Some v → contains_at v = false) as Hgen.
  { induction lid_map as [|[lid pn] lm IH]; intros [jm um] Hacc; [done|].
    simpl. apply IH. simpl. intros k' v' [[_ <-]|[_ ?]]%lookup_insert_Some.
    - apply user_part_no_at.
    - by eapply Hacc. }
  apply Hgen. intros ??. simpl. by rewrite lookup_empty.
Qed.

(** ** Monad laws used below *)

Lemma bind_inr {A B} (m : M A) (k : A → M B) w b w' :
  (m ≫= k) w = (inr b, w') →
  ∃ a w1, m w = (inr a, w1) ∧ k a w1 = (inr b, w').
Proof.
  unfold mbind, M_bind. destruct (m w) as [[e|a] w1]; [done|]. eauto.
Qed.

Lemma bind_inl {A B} (m : M A) (k : A → M B) w e w' :
  (m ≫= k) w = (inl e, w') →
  m w = (inl e, w') ∨ ∃ a w1, m w = (inr a, w1) ∧ k a w1 = (inl e, w').
Proof.
  unfold mbind, M_bind. destruct (m w) as [[e1|a] w1].
  - intros [= -> ->]. by left.
  - intros Hk. right. eauto.
Qed.

Lemma execute_tables E q fs path l s tr cur w' :
  q ≠ SelectLidMap →
  execute E q (World fs (Some (path, Database l (Some s))) tr) = (inr cur, w') →
  w' = World fs (Some (path, Database l (Some (run_stmt E q s).1))) (tr ++ [EvExecute q]) ∧
  cur = (run_stmt E q s).2.
Proof.
  intros Hq. unfold execute. simpl.
  destruct (fault E q _); [done|].
  destruct q; simpl; try done; intros [= <- <-]; done.
Qed.

Ltac exec_step H :=
  let H1 := fresh in
  apply bind_inr in H as (? & ? & H1 & H);
  apply execute_tables in H1 as [-> ->]; [|done]; simpl in H.

(** ** The loop bodies on the tables *)

Lemma migrate_chat_unfold E jm um n c w :
  migrate_chat E jm um n c w =
  match chat_target jm um c with
  | Some t => (merge_or_rename E c t;; mret (n + 1)) w
  | None => (print (NoMapping c);; mret n) w
  end.
Proof.
  unfold migrate_chat, chat_target, merge_or_rename.
  destruct (um !! bare_lid c) as [pu|]; [|destruct (jm !! c) as [t|]]; [| |done].
  all: unfold mbind, M_bind; by destruct (execute _ _ _) as [[?|?] ?].
Qed.

Lemma merge_or_rename_tables E c t fs path l s tr u w' :
  merge_or_rename E c t (World fs (Some (path, Database l (Some s))) tr) = (inr u, w') →
  ∃ evs,
    w' = World fs
           (Some (path, Database l
              (Some (if has_chat t s then merge_into c t s else rename_to c t s))))
           (tr ++ evs ++
              [EvPrint (if has_chat t s
                 then Merged c t
                        (length (filter (deleted_by c c t (messages s)) (messages s)))
                        (length (filter (λ m, chat_jid m = c)
                           (filter (λ m, ¬ deleted_by c c t (messages s) m) (messages s))))
                 else Renamed c t)]).
Proof.
  intros H. unfold merge_or_rename in H.
  exec_step H. fold (has_chat t s) in H. destruct (has_chat t s).
  - do 3 exec_step H. unfold print, log in H. simplify_eq/=.
    eexists [_;_;_;_]. by rewrite <- !app_assoc.
  - do 2 exec_step H. unfold print, log in H. simplify_eq/=.
    eexists [_;_;_]. by rewrite <- !app_assoc.
Qed.

Lemma migrate_chat_tables E jm um n c fs path l s tr n' w' :
  migrate_chat E jm um n c (World fs (Some (path, Database l (Some s))) tr) = (inr n', w') →
  ∃ evs,
    w' = World fs (Some (path, Database l (Some (chat_step jm um s c))))
               (tr ++ evs ++ [EvPrint (chat_line jm um s c)]).
Proof.
  rewrite migrate_chat_unfold. unfold chat_step, chat_line.
  destruct (chat_target jm um c) as [t|]; intros H.
  - apply bind_inr in H as (u & w1 & H1 & H).
    apply merge_or_rename_tables in H1 as [evs ->].
    unfold mret, M_ret in H. simplify_eq. by exists evs.
  - unfold print, log, mbind, M_bind, mret, M_ret in H. simplify_eq/=. by exists [].
Qed.

Lemma migrate_lid_sender_tables E jm um n x fs path l s tr n' w' :
  migrate_lid_sender E jm um n x (World fs (Some (path, Database l (Some s))) tr)
    = (inr n', w') →
  ∃ evs,
    w' = World fs (Some (path, Database l (Some (sender_step (full_lookup jm um) s x))))
               (tr ++ evs).
Proof.
  unfold migrate_lid_sender, sender_step, full_lookup.
  destruct (jm !! x) as [t|]; [|destruct (um !! user_part x) as [t|]]; intros H.
  1,2: exec_step H; unfold mret, M_ret in H; simplify_eq; by eexists.
  unfold mret, M_ret in H. simplify_eq. exists []. by rewrite app_nil_r.
Qed.

Lemma migrate_bare_sender_tables E um n x fs path l s tr n' w' :
  migrate_bare_sender E um n x (World fs (Some (path, Database l (Some s))) tr)
    = (inr n', w') →
  ∃ evs,
    w' = World fs (Some (path, Database l (Some (sender_step (bare_lookup um) s x))))
               (tr ++ evs).
Proof.
  unfold migrate_bare_sender, sender_step, bare_lookup.
  destruct (contains_at x); simpl; [|destruct (um !! x) as [t|]]; intros H.
  2: exec_step H; unfold mret, M_ret in H; simplify_eq; by eexists.
  all: unfold mret, M_ret in H; simplify_eq; exists []; by rewrite app_nil_r.
Qed.

(** A loop whose body follows [step] on the tables follows [foldl step]. *)
Lemma for_in_tables {A} (body : nat → A → M nat) (step : store → A → store)
    (said : A → store → event → Prop) (xs : list A) :
  (∀ n x fs path l s tr n' w',
     body n x (World fs (Some (path, Database l (Some s))) tr) = (inr n', w') →
     ∃ evs, w' = World fs (Some (path, Database l (Some (step s x)))) (tr ++ evs) ∧
            ∀ ev, said x s ev → ev ∈ evs) →
  ∀ n fs path l s tr n' w',
    for_in xs n body (World fs (Some (path, Database l (Some s))) tr) = (inr n', w') →
    ∃ evs, w' = World fs (Some (path, Database l (Some (foldl step s xs)))) (tr ++ evs) ∧
           ∀ pre x post ev, xs = pre ++ x :: post → said x (foldl step s pre) ev → ev ∈ evs.
Proof.
  intros Hbody. induction xs as [|x xs IH]; intros n fs path l s tr n' w' H; simpl in H.
  - unfold mret, M_ret in H. simplify_eq. exists []. rewrite app_nil_r. split; [done|].
    intros [|??] ???; done.
  - apply bind_inr in H as (n1 & w1 & H1 & H).
    apply Hbody in H1 as (evs1 & -> & Hsaid1).
    apply IH in H as (evs2 & -> & Hsaid2).
    exists (evs1 ++ evs2). rewrite app_assoc. split; [done|].
    intros [|y pre] z post ev Hxs Hev; simplify_eq/=.
    + apply elem_of_app. left. by apply Hsaid1.
    + apply elem_of_app. right. by eapply Hsaid2.
Qed.

Lemma connect_existing E path fs db u w' :
  fs !! path = Some db →
  connect E path (boot fs) = (u, w') →
  u = inr () ∧ w' = World fs (Some (path, db)) [EvConnect path].
Proof. unfold connect, boot. simpl. intros ->. by intros [= <- <-]. Qed.

(** A successful run commits [migrate_store] of the tables it found. *)
Lemma migrate_tables E path lid_map fs l s w' :
  fs !! path = Some (Database l (Some s)) →
  migrate_messages_db E path lid_map (boot fs) = (inr (), w') →
  files w' = <[path := Database l (Some (migrate_store E lid_map s))]> fs ∧
  connection w' = None ∧
  ∀ pre c post, lid_chats E s = pre ++ c :: post →
    EvPrint (chat_line (jid_map lid_map) (user_map lid_map)
               (foldl (chat_step (jid_map lid_map) (user_map lid_map)) s pre) c) ∈ trace w'.
Proof.
  intros Hfs H. unfold migrate_messages_db, migrate_store, jid_map, user_map in *.
  apply bind_inr in H as (u & w1 & H1 & H).
  apply (connect_existing _ _ _ _ _ _ Hfs) in H1 as [_ ->].
  destruct (build_maps lid_map) as [jm um]. simpl.
  exec_step H.
  apply bind_inr in H as (u1 & w1 & H1 & H). unfold print, log in H1. simplify_eq/=.
  apply bind_inr in H as (n1 & w1 & H1 & H).
  eapply (for_in_tables _ (chat_step jm um)
            (λ c s ev, ev = EvPrint (chat_line jm um s c))) in H1 as (evs1 & -> & Hsaid).
  2:{ intros ????????? Hb. apply migrate_chat_tables in Hb as [evs ->].
      eexists. split; [done|]. intros ev ->. set_solver. }
  apply bind_inr in H as (u2 & w1 & H1 & H). unfold print, log in H1. simplify_eq/=.
  exec_step H.
  apply bind_inr in H as (u3 & w1 & H1 & H). unfold print, log in H1. simplify_eq/=.
  apply bind_inr in H as (n2 & w1 & H1 & H).
  eapply (for_in_tables _ (sender_step (full_lookup jm um)) (λ _ _ _, False))
    in H1 as (evs2 & -> & _).
  2:{ intros ????????? Hb. apply migrate_lid_sender_tables in Hb as [evs ->].
      eexists. split; [done|]. done. }
  apply bind_inr in H as (u4 & w1 & H1 & H). unfold print, log in H1. simplify_eq/=.
  exec_step H.
  apply bind_inr in H as (n3 & w1 & H1 & H).
  eapply (for_in_tables _ (sender_step (bare_lookup um)) (λ _ _ _, False))
    in H1 as (evs3 & -> & _).
  2:{ intros ????????? Hb. apply migrate_bare_sender_tables in Hb as [evs ->].
      eexists. split; [done|]. done. }
  apply bind_inr in H as (u5 & w1 & H1 & H). unfold print, log in H1. simplify_eq/=.
  apply bind_inr in H as (u6 & w1 & H1 & H).
  unfold commit in H1. simpl in H1. destruct (commit_fault E _); [done|]. simplify_eq/=.
  apply bind_inr in H as (u7 & w1 & H1 & H). unfold close in H1. simplify_eq/=.
  unfold print, log in H. simplify_eq/=.
  split; [done|]. split; [done|].
  intros pre c post Hsplit. specialize (Hsaid pre c post _ Hsplit eq_refl).
  set_solver.
Qed.

(** ** Exceptions propagate and nothing is committed on the way *)

Lemma quiet_ret {A} (a : A) : quiet (mret a).
Proof.
  intros w r w' [= <- <-]. split; [done|]. exists []. rewrite app_nil_r.
  split; [done|]. split; intros ?; apply not_elem_of_nil.
Qed.

Lemma quiet_print l : quiet (print l).
Proof.
  intros w r w' [= <- <-]. split; [done|]. exists [EvPrint l].
  split; [done|]. split; intros ?; set_solver.
Qed.

Lemma quiet_raise {A} e : quiet (raise (A:=A) e).
Proof.
  intros w r w' [= <- <-]. split; [done|]. exists [EvRaise e].
  split; [done|]. split; [set_solver|]. exists []. split; [done|]. set_solver.
Qed.

Lemma quiet_execute E q : quiet (execute E q).
Proof.
  intros w r w' H. unfold execute in H.
  assert (∀ e, r = inl e → w' = log (EvRaise e) (log (EvExecute q) w) →
    files w' = files w ∧ ∃ evs, trace w' = trace w ++ evs ∧ (∀ p, EvCommit p ∉ evs) ∧
      match r with inl e => raised_last e evs | inr _ => ∀ e', EvRaise e' ∉ evs end) as Hraise.
  { intros e -> ->. split; [done|]. exists [EvExecute q; EvRaise e]. simpl.
    rewrite <- app_assoc. split; [done|]. split; [set_solver|].
    exists [EvExecute q]. split; [done|]. set_solver. }
  destruct (connection w) as [[path db]|]; [|unfold raise in H; simplify_eq; by eapply Hraise].
  destruct (fault E q db); [unfold raise in H; simplify_eq; by eapply Hraise|].
  destruct (sql E q db) as [e|[db' cur]]; [unfold raise in H; simplify_eq; by eapply Hraise|].
  simplify_eq/=. split; [done|]. exists [EvExecute q]. split; [done|]. set_solver.
Qed.

Lemma quiet_bind {A B} (m : M A) (k : A → M B) :
  quiet m → (∀ a, quiet (k a)) → quiet (m ≫= k).
Proof.
  intros Hm Hk w r w' H. unfold mbind, M_bind in H.
  destruct (m w) as [[e|a] w1] eqn:Hmw.
  - simplify_eq. by apply Hm in Hmw.
  - apply Hm in Hmw as (Hf1 & evs1 & Ht1 & Hc1 & Hr1).
    apply Hk in H as (Hf2 & evs2 & Ht2 & Hc2 & Hr2).
    split; [congruence|]. exists (evs1 ++ evs2).
    split; [by rewrite Ht2, Ht1, app_assoc|]. split; [set_solver|].
    destruct r as [e|b]; [|set_solver].
    destruct Hr2 as (evs' & -> & Hno). exists (evs1 ++ evs').
    split; [by rewrite app_assoc|]. set_solver.
Qed.

Lemma guarded_bind {A B} (m : M A) (k : A → M B) :
  quiet m → (∀ a, guarded (k a)) → guarded (m ≫= k).
Proof.
  intros Hm Hk w r w' H. unfold mbind, M_bind in H.
  destruct (m w) as [[e|a] w1] eqn:Hmw.
  - simplify_eq. apply Hm in Hmw as (Hf1 & evs1 & Ht1 & Hc1 & Hr1). by exists evs1.
  - apply Hm in Hmw as (Hf1 & evs1 & Ht1 & Hc1 & Hr1).
    apply Hk in H as (evs2 & Ht2 & Hr2).
    exists (evs1 ++ evs2). split; [by rewrite Ht2, Ht1, app_assoc|].
    destruct r as [e|b]; [|set_solver].
    destruct Hr2 as (Hf2 & Hc2 & evs' & -> & Hno).
    split; [congruence|]. split; [set_solver|]. exists (evs1 ++ evs').
    split; [by rewrite app_assoc|]. set_solver.
Qed.

Lemma quiet_for_in {A B} (xs : list A) (body : B → A → M B) acc :
  (∀ acc x, quiet (body acc x)) → quiet (for_in xs acc body).
Proof.
  intros Hbody. revert acc. induction xs as [|x xs IH]; intros acc; simpl.
  - apply quiet_ret.
  - apply quiet_bind; [apply Hbody|]. intros acc'. apply IH.
Qed.

Ltac quiet_tac :=
  repeat first
    [ apply quiet_ret | apply quiet_print | apply quiet_execute | apply quiet_raise
    | apply quiet_bind; [|intros ?]
    | match goal with |- quiet (if ?b then _ else _) => destruct b end
    | match goal with |- quiet (match ?o with Some _ => _ | None => _ end) => destruct o end ].

Lemma quiet_migrate_chat E jm um n c : quiet (migrate_chat E jm um n c).
Proof. unfold migrate_chat. quiet_tac. Qed.

Lemma quiet_migrate_lid_sender E jm um n x : quiet (migrate_lid_sender E jm um n x).
Proof. unfold migrate_lid_sender. quiet_tac. Qed.

Lemma quiet_migrate_bare_sender E um n x : quiet (migrate_bare_sender E um n x).
Proof. unfold migrate_bare_sender. quiet_tac. Qed.

Lemma guarded_commit_close E l : guarded (commit E;; close;; print l).
Proof.
  intros w r w' H. unfold mbind, M_bind, commit, close, print, raise, log in H.
  destruct (connection w) as [[path db]|].
  - destruct (commit_fault E db); simplify_eq/=.
    + exists [EvRaise (SqliteError s)]. split; [done|]. split; [done|].
      split; [set_solver|]. exists []. split; [done|]. set_solver.
    + eexists [_; _; _]. rewrite <- !app_assoc. split; [done|]. set_solver.
  - simplify_eq/=. eexists [_]. split; [done|]. split; [done|].
    split; [set_solver|]. exists []. split; [done|]. set_solver.
Qed.

Lemma guarded_migrate_after_connect E lid_map :
  guarded (
    let '(jid_map, user_map) := build_maps lid_map in
    cur ← execute E SelectLidChats;
    let lid_chats := fetchall cur in
    print (ChatsWithLid (length lid_chats));;
    chats_updated ← for_in lid_chats 0 (migrate_chat E jid_map user_map);
    print (ChatsUpdated chats_updated (length lid_chats));;
    cur ← execute E SelectLidSenders;
    let lid_senders_full := fetchall cur in
    print (LidSenders (length lid_senders_full));;
    senders_updated ← for_in lid_senders_full 0 (migrate_lid_sender E jid_map user_map);
    print (LidSendersUpdated senders_updated (length lid_senders_full));;
    cur ← execute E SelectSenders;
    let all_senders := fetchall cur in
    bare_updated ← for_in all_senders 0 (migrate_bare_sender E user_map);
    print (BareSendersUpdated bare_updated);;
    commit E;;
    close;;
    print (Complete chats_updated (senders_updated + bare_updated))).
Proof.
  destruct (build_maps lid_map) as [jm um].
  repeat first
    [ apply guarded_commit_close
    | apply guarded_bind;
      [ first [ apply quiet_execute | apply quiet_print
              | apply quiet_for_in; intros ??;
                first [ apply quiet_migrate_chat | apply quiet_migrate_lid_sender
                      | apply quiet_migrate_bare_sender ] ]
      | intros ? ] ].
Qed.

Lemma guarded_migrate E path lid_map fs r w' :
  is_Some (fs !! path) →
  migrate_messages_db E path lid_map (boot fs) = (r, w') →
  ∃ evs, trace w' = EvConnect path :: evs ∧
    match r with
    | inl e => files w' = fs ∧ (∀ p, EvCommit p ∉ evs) ∧ raised_last e evs
    | inr _ => ∀ e', EvRaise e' ∉ evs
    end.
Proof.
  intros [db Hfs] H. unfold migrate_messages_db in H.
  unfold mbind at 1, M_bind at 1 in H.
  destruct (connect E path (boot fs)) as [u w1] eqn:Hc.
  apply (connect_existing _ _ _ _ _ _ Hfs) in Hc as [-> ->].
  apply guarded_migrate_after_connect in H as (evs & Ht & Hr).
  exists evs. split; [done|]. by destruct r.
Qed.

(** C8. When a database operation raises during a run on an existing store,
    the run ends with that exception, nothing is committed, and the files are
    as they were. *)
Theorem database_error_aborts E path lid_map fs r w' e :
  is_Some (fs !! path) →
  migrate_messages_db E path lid_map (boot fs) = (r, w') →
  EvRaise e ∈ trace w' →
  r = inl e ∧
  last (trace w') = Some (EvRaise e) ∧
  (∀ p, EvCommit p ∉ trace w') ∧
  files w' = fs.
Proof.
  intros Hfs H Hin. apply guarded_migrate in H as (evs & Ht & Hr); [|done].
  rewrite Ht in Hin |- *. apply elem_of_cons in Hin as [?|Hin]; [done|].
  destruct r as [e'|u]; [|by apply Hr in Hin].
  destruct Hr as (Hf & Hc & evs' & -> & Hno).
  apply elem_of_app in Hin as [Hin|Hin]; [by apply Hno in Hin|].
  apply list_elem_of_singleton in Hin as [= <-].
  split; [done|]. split; [|split; [|done]].
  - by rewrite app_comm_cons, last_snoc.
  - intros p [?|?]%elem_of_cons; [done|]. by eapply Hc.
Qed.

(** The disk fails while the messages of [111@lid] are moved. *)
Lemma database_error_aborts_witness :
  let run := migrate_messages_db broken_engine "messages.db" sample_map (boot sample_files) in
  run.1 = inl (SqliteError (OperationalError "disk I/O error")) ∧
  files run.2 = sample_files.
Proof.
  intros run.
  destruct (database_error_aborts broken_engine "messages.db" sample_map sample_files
              run.1 run.2 (SqliteError (OperationalError "disk I/O error")))
    as (Hr & _ & _ & Hf).
  - eexists. vm_compute. reflexivity.
  - apply surjective_pairing.
  - vm_compute. repeat constructor.
  - done.
Defined.

(** ** The lookups of the two loops *)

(** C6. On the chat identifier ["1@lid2@lid"], which ends with the suffix
    and holds it a second time inside, line 48 computes ["12"]: every
    occurrence of the suffix is removed.  The identifier with only its
    trailing suffix removed is ["1@lid2"].  With a mapping for the user [12]
    and none for [1@lid2], a run renames the chat. *)
Theorem bare_lid_removes_inner_suffix :
  endswith "1@lid2@lid" "@lid" = true ∧
  bare_lid "1@lid2@lid" = "12" ∧
  removesuffix "1@lid2@lid" "@lid" = "1@lid2" ∧
  bare_lid "1@lid2@lid" ≠ removesuffix "1@lid2@lid" "@lid" ∧
  user_map inner_map !! "1@lid2" = None ∧
  jid_map inner_map !! "1@lid2@lid" = None ∧
  let run := migrate_messages_db plain_engine "messages.db" inner_map (boot inner_files) in
  run.1 = inr () ∧
  chats <$> stored run.2 "messages.db" = Some [ChatRow "99@s.whatsapp.net" "odd"] ∧
  EvPrint (Renamed "1@lid2@lid" "99@s.whatsapp.net") ∈ trace run.2.
Proof.
  repeat split; try by vm_compute.
  vm_compute. do 6 apply list_elem_of_further. apply list_elem_of_here.
Qed.

(** C2. In the chat loop the bare-user map is looked up first, with the
    bare form of line 48, whatever the full-identifier map holds; the
    full-identifier map is looked up only when that misses.  The first hit
    alone fixes the target, and with it whether the chat is merged (a chat
    with the target exists) or renamed, the tables after the step and the line
    printed. *)
Theorem chat_lookup_precedence E jm um n c :
  let hit := match um !! bare_lid c with
             | Some phone_user => Some (whatsapp_jid phone_user)
             | None => jm !! c
             end in
  (∀ w, migrate_chat E jm um n c w =
        match hit with
        | Some t => (merge_or_rename E c t;; mret (n + 1)) w
        | None => (print (NoMapping c);; mret n) w
        end) ∧
  (∀ fs path l s tr n' w',
     migrate_chat E jm um n c (World fs (Some (path, Database l (Some s))) tr) = (inr n', w') →
     n' = match hit with Some _ => n + 1 | None => n end ∧
     ∃ evs,
       w' = World fs
              (Some (path, Database l (Some
                 match hit with
                 | Some t => if has_chat t s then merge_into c t s else rename_to c t s
                 | None => s
                 end)))
              (tr ++ evs ++ [EvPrint
                 match hit with
                 | Some t =>
                     if has_chat t s
                     then Merged c t
                            (length (filter (deleted_by c c t (messages s)) (messages s)))
                            (length (filter (λ m, chat_jid m = c)
                               (filter (λ m, ¬ deleted_by c c t (messages s) m) (messages s))))
                     else Renamed c t
                 | None => NoMapping c
                 end])).
Proof.
  intros hit. change hit with (chat_target jm um c). clear hit.
  split; [apply migrate_chat_unfold|].
  intros fs path l s tr n' w' H. split.
  - rewrite migrate_chat_unfold in H.
    destruct (chat_target jm um c) as [t|].
    + apply bind_inr in H as (u & w1 & _ & H). by injection H as <-.
    + apply bind_inr in H as (u & w1 & _ & H). by injection H as <-.
  - by apply migrate_chat_tables in H.
Qed.

(** The chat [111@lid] of the sample store: a bare-user hit, a merge. *)
Lemma chat_lookup_precedence_witness :
  ∃ evs,
    (migrate_chat plain_engine (jid_map sample_map) (user_map sample_map) 0 "111@lid"
       sample_world).2
    = World sample_files
        (Some ("messages.db", Database None (Some
           (merge_into "111@lid" "22211111111@s.whatsapp.net" sample_store))))
        ([] ++ evs ++ [EvPrint (Merged "111@lid" "22211111111@s.whatsapp.net" 1 1)]).
Proof.
  destruct (chat_lookup_precedence plain_engine (jid_map sample_map) (user_map sample_map)
              0 "111@lid") as [_ H].
  destruct (H sample_files "messages.db" None sample_store [] 1
              (migrate_chat plain_engine (jid_map sample_map) (user_map sample_map) 0
                 "111@lid" sample_world).2) as [_ [evs Hw]].
  - vm_compute. reflexivity.
  - exists evs. exact Hw.
Defined.

(** C3 (as amended). In the loop over the senders that end with [@lid] the
    full-identifier map is looked up first, with the sender as it is; on a
    hit one [UPDATE] gives every row with that sender the mapped identifier
    and leaves the other rows, and the other columns, as they were.  Only on
    a miss is the bare-user map looked up, with the part of the sender before
    its first ["@"] (for a sender [u@lid] whose [u] holds no ["@"] that is
    [u], the sender without its suffix); on that hit every row with that
    sender gets the mapped user, which holds no ["@"].  Otherwise no
    statement is executed and nothing changes. *)
Theorem sender_lookup_precedence E lid_map n x fs path l s tr n' w' :
  let jm := jid_map lid_map in
  let um := user_map lid_map in
  let rewritten new_sender :=
    Store (chats s)
          ((λ m, if decide (sender m = x)
                 then MessageRow (msg_id m) (chat_jid m) new_sender (msg_cols m)
                 else m) <$> messages s) in
  migrate_lid_sender E jm um n x (World fs (Some (path, Database l (Some s))) tr)
    = (inr n', w') →
  (∀ u, contains_at u = false →
        user_part (u +:+ "@lid") = u ∧ removesuffix (u +:+ "@lid") "@lid" = u) ∧
  match jm !! x with
  | Some new_sender =>
      w' = World fs (Some (path, Database l (Some (rewritten new_sender))))
                 (tr ++ [EvExecute (UpdateSender new_sender x)]) ∧
      n' = n + 1
  | None =>
      match um !! user_part x with
      | Some new_sender =>
          w' = World fs (Some (path, Database l (Some (rewritten new_sender))))
                     (tr ++ [EvExecute (UpdateSender new_sender x)]) ∧
          n' = n + 1 ∧ contains_at new_sender = false
      | None =>
          w' = World fs (Some (path, Database l (Some s))) tr ∧ n' = n
      end
  end.
Proof.
  intros jm um rewritten H.
  split; [intros u Hu; split; [by apply user_part_lid|apply removesuffix_app]|].
  unfold migrate_lid_sender in H.
  destruct (jm !! x) as [t|]; [|destruct (um !! user_part x) as [t|] eqn:Hu].
  - exec_step H. unfold mret, M_ret in H. by simplify_eq.
  - exec_step H. unfold mret, M_ret in H. simplify_eq.
    split; [done|]. split; [done|]. by eapply user_map_no_at.
  - unfold mret, M_ret in H. by simplify_eq.
Qed.

(** The sender [111@lid] of the sample store: a full-identifier hit, which
    rewrites the two rows sent by [111@lid] and leaves the third. *)
Lemma sender_lookup_precedence_witness :
  (migrate_lid_sender plain_engine (jid_map sample_map) (user_map sample_map) 0 "111@lid"
     sample_world).2
  = World sample_files
      (Some ("messages.db", Database None (Some
         (Store (chats sample_store)
            [MessageRow "m1" "111@lid" "22211111111@s.whatsapp.net" "hello";
             MessageRow "m2" "111@lid" "333" "again";
             MessageRow "m1" "22211111111@s.whatsapp.net" "22211111111@s.whatsapp.net"
                        "hello"]))))
      [EvExecute (UpdateSender "22211111111@s.whatsapp.net" "111@lid")].
Proof.
  destruct (sender_lookup_precedence plain_engine sample_map 0 "111@lid" sample_files
              "messages.db" None sample_store [] 1
              (migrate_lid_sender plain_engine (jid_map sample_map) (user_map sample_map) 0
                 "111@lid" sample_world).2) as [_ Hhit].
  - vm_compute. reflexivity.
  - assert (jid_map sample_map !! "111@lid" = Some "22211111111@s.whatsapp.net") as Hj
      by (vm_compute; reflexivity).
    rewrite Hj in Hhit. destruct Hhit as [Hw _]. rewrite Hw. reflexivity.
Defined.

(** C3 fails as stated: the sender [7@a@lid] ends with the suffix and is not
    in the full-identifier map; the sender without its suffix, [7@a], is not
    in the bare-user map.  The bare-user map is looked up with [7], the part
    before the first ["@"], for which there is an entry, and the row is
    rewritten to [9]. *)
Lemma sender_fallback_takes_user_part :
  let x := "7@a@lid" in
  let jm := jid_map part_map in
  let um := user_map part_map in
  let run := migrate_messages_db plain_engine "messages.db" part_map (boot part_files) in
  endswith x "@lid" = true ∧
  jm !! x = None ∧
  removesuffix x "@lid" = "7@a" ∧
  um !! removesuffix x "@lid" = None ∧
  user_part x = "7" ∧
  um !! user_part x = Some "9" ∧
  run.1 = inr () ∧
  messages <$> stored run.2 "messages.db" =
    Some [MessageRow "m1" "9@s.whatsapp.net" "9" "hello";
          MessageRow "m2" "9@s.whatsapp.net" "8" "again"] ∧
  EvExecute (UpdateSender "9" "7@a@lid") ∈ trace run.2.
Proof.
  repeat split; try by vm_compute.
  vm_compute. do 6 apply list_elem_of_further. apply list_elem_of_here.
Qed.

(** C10. The loop over all the senders reads the senders after the loop
    over the [@lid] senders has written.  With the mapping [1 → 2, 2 → 3] and
    one message sent by [1@lid], one run executes two rewrites of that
    message: [1@lid] to [2] through the first entry (bare-user fallback of
    the first loop), then [2] to [3] through the second entry (second loop).
    The message ends with sender [3]. *)
Theorem chained_sender_rewrite :
  ∃ lid_map s,
    (∃ lid1 pn1 lid2 pn2,
       lid_map = [(lid1, pn1); (lid2, pn2)] ∧ lid1 ≠ lid2 ∧ user_part pn1 = user_part lid2) ∧
    sender <$> messages s = ["1@lid"] ∧
    let run := migrate_messages_db plain_engine "messages.db" lid_map
                 (boot {[ "messages.db" := Database None (Some s) ]}) in
    run.1 = inr () ∧
    (∃ before between after,
       trace run.2 =
         before ++ [EvExecute (UpdateSender "2" "1@lid")] ++ between ++
         [EvExecute SelectSenders; EvExecute (UpdateSender "3" "2")] ++ after) ∧
    (λ s', sender <$> messages s') <$> stored run.2 "messages.db" = Some ["3"].
Proof.
  exists chain_map, chain_store. split; [by eexists "1", "2", "2", "3"|].
  split; [done|]. split; [by vm_compute|]. split; [|by vm_compute].
  eexists [_; _; _; _; _; _], [_], _. vm_compute. reflexivity.
Qed.

(** ** The mapping loader *)

(** C7 (as amended). The existence check is [main]'s: when the store file is
    absent it prints the path and exits with status 1, and the loader is not
    called.  The loader itself, called on a path without a file, ends with an
    error of SQLite (never a file-not-found error): where the file cannot be
    created, ["unable to open database file"]; otherwise the empty file is
    created, the [SELECT] fails (with ["no such table"] unless the engine
    fails first) and the connection is left open.  On a store with the mapping
    table, when the statement does not fail, it returns the dictionary with
    one entry per [lid] (the last row wins), changes no file and closes its
    connection before it returns. *)
Theorem mapping_loader_outcomes E script_dir fs path :
  (fs !! WHATSMEOW_DB script_dir = None →
   main E script_dir (boot fs) =
     (inl (SystemExit 1),
      World fs None [EvPrint (WhatsmeowNotFound (WHATSMEOW_DB script_dir));
                     EvRaise (SystemExit 1)]) ∧
   exit_status (main E script_dir (boot fs)).1 = 1) ∧
  (fs !! path = None →
   ∃ e w', load_lid_map E path (boot fs) = (inl (SqliteError e), w') ∧
     if creatable E path
     then files w' = <[path := no_tables]> fs ∧ connection w' = Some (path, no_tables) ∧
          (fault E SelectLidMap no_tables = None →
           e = OperationalError "no such table: whatsmeow_lid_map")
     else e = OperationalError "unable to open database file" ∧
          files w' = fs ∧ connection w' = None) ∧
  (∀ db rows,
     fs !! path = Some db →
     whatsmeow_lid_map db = Some rows →
     fault E SelectLidMap db = None →
     ∃ d w', load_lid_map E path (boot fs) = (inr d, w') ∧
       files w' = fs ∧ connection w' = None ∧
       trace w' = [EvConnect path; EvExecute SelectLidMap; EvClose; EvPrint (Loaded (length d))] ∧
       NoDup d.*1 ∧
       ∀ lid, getitem lid d = snd <$> last (filter (λ row, row.1 = lid) (pair_order E rows))).
Proof.
  split; [|split].
  - intros Hfs.
    assert (main E script_dir (boot fs) =
      (inl (SystemExit 1),
       World fs None [EvPrint (WhatsmeowNotFound (WHATSMEOW_DB script_dir));
                      EvRaise (SystemExit 1)])) as Hmain.
    { unfold main, os_path_exists, mbind, M_bind, boot. simpl.
      rewrite Hfs. rewrite bool_decide_false by (by intros [??]). done. }
    by rewrite Hmain.
  - intros Hfs. unfold load_lid_map, mbind, M_bind, connect, boot. simpl. rewrite Hfs.
    destruct (creatable E path) eqn:Hcr; [|by eexists _, _].
    unfold execute. simpl. destruct (fault E SelectLidMap no_tables) as [e|].
    + by eexists _, _.
    + simpl. by eexists _, _.
  - intros db rows Hfs Hrows Hfault.
    unfold load_lid_map, mbind, M_bind, connect, boot. simpl. rewrite Hfs.
    unfold execute. simpl. rewrite Hfault. simpl. rewrite Hrows.
    eexists _, _. split; [done|]. simpl. repeat split; try done; apply loaded_dict.
Qed.

(** No file at all, and a store with the sample mapping. *)
Lemma mapping_loader_outcomes_witness :
  (main plain_engine "" (boot ∅)).1 = inl (SystemExit 1) ∧
  (∃ e, (load_lid_map plain_engine "whatsapp.db" (boot ∅)).1 = inl (SqliteError e)) ∧
  (∃ d, (load_lid_map plain_engine "whatsapp.db"
           (boot {[ "whatsapp.db" := Database (Some sample_map) None ]})).1 = inr d ∧
        getitem "333" d = Some "44433333333").
Proof.
  split; [|split].
  - destruct (mapping_loader_outcomes plain_engine "" ∅ "whatsapp.db") as (H & _ & _).
    destruct H as [H _]; [vm_compute; reflexivity|]. by rewrite H.
  - destruct (mapping_loader_outcomes plain_engine "" ∅ "whatsapp.db") as (_ & H & _).
    destruct H as (e & w' & H & _); [vm_compute; reflexivity|].
    exists e. by rewrite H.
  - destruct (mapping_loader_outcomes plain_engine ""
                {[ "whatsapp.db" := Database (Some sample_map) None ]} "whatsapp.db")
      as (_ & _ & H).
    destruct (H (Database (Some sample_map) None) sample_map)
      as (d & w' & Hrun & _ & _ & _ & _ & Hget); [vm_compute; reflexivity|done|done|].
    exists d. split; [by rewrite Hrun|]. rewrite Hget. vm_compute. reflexivity.
Defined.

(** C7 fails as stated: on a path without a file the loader does not end
    with a file-not-found error.  SQLite creates an empty database there, the
    [SELECT] fails for want of the table, and the connection stays open. *)
Lemma mapping_loader_missing_file :
  let fs : gmap string database := ∅ in
  let run := load_lid_map plain_engine "whatsapp.db" (boot fs) in
  fs !! "whatsapp.db" = None ∧
  run.1 = inl (SqliteError (OperationalError "no such table: whatsmeow_lid_map")) ∧
  run.1 ≠ inl (FileNotFoundError "whatsapp.db") ∧
  files run.2 = {[ "whatsapp.db" := no_tables ]} ∧
  connection run.2 = Some ("whatsapp.db", no_tables).
Proof.
  intros fs run. split; [by vm_compute|]. split; [by vm_compute|].
  split; [by vm_compute|]. split; vm_compute; reflexivity.
Qed.

(** ** The sender loops on the rows *)

Lemma set_sender_same m : set_sender (sender m) m = m.
Proof. by destruct m. Qed.

Lemma set_chat_jid_same m : set_chat_jid (chat_jid m) m = m.
Proof. by destruct m. Qed.

Lemma sender_loop_rows g xs s :
  foldl (sender_step g) s xs =
  Store (chats s) ((λ m, set_sender (chase g xs (sender m)) m) <$> messages s).
Proof.
  revert s. induction xs as [|y xs IH]; intros s; simpl.
  - destruct s as [cs ms]. simpl. f_equal. rewrite <- (list_fmap_id ms) at 1.
    apply list_fmap_ext. intros _ m _. by rewrite set_sender_same.
  - rewrite IH. unfold sender_step. destruct (g y) as [z|]; [|done]. simpl. f_equal.
    rewrite <- list_fmap_compose. apply list_fmap_ext. intros _ m _. simpl.
    unfold resend. destruct (decide (sender m = y)); by destruct m.
Qed.

(** A value that is not looked up, or is looked up and missed, stays. *)
Lemma chase_frame g xs x : x ∉ xs ∨ g x = None → chase g xs x = x.
Proof.
  induction xs as [|y xs IH]; simpl; [done|]. intros Hx.
  destruct (g y) as [z|] eqn:Hy.
  - rewrite decide_False; [apply IH|]; set_solver.
  - apply IH. set_solver.
Qed.

(** Without chains inside [xs], the values of [xs] move one step. *)
Lemma chase_once g xs x :
  (∀ y z, y ∈ xs → g y = Some z → z ∈ xs → g z = None) →
  x ∈ xs → chase g xs x = default x (g x).
Proof.
  induction xs as [|y xs IH]; simpl; [by intros _ ?%elem_of_nil|].
  intros Hchain Hx. destruct (decide (x = y)) as [->|Hne].
  - destruct (g y) as [z|] eqn:Hy; simpl.
    + apply chase_frame. destruct (decide (z ∈ xs)); [right|by left].
      apply (Hchain y z); [by apply list_elem_of_here|done|by apply list_elem_of_further].
    + destruct (decide (y ∈ xs)); [|by apply chase_frame; left].
      rewrite IH; [done| |done]. intros y0 z0 ???. apply (Hchain y0 z0); [by apply list_elem_of_further|done|by apply list_elem_of_further].
  - assert (x ∈ xs) by set_solver.
    assert (chase g xs x = default x (g x)) as Hrec.
    { apply IH; [|done]. intros y0 z0 ???. apply (Hchain y0 z0); [by apply list_elem_of_further|done|by apply list_elem_of_further]. }
    by destruct (g y).
Qed.

(** ** The rows the sender loops receive *)

Lemma elem_of_lid_senders E s x :
  x ∈ lid_senders E s ↔ like_lid x ∧ x ∈ sender <$> messages s.
Proof.
  unfold lid_senders. rewrite (row_order_perm E), elem_of_remove_dups.
  apply (list_elem_of_filter (λ x, Is_true (like_lid x))).
Qed.

Lemma elem_of_all_senders E s x : x ∈ all_senders E s ↔ x ∈ sender <$> messages s.
Proof. unfold all_senders. by rewrite (row_order_perm E), elem_of_remove_dups. Qed.

Lemma elem_of_lid_chats E s c :
  c ∈ lid_chats E s ↔ like_lid c ∧ c ∈ jid <$> chats s.
Proof.
  unfold lid_chats. rewrite (row_order_perm E).
  apply (list_elem_of_filter (λ x, Is_true (like_lid x))).
Qed.

Lemma sender_target_None jm um x :
  sender_target jm um x = None →
  (like_lid x = true → full_lookup jm um x = None) ∧ bare_lookup um x = None.
Proof.
  unfold sender_target. destruct (like_lid x).
  - destruct (full_lookup jm um x); [done|]. by intros ->.
  - by intros ->.
Qed.

Lemma sender_passes_rows E jm um s :
  bare_pass E um (full_pass E jm um s) =
  Store (chats s) ((λ m, set_sender (final_sender E jm um s (sender m)) m) <$> messages s).
Proof.
  unfold bare_pass, final_sender. rewrite sender_loop_rows.
  unfold full_pass at 1 3. rewrite sender_loop_rows. simpl. f_equal.
  rewrite <- list_fmap_compose. apply list_fmap_ext. intros _ m _. by destruct m.
Qed.

(** A sender without an applicable mapping is left as it is. *)
Lemma final_sender_frame E jm um s x :
  sender_target jm um x = None → final_sender E jm um s x = x.
Proof.
  intros [Hfull Hbare]%sender_target_None. unfold final_sender.
  rewrite (chase_frame (full_lookup jm um)).
  - apply chase_frame. by right.
  - destruct (like_lid x) eqn:Hx; [right; by apply Hfull|left].
    rewrite elem_of_lid_senders. rewrite Hx. by intros [? _].
Qed.

(** Without chains, a sender is rewritten to its target, once. *)
Lemma final_sender_once E jm um s x :
  no_sender_chain jm um → x ∈ sender <$> messages s →
  final_sender E jm um s x = default x (sender_target jm um x).
Proof.
  intros Hchain Hx. unfold final_sender.
  assert (∀ y z, bare_lookup um y = Some z → sender_target jm um y = Some z) as Hbare.
  { intros y z Hy. unfold sender_target. destruct (like_lid y) eqn:Hlid; [|done].
    apply like_lid_contains_at in Hlid. unfold bare_lookup in Hy. by rewrite Hlid in Hy. }
  destruct (like_lid x) eqn:Hlid.
  - rewrite (chase_once (full_lookup jm um)).
    + unfold sender_target at 1. rewrite Hlid.
      destruct (full_lookup jm um x) as [z|] eqn:Hfull; simpl.
      * apply chase_frame. right. eapply sender_target_None, Hchain.
        unfold sender_target. by rewrite Hlid, Hfull.
      * unfold bare_lookup at 2. rewrite (like_lid_contains_at x Hlid). simpl.
        apply chase_frame. right. unfold bare_lookup. by rewrite (like_lid_contains_at x Hlid).
    + intros y z [Hy _]%elem_of_lid_senders Hyz [Hz _]%elem_of_lid_senders.
      apply Is_true_true in Hy, Hz.
      apply (sender_target_None jm um z); [|done]. apply (Hchain y).
      unfold sender_target. by rewrite Hy, Hyz.
    + apply elem_of_lid_senders. by rewrite Hlid.
  - rewrite (chase_frame (full_lookup jm um)).
    2:{ left. rewrite elem_of_lid_senders, Hlid. by intros [? _]. }
    unfold sender_target. rewrite Hlid. apply chase_once.
    + intros y z _ Hyz _. eapply sender_target_None, Hchain, Hbare, Hyz.
    + apply elem_of_all_senders. unfold full_pass. rewrite sender_loop_rows. simpl.
      apply list_elem_of_fmap in Hx as (m & -> & Hm).
      apply list_elem_of_fmap. eexists. split; [|apply list_elem_of_fmap_2, Hm]. simpl.
      destruct m as [i c x0 o]. simpl in *. symmetry. apply chase_frame. left.
      rewrite elem_of_lid_senders, Hlid. by intros [? _].
Qed.

(** ** Rows through the loops *)

Lemma evolved_refl {A} (D : A → Prop) (R : A → A → Prop) l :
  (∀ x, R x x) → evolved D R l l.
Proof. intros HR. induction l; [constructor|by apply evolved_keep]. Qed.

Lemma evolved_filter_fmap {A B} (D : A → Prop) (R : A → B → Prop)
    (P : B → Prop) `{!∀ y, Decision (P y)} (f : B → B) l k :
  evolved D R l k →
  (∀ x y, R x y → ¬ P y → D x) →
  (∀ x y, R x y → P y → R x (f y)) →
  evolved D R l (f <$> filter P k).
Proof.
  intros Hev Hdel Hkeep. induction Hev as [|x l k HD _ IH|x y l k HR _ IH].
  - constructor.
  - by apply evolved_delete.
  - rewrite filter_cons. destruct (decide (P y)).
    + rewrite fmap_cons. apply evolved_keep; eauto.
    + apply evolved_delete; eauto.
Qed.

Lemma evolved_fmap {A B} (D : A → Prop) (R R' : A → B → Prop) (f : B → B) l k :
  evolved D R l k → (∀ x y, R x y → R' x (f y)) → evolved D R' l (f <$> k).
Proof.
  intros Hev HR. induction Hev; [constructor|by apply evolved_delete|].
  rewrite fmap_cons. apply evolved_keep; eauto.
Qed.

Lemma evolved_elem_of {A B} (D : A → Prop) (R : A → B → Prop) l k y :
  evolved D R l k → y ∈ k → ∃ x, x ∈ l ∧ R x y.
Proof.
  intros Hev. induction Hev as [|x l k _ _ IH|x y' l k HR _ IH]; intros Hy.
  - by apply elem_of_nil in Hy.
  - destruct (IH Hy) as (x' & ? & ?). exists x'. split; [by apply list_elem_of_further|done].
  - apply elem_of_cons in Hy as [->|Hy].
    + exists x. split; [apply list_elem_of_here|done].
    + destruct (IH Hy) as (x' & ? & ?). exists x'.
      split; [by apply list_elem_of_further|done].
Qed.

Lemma evolved_weaken {A B} (D : A → Prop) (R R' : A → B → Prop) l k :
  evolved D R l k → (∀ x y, x ∈ l → y ∈ k → R x y → R' x y) → evolved D R' l k.
Proof.
  intros Hev. induction Hev as [|x l k HD _ IH|x y l k HR _ IH]; intros HRR.
  - constructor.
  - apply evolved_delete; [done|]. apply IH. intros x' y' ??. apply HRR; [|done].
    by apply list_elem_of_further.
  - apply evolved_keep.
    + apply HRR; [apply list_elem_of_here..|done].
    + apply IH. intros x' y' ??. apply HRR; by apply list_elem_of_further.
Qed.

Lemma refiled_retarget jm um c t m m' :
  like_lid c → chat_target jm um c = Some t →
  refiled jm um m m' → refiled jm um m (retarget c t m').
Proof.
  intros Hc Ht (Hid & Hs & Hcols & Hchat). unfold retarget.
  destruct (decide (chat_jid m' = c)) as [Heq|]; [|done].
  split; [done|]. split; [done|]. split; [done|]. intros Hnot. exfalso.
  apply Hnot. rewrite <- (Hchat Hnot), Heq. split; [done|by eexists].
Qed.

Lemma chat_step_rows jm um s c ms :
  like_lid c →
  evolved (λ m, mapped_chat jm um (chat_jid m)) (refiled jm um) ms (messages s) →
  evolved (λ m, mapped_chat jm um (chat_jid m)) (refiled jm um) ms
          (messages (chat_step jm um s c)).
Proof.
  intros Hc Hev. unfold chat_step. destruct (chat_target jm um c) as [t|] eqn:Ht; [|done].
  destruct (has_chat t s); simpl.
  - apply evolved_filter_fmap; [done| |].
    + intros m m' (Hid & Hs & Hcols & Hchat) Hdel.
      apply dec_stable in Hdel as [Hdel _].
      destruct (decide (mapped_chat jm um (chat_jid m))) as [|Hnot]; [done|].
      rewrite <- (Hchat Hnot), Hdel. split; [done|by eexists].
    + intros m m' Hr _. by apply refiled_retarget.
  - eapply evolved_fmap; [done|]. intros m m' Hr. by apply refiled_retarget.
Qed.

Lemma chat_loop_rows jm um s cs :
  (∀ c, c ∈ cs → like_lid c) →
  evolved (λ m, mapped_chat jm um (chat_jid m)) (refiled jm um)
          (messages s) (messages (foldl (chat_step jm um) s cs)).
Proof.
  intros Hcs. induction cs as [|c cs IH] using rev_ind.
  - apply evolved_refl. by intros m.
  - rewrite foldl_app. simpl. apply chat_step_rows.
    + apply Hcs. apply elem_of_app. right. apply list_elem_of_here.
    + apply IH. intros c' ?. apply Hcs. apply elem_of_app. by left.
Qed.

Lemma chat_pass_rows E jm um s :
  evolved (λ m, mapped_chat jm um (chat_jid m)) (refiled jm um)
          (messages s) (messages (chat_pass E jm um s)).
Proof. apply chat_loop_rows. intros c Hc. by apply elem_of_lid_chats in Hc as [? _]. Qed.

(** The rows after a run, against the rows before it. *)
Lemma migrate_store_rows E lid_map s :
  let jm := jid_map lid_map in
  let um := user_map lid_map in
  let s1 := chat_pass E jm um s in
  chats (migrate_store E lid_map s) = chats s1 ∧
  evolved (λ m, mapped_chat jm um (chat_jid m))
    (λ m m', msg_id m' = msg_id m ∧ msg_cols m' = msg_cols m ∧
             (¬ mapped_chat jm um (chat_jid m) → chat_jid m' = chat_jid m) ∧
             sender m ∈ sender <$> messages s1 ∧
             sender m' = final_sender E jm um s1 (sender m))
    (messages s) (messages (migrate_store E lid_map s)).
Proof.
  intros jm um s1. unfold migrate_store. fold jm um s1. rewrite sender_passes_rows.
  split; [done|]. simpl. eapply evolved_fmap.
  - eapply evolved_weaken; [apply chat_pass_rows|].
    intros m m' _ Hm' Hr. exact (conj Hr Hm').
  - intros m m' [(Hid & Hs & Hcols & Hchat) Hm']. simpl.
    split; [done|]. split; [done|]. split; [done|]. rewrite <- Hs.
    split; [by apply list_elem_of_fmap_2|done].
Qed.

(** ** Chats the loop has no mapping for *)

Lemma chat_step_frame jm um s c r :
  chat_target jm um (jid r) = None → r ∈ chats s → r ∈ chats (chat_step jm um s c).
Proof.
  intros Hr Hin. unfold chat_step. destruct (chat_target jm um c) as [t|] eqn:Ht; [|done].
  assert (jid r ≠ c) as Hne by (intros Heq; rewrite Heq in Hr; congruence).
  destruct (has_chat t s); simpl.
  - by apply list_elem_of_filter.
  - apply list_elem_of_fmap. exists r. split; [|done]. unfold rejid. by rewrite decide_False.
Qed.

Lemma chat_loop_frame jm um s cs r :
  chat_target jm um (jid r) = None → r ∈ chats s → r ∈ chats (foldl (chat_step jm um) s cs).
Proof.
  intros Hr. revert s. induction cs as [|c cs IH]; intros s Hin; [done|].
  simpl. apply IH. by apply chat_step_frame.
Qed.

Lemma stored_after_run E path lid_map fs l s w' :
  fs !! path = Some (Database l (Some s)) →
  migrate_messages_db E path lid_map (boot fs) = (inr (), w') →
  stored w' path = Some (migrate_store E lid_map s).
Proof.
  intros Hfs H. destruct (migrate_tables _ _ _ _ _ _ _ Hfs H) as (Hf & _).
  unfold stored. by rewrite Hf, lookup_insert_eq.
Qed.

(** X19. Unmapped values, under the lookups as the code performs them: a
    chat whose identifier ends with [@lid], when the bare-user map has no
    entry for the bare form that line 48 computes (every occurrence of the
    suffix removed) and the full-identifier map has none for the identifier,
    is left in [chats] as it was, and ["NO MAPPING"] is printed for it.  A
    message under a chat the loop does not rewrite is neither deleted nor
    filed elsewhere, and a sender without an applicable mapping is left as it
    was. *)
Theorem unmapped_left_unchanged E path lid_map fs l s w' :
  let jm := jid_map lid_map in
  let um := user_map lid_map in
  fs !! path = Some (Database l (Some s)) →
  migrate_messages_db E path lid_map (boot fs) = (inr (), w') →
  ∃ s', stored w' path = Some s' ∧
    (∀ r, r ∈ chats s → endswith (jid r) "@lid" = true →
          um !! bare_lid (jid r) = None → jm !! jid r = None →
          r ∈ chats s' ∧ EvPrint (NoMapping (jid r)) ∈ trace w') ∧
    evolved (λ m, mapped_chat jm um (chat_jid m))
      (λ m m', msg_id m' = msg_id m ∧ msg_cols m' = msg_cols m ∧
               (¬ mapped_chat jm um (chat_jid m) → chat_jid m' = chat_jid m) ∧
               (sender_target jm um (sender m) = None → sender m' = sender m))
      (messages s) (messages s').
Proof.
  intros jm um Hfs H. exists (migrate_store E lid_map s).
  split; [by eapply stored_after_run|].
  destruct (migrate_store_rows E lid_map s) as [Hchats Hrows]. split.
  - intros r Hr Hend Hum Hjm.
    assert (chat_target jm um (jid r) = None) as Hnone.
    { unfold chat_target. by rewrite Hum. }
    split.
    + rewrite Hchats. by apply chat_loop_frame.
    + destruct (migrate_tables _ _ _ _ _ _ _ Hfs H) as (_ & _ & Hsaid).
      assert (jid r ∈ lid_chats E s) as Hin.
      { apply elem_of_lid_chats. split.
        - apply Is_true_true. by apply endswith_like_lid.
        - by apply list_elem_of_fmap_2. }
      apply list_elem_of_split in Hin as (pre & post & Hsplit).
      specialize (Hsaid pre (jid r) post Hsplit).
      unfold chat_line in Hsaid. fold jm um in Hsaid. by rewrite Hnone in Hsaid.
  - eapply evolved_weaken; [exact Hrows|].
    intros m m' _ _ (Hid & Hcols & Hchat & _ & Hsender).
    split; [done|]. split; [done|]. split; [done|].
    intros Hnone. rewrite Hsender. by apply final_sender_frame.
Qed.

(** The sample store under a mapping that does not know [111@lid]. *)
Lemma unmapped_left_unchanged_witness :
  ∃ s', stored (migrate_messages_db plain_engine "messages.db" chain_map
                  (boot sample_files)).2 "messages.db" = Some s' ∧
        ChatRow "111@lid" "alice" ∈ chats s'.
Proof.
  destruct (unmapped_left_unchanged plain_engine "messages.db" chain_map sample_files
              None sample_store
              (migrate_messages_db plain_engine "messages.db" chain_map (boot sample_files)).2)
    as (s' & Hs' & Hchat & _).
  - vm_compute. reflexivity.
  - vm_compute. reflexivity.
  - exists s'. split; [exact Hs'|].
    apply (Hchat (ChatRow "111@lid" "alice")); [|vm_compute; reflexivity..].
    vm_compute. apply list_elem_of_here.
Defined.

(** C9. The chat [1@lid2@lid] ends with the suffix; the bare-user map has
    no entry for the identifier without its suffix ([1@lid2]), for its user
    part ([1]) or for the identifier itself, and the full-identifier map has
    none for the identifier.  Line 48 removes every occurrence of the suffix
    and looks [12] up, for which there is an entry: a run renames the chat to
    [99@s.whatsapp.net], files its message there and prints [RENAMED], not
    [NO MAPPING]. *)
Theorem unmapped_chat_renamed :
  let c := "1@lid2@lid" in
  let jm := jid_map inner_map in
  let um := user_map inner_map in
  let run := migrate_messages_db plain_engine "messages.db" inner_map (boot stray_files) in
  endswith c "@lid" = true ∧
  removesuffix c "@lid" = "1@lid2" ∧
  um !! removesuffix c "@lid" = None ∧
  um !! user_part c = None ∧
  um !! c = None ∧
  jm !! c = None ∧
  bare_lid c = "12" ∧
  um !! bare_lid c = Some "99" ∧
  run.1 = inr () ∧
  stored run.2 "messages.db" =
    Some (Store [ChatRow "99@s.whatsapp.net" "odd"]
                [MessageRow "m1" "99@s.whatsapp.net" "me" "hello"]) ∧
  stdout run.2 =
    [ChatsWithLid 1; Renamed c "99@s.whatsapp.net"; ChatsUpdated 1 1;
     LidSenders 0; LidSendersUpdated 0 0; BareSendersUpdated 0; Complete 1 0].
Proof. repeat split; by vm_compute. Qed.

(** C5 (as amended). When no value a sender is rewritten to is itself
    rewritten, a sender [x] with an applicable mapping to [y] is gone after
    the run, and every message that had it and is still there has [y].
    (Messages are deleted only by the chat loop, under chats it merges.) *)
Theorem sender_rewrite_complete E path lid_map fs l s w' x y :
  let jm := jid_map lid_map in
  let um := user_map lid_map in
  fs !! path = Some (Database l (Some s)) →
  migrate_messages_db E path lid_map (boot fs) = (inr (), w') →
  no_sender_chain jm um →
  sender_target jm um x = Some y →
  ∃ s', stored w' path = Some s' ∧
    (∀ m, m ∈ messages s' → sender m ≠ x) ∧
    evolved (λ m, mapped_chat jm um (chat_jid m))
      (λ m m', msg_id m' = msg_id m ∧ msg_cols m' = msg_cols m ∧
               (sender m = x → sender m' = y))
      (messages s) (messages s').
Proof.
  intros jm um Hfs H Hchain Hxy. exists (migrate_store E lid_map s).
  split; [by eapply stored_after_run|].
  destruct (migrate_store_rows E lid_map s) as [_ Hrows]. fold jm um in Hrows.
  assert (evolved (λ m, mapped_chat jm um (chat_jid m))
            (λ m m', msg_id m' = msg_id m ∧ msg_cols m' = msg_cols m ∧
                     sender m' = default (sender m) (sender_target jm um (sender m)))
            (messages s) (messages (migrate_store E lid_map s))) as Hev.
  { eapply evolved_weaken; [exact Hrows|].
    intros m m' _ _ (Hid & Hcols & _ & Hin & Hsender).
    split; [done|]. split; [done|]. rewrite Hsender. by apply final_sender_once. }
  split.
  - intros m' Hm' Hx. destruct (evolved_elem_of _ _ _ _ _ Hev Hm') as (m & _ & _ & _ & Hs).
    rewrite Hx in Hs. destruct (sender_target jm um (sender m)) as [z|] eqn:Hz; simpl in Hs.
    + subst z. apply Hchain in Hz. congruence.
    + congruence.
  - eapply evolved_weaken; [exact Hev|].
    intros m m' _ _ (Hid & Hcols & Hs). split; [done|]. split; [done|].
    intros Hmx. by rewrite Hs, Hmx, Hxy.
Qed.

(** ** Checking a mapping for chains *)

Lemma sender_target_img jm um x y :
  sender_target jm um x = Some y → (∃ k, jm !! k = Some y) ∨ (∃ k, um !! k = Some y).
Proof.
  unfold sender_target, full_lookup, bare_lookup.
  destruct (like_lid x).
  - destruct (jm !! x) as [t|] eqn:Hj; [intros [= <-]; eauto|].
    destruct (um !! user_part x) as [t|] eqn:Hu; [intros [= <-]; eauto|].
    destruct (contains_at x); [done|]. eauto.
  - destruct (contains_at x); [done|]. eauto.
Qed.

Lemma no_sender_chain_check jm um :
  bool_decide (map_Forall (λ _ v, sender_target jm um v = None) jm ∧
               map_Forall (λ _ v, sender_target jm um v = None) um) →
  no_sender_chain jm um.
Proof.
  intros [Hj Hu]%bool_decide_unpack x y [[k Hk]|[k Hk]]%sender_target_img.
  - by eapply Hj.
  - by eapply Hu.
Qed.

Lemma chat_target_img jm um c t :
  chat_target jm um c = Some t →
  (∃ phone_user, t = whatsapp_jid phone_user) ∨ (∃ k, jm !! k = Some t).
Proof.
  unfold chat_target. destruct (um !! bare_lid c) as [pu|]; [intros [= <-]|]; eauto.
Qed.

Lemma no_chat_chain_check jm um :
  bool_decide (map_Forall (λ _ v, ¬ mapped_chat jm um v) jm) → no_chat_chain jm um.
Proof.
  intros Hj%bool_decide_unpack c t _ [[pu ->]|[k Hk]]%chat_target_img.
  - intros [Hlid _]. rewrite whatsapp_jid_not_lid in Hlid. done.
  - by eapply Hj.
Qed.

(** The sender [333] of the sample store. *)
Lemma sender_rewrite_complete_witness :
  ∃ s', stored (migrate_messages_db plain_engine "messages.db" sample_map
                  (boot sample_files)).2 "messages.db" = Some s' ∧
        ∀ m, m ∈ messages s' → sender m ≠ "333".
Proof.
  destruct (sender_rewrite_complete plain_engine "messages.db" sample_map sample_files
              None sample_store
              (migrate_messages_db plain_engine "messages.db" sample_map (boot sample_files)).2
              "333" "44433333333")
    as (s' & Hs' & Hgone & _).
  - vm_compute. reflexivity.
  - vm_compute. reflexivity.
  - apply no_sender_chain_check. vm_compute. exact I.
  - vm_compute. reflexivity.
  - exists s'. split; [exact Hs'|exact Hgone].
Defined.

(** C5 fails as stated: with the mapping [1 → 2, 2 → 3] the sender [1@lid]
    has the mapping to [2] (bare-user fallback), but the message that had
    [1@lid] ends with [3]: the second loop rewrites the [2] the first loop
    wrote. *)
Lemma sender_rewrite_chained :
  let jm := jid_map chain_map in
  let um := user_map chain_map in
  let run := migrate_messages_db plain_engine "messages.db" chain_map (boot chain_files) in
  sender_target jm um "1@lid" = Some "2" ∧
  messages chain_store = [MessageRow "m1" "9@s.whatsapp.net" "1@lid" "hello"] ∧
  run.1 = inr () ∧
  messages <$> stored run.2 "messages.db"
    = Some [MessageRow "m1" "9@s.whatsapp.net" "3" "hello"] ∧
  ¬ (∀ s', stored run.2 "messages.db" = Some s' →
       ∀ m', m' ∈ messages s' → msg_id m' = "m1" → sender m' = "2").
Proof.
  repeat split; try by vm_compute.
  intros H. specialize (H (Store [ChatRow "9@s.whatsapp.net" "group"]
                             [MessageRow "m1" "9@s.whatsapp.net" "3" "hello"])).
  discriminate (H ltac:(by vm_compute) _ (list_elem_of_here _ _) eq_refl).
Qed.

(** ** After the chat loop no rewritten identifier is left *)

Lemma has_chat_elem_of r s : r ∈ chats s → has_chat (jid r) s = true.
Proof.
  intros Hr. unfold has_chat. apply Nat.ltb_lt.
  assert (r ∈ filter (λ c, jid c = jid r) (chats s)) as Hin by by apply list_elem_of_filter.
  destruct (filter _ _); [by apply elem_of_nil in Hin|simpl; lia].
Qed.

Lemma has_chat_false t s : has_chat t s = false → t ∉ jid <$> chats s.
Proof.
  intros Hno (r & -> & Hr)%list_elem_of_fmap. apply has_chat_elem_of in Hr. congruence.
Qed.

Lemma chat_step_jids jm um s c t j :
  chat_target jm um c = Some t →
  j ∈ jid <$> chats (chat_step jm um s c) →
  j ≠ c ∧ (j ∈ jid <$> chats s ∨ j = t).
Proof.
  intros Ht. unfold chat_step. rewrite Ht. destruct (has_chat t s) eqn:Hhas; simpl.
  - intros (r & -> & [? ?]%list_elem_of_filter)%list_elem_of_fmap.
    split; [done|]. left. by apply list_elem_of_fmap_2.
  - intros (r' & -> & (r & -> & Hr)%list_elem_of_fmap)%list_elem_of_fmap.
    unfold rejid. destruct (decide (jid r = c)) as [Heq|Hne]; simpl.
    + split; [|by right]. intros ->. apply has_chat_elem_of in Hr. congruence.
    + split; [done|]. left. by apply list_elem_of_fmap_2.
Qed.

Lemma chat_step_message_chats jm um s c t j :
  chat_target jm um c = Some t → t ≠ c →
  j ∈ chat_jid <$> messages (chat_step jm um s c) →
  j ≠ c ∧ (j ∈ chat_jid <$> messages s ∨ j = t).
Proof.
  intros Ht Hne. unfold chat_step. rewrite Ht.
  assert (∀ ms : list message_row, j ∈ chat_jid <$> (retarget c t <$> ms) →
                j ≠ c ∧ (j ∈ chat_jid <$> ms ∨ j = t)) as Hre.
  { intros ms (m' & -> & (m & -> & Hm)%list_elem_of_fmap)%list_elem_of_fmap.
    unfold retarget. destruct (decide (chat_jid m = c)); simpl.
    - split; [done|by right].
    - split; [done|]. left. by apply list_elem_of_fmap_2. }
  destruct (has_chat t s); simpl; intros Hj; apply Hre in Hj as [? Hj]; [|done].
  split; [done|]. destruct Hj as [Hj|]; [left|by right].
  apply list_elem_of_fmap in Hj as (m & -> & [_ ?]%list_elem_of_filter).
  by apply list_elem_of_fmap_2.
Qed.

Lemma chat_loop_clean jm um (ids : store → list string) s cs :
  no_chat_chain jm um →
  (∀ c, c ∈ cs → like_lid c) →
  (∀ s c t j, chat_target jm um c = Some t → t ≠ c →
              j ∈ ids (chat_step jm um s c) → j ≠ c ∧ (j ∈ ids s ∨ j = t)) →
  ∀ j, j ∈ ids (foldl (chat_step jm um) s cs) → mapped_chat jm um j →
       j ∈ ids s ∧ j ∉ cs.
Proof.
  intros Hchain Hcs Hstep. induction cs as [|c cs IH] using rev_ind; intros j Hj Hmapped.
  - split; [done|]. apply not_elem_of_nil.
  - assert (like_lid c) as Hc.
    { apply Hcs, elem_of_app. right. apply list_elem_of_here. }
    assert (∀ c', c' ∈ cs → like_lid c') as Hcs'.
    { intros c' ?. apply Hcs, elem_of_app. by left. }
    rewrite foldl_app in Hj. simpl in Hj.
    destruct (chat_target jm um c) as [t|] eqn:Ht.
    + assert (¬ mapped_chat jm um t) as Hnt by by apply (Hchain c).
      assert (t ≠ c) as Hne.
      { intros ->. apply Hnt. split; [done|by eexists]. }
      apply (Hstep _ _ t) in Hj as [Hjc [Hj| ->]]; [|done..].
      destruct (IH Hcs' j Hj Hmapped) as [? ?]. split; [done|].
      rewrite elem_of_app, list_elem_of_singleton. tauto.
    + unfold chat_step in Hj. rewrite Ht in Hj.
      destruct (IH Hcs' j Hj Hmapped) as [? ?]. split; [done|].
      rewrite elem_of_app, list_elem_of_singleton. intros [?| ->]; [done|].
      destruct Hmapped as [_ [? ?]]. congruence.
Qed.

Lemma chat_pass_clean_chats E jm um s r :
  no_chat_chain jm um → r ∈ chats (chat_pass E jm um s) → ¬ mapped_chat jm um (jid r).
Proof.
  intros Hchain Hr Hmapped.
  destruct (chat_loop_clean jm um (λ s, jid <$> chats s) s (lid_chats E s) Hchain)
    with (j := jid r) as [Hin Hnot]; [| |by apply list_elem_of_fmap_2|done|].
  - intros c Hc. by apply elem_of_lid_chats in Hc as [? _].
  - intros ????? _. by apply chat_step_jids.
  - apply Hnot, elem_of_lid_chats. split; [apply Hmapped|done].
Qed.

Lemma chat_pass_clean_messages E jm um s m :
  no_chat_chain jm um →
  (∀ m, m ∈ messages s → chat_jid m ∈ jid <$> chats s) →
  m ∈ messages (chat_pass E jm um s) → ¬ mapped_chat jm um (chat_jid m).
Proof.
  intros Hchain Hfk Hm Hmapped.
  destruct (chat_loop_clean jm um (λ s, chat_jid <$> messages s) s (lid_chats E s) Hchain)
    with (j := chat_jid m) as [Hin Hnot]; [| |by apply list_elem_of_fmap_2|done|].
  - intros c Hc. by apply elem_of_lid_chats in Hc as [? _].
  - intros ??????. by apply chat_step_message_chats.
  - apply Hnot, elem_of_lid_chats. split; [apply Hmapped|].
    apply list_elem_of_fmap in Hin as (m0 & -> & Hm0). by apply Hfk.
Qed.

(** ** A run on a store without rewritable identifiers *)

Lemma chat_pass_noop E jm um s :
  (∀ r, r ∈ chats s → ¬ mapped_chat jm um (jid r)) → chat_pass E jm um s = s.
Proof.
  intros Hclean. unfold chat_pass.
  assert (∀ c, c ∈ lid_chats E s → chat_target jm um c = None) as Hnone.
  { intros c [Hlid (r & -> & Hr)%list_elem_of_fmap]%elem_of_lid_chats.
    destruct (chat_target jm um (jid r)) eqn:Ht; [|done].
    destruct (Hclean r Hr). split; [done|]. rewrite Ht. by eexists. }
  induction (lid_chats E s) as [|c cs IH]; [done|]. simpl.
  unfold chat_step at 2. rewrite Hnone by apply list_elem_of_here.
  apply IH. intros c' ?. by apply Hnone, list_elem_of_further.
Qed.

Lemma sender_passes_noop E jm um s :
  (∀ m, m ∈ messages s → sender_target jm um (sender m) = None) →
  bare_pass E um (full_pass E jm um s) = s.
Proof.
  intros Hclean. rewrite sender_passes_rows. destruct s as [cs ms]. simpl in *. f_equal.
  rewrite <- (list_fmap_id ms) at 2. apply list_fmap_ext. intros _ m Hm%list_elem_of_lookup_2.
  rewrite final_sender_frame by by apply Hclean. apply set_sender_same.
Qed.

Lemma migrate_store_noop E lid_map s :
  (∀ r, r ∈ chats s → ¬ mapped_chat (jid_map lid_map) (user_map lid_map) (jid r)) →
  (∀ m, m ∈ messages s →
        sender_target (jid_map lid_map) (user_map lid_map) (sender m) = None) →
  migrate_store E lid_map s = s.
Proof.
  intros Hc Hm. unfold migrate_store. rewrite chat_pass_noop by done.
  by apply sender_passes_noop.
Qed.

(** C1 (as amended). When no identifier a chat or a sender is rewritten to
    is itself rewritten, a second run on the files a successful run left
    changes no file, whether it succeeds or not.  After the first run no chat
    has an identifier the chat loop rewrites, no message has a sender with an
    applicable mapping and, when every message was filed under a chat of
    [chats], no message is filed under an identifier the chat loop
    rewrites. *)
Theorem migration_idempotent E1 E2 path lid_map fs l s w1 r2 w2 :
  let jm := jid_map lid_map in
  let um := user_map lid_map in
  fs !! path = Some (Database l (Some s)) →
  migrate_messages_db E1 path lid_map (boot fs) = (inr (), w1) →
  no_chat_chain jm um →
  no_sender_chain jm um →
  migrate_messages_db E2 path lid_map (boot (files w1)) = (r2, w2) →
  files w2 = files w1 ∧
  ∃ s1, stored w1 path = Some s1 ∧
    (∀ r, r ∈ chats s1 → ¬ mapped_chat jm um (jid r)) ∧
    (∀ m, m ∈ messages s1 → sender_target jm um (sender m) = None) ∧
    ((∀ m, m ∈ messages s → chat_jid m ∈ jid <$> chats s) →
     ∀ m, m ∈ messages s1 → ¬ mapped_chat jm um (chat_jid m)).
Proof.
  intros jm um Hfs H1 Hcc Hsc H2.
  destruct (migrate_tables _ _ _ _ _ _ _ Hfs H1) as (Hf1 & _ & _).
  destruct (migrate_store_rows E1 lid_map s) as [Hchats Hrows]. fold jm um in Hchats, Hrows.
  set (s1 := migrate_store E1 lid_map s) in *.
  assert (∀ r, r ∈ chats s1 → ¬ mapped_chat jm um (jid r)) as Hclean_chats.
  { intros r Hr. rewrite Hchats in Hr. by eapply chat_pass_clean_chats. }
  assert (∀ m, m ∈ messages s1 → sender_target jm um (sender m) = None) as Hclean_senders.
  { intros m' Hm'.
    destruct (evolved_elem_of _ _ _ _ _ Hrows Hm') as (m & _ & _ & _ & _ & Hin & Hs).
    rewrite Hs, final_sender_once by done.
    destruct (sender_target jm um (sender m)) as [z|] eqn:Hz; simpl; [|done].
    by apply Hsc in Hz. }
  assert (files w1 !! path = Some (Database l (Some s1))) as Hfs1.
  { by rewrite Hf1, lookup_insert_eq. }
  split.
  - destruct r2 as [e|[]].
    + apply guarded_migrate in H2 as (evs & _ & Hf & _); [done|by eexists].
    + destruct (migrate_tables _ _ _ _ _ _ _ Hfs1 H2) as (Hf2 & _ & _).
      rewrite Hf2, migrate_store_noop by done. by apply insert_id.
  - exists s1. split; [by eapply stored_after_run|]. split; [done|]. split; [done|].
    intros Hfk m' Hm' Hmapped.
    assert (∃ m1, m1 ∈ messages (chat_pass E1 jm um s) ∧ chat_jid m1 = chat_jid m')
      as (m1 & Hm1 & Heq).
    { unfold s1, migrate_store in Hm'. fold jm um in Hm'. rewrite sender_passes_rows in Hm'.
      simpl in Hm'. apply list_elem_of_fmap in Hm' as (m1 & -> & Hm1). by exists m1. }
    rewrite <- Heq in Hmapped. by eapply chat_pass_clean_messages.
Qed.

(** Two runs on the sample store. *)
Lemma migration_idempotent_witness :
  let w1 := (migrate_messages_db plain_engine "messages.db" sample_map (boot sample_files)).2 in
  let w2 := (migrate_messages_db plain_engine "messages.db" sample_map (boot (files w1))).2 in
  files w2 = files w1.
Proof.
  intros w1 w2.
  destruct (migration_idempotent plain_engine plain_engine "messages.db" sample_map
              sample_files None sample_store w1
              (migrate_messages_db plain_engine "messages.db" sample_map (boot (files w1))).1
              w2) as [Hfiles _].
  - vm_compute. reflexivity.
  - vm_compute. reflexivity.
  - apply no_chat_chain_check. vm_compute. exact I.
  - apply no_sender_chain_check. vm_compute. exact I.
  - apply surjective_pairing.
  - exact Hfiles.
Defined.

(** C1 fails as stated: with the mapping [1 → 2, 2 → 3] and one message
    sent by [1], the first run writes sender [2] and the second run, on the
    store the first one left, writes sender [3]. *)
Lemma migration_not_idempotent :
  let run1 := migrate_messages_db plain_engine "messages.db" chain_map (boot relay_files) in
  let run2 := migrate_messages_db plain_engine "messages.db" chain_map
                (boot (files run1.2)) in
  run1.1 = inr () ∧ run2.1 = inr () ∧
  messages <$> stored run1.2 "messages.db"
    = Some [MessageRow "m1" "9@s.whatsapp.net" "2" "hello"] ∧
  messages <$> stored run2.2 "messages.db"
    = Some [MessageRow "m1" "9@s.whatsapp.net" "3" "hello"] ∧
  files run2.2 ≠ files run1.2.
Proof.
  intros run1 run2. split; [by vm_compute|]. split; [by vm_compute|].
  split; [by vm_compute|]. split; [by vm_compute|].
  intros Heq.
  assert (stored run2.2 "messages.db" = stored run1.2 "messages.db") as Hst.
  { unfold stored. by rewrite Heq. }
  vm_compute in Hst. discriminate Hst.
Qed.

(** ** Merging one chat into another *)

Lemma filter_ext_in {A} (P Q : A → Prop) `{!∀ x, Decision (P x), !∀ x, Decision (Q x)}
    (l : list A) :
  (∀ x, x ∈ l → P x ↔ Q x) → filter P l = filter Q l.
Proof.
  induction l as [|a l IH]; intros Hext; [done|].
  rewrite !filter_cons. rewrite IH by (intros x ?; by apply Hext, list_elem_of_further).
  apply decide_ext, Hext, list_elem_of_here.
Qed.

Lemma filter_fmap_outside {A} (P : A → Prop) `{!∀ x, Decision (P x)} (f : A → A)
    (l : list A) :
  (∀ x, P (f x) → P x) → (∀ x, P x → f x = x) → filter P (f <$> l) = filter P l.
Proof.
  intros Hback Hid. induction l as [|a l IH]; [done|].
  rewrite fmap_cons, !filter_cons, IH. destruct (decide (P a)) as [Ha|Ha].
  - rewrite (Hid a Ha). by rewrite decide_True.
  - rewrite decide_False; [done|]. intros ?. by apply Ha, Hback.
Qed.

Lemma filter_fmap_comm {A} (P : A → Prop) `{!∀ x, Decision (P x)} (f : A → A)
    (l : list A) :
  (∀ x, P (f x) ↔ P x) → filter P (f <$> l) = f <$> filter P l.
Proof.
  intros Hiff. induction l as [|a l IH]; [done|].
  rewrite fmap_cons, !filter_cons, IH. destruct (decide (P a)) as [Ha|Ha].
  - rewrite decide_True by by apply Hiff. done.
  - rewrite decide_False; [done|]. intros ?. by apply Ha, Hiff.
Qed.

Lemma elem_of_duplicate_ids c t ms x :
  x ∈ duplicate_ids c t ms ↔
  ∃ m1 m2, m1 ∈ ms ∧ m2 ∈ ms ∧ msg_id m1 = x ∧ msg_id m2 = x ∧
           chat_jid m1 = c ∧ chat_jid m2 = t.
Proof.
  unfold duplicate_ids. rewrite list_elem_of_bind. split.
  - intros (m1 & (m2 & Hx & Hm2)%list_elem_of_bind & Hm1).
    destruct (decide _) as [(Hid & Hc & Ht)|]; [|by apply elem_of_nil in Hx].
    apply list_elem_of_singleton in Hx as ->. exists m1, m2. by rewrite Hid.
  - intros (m1 & m2 & Hm1 & Hm2 & Hx1 & Hx2 & Hc & Ht). exists m1. split; [|done].
    apply list_elem_of_bind. exists m2. split; [|done].
    rewrite decide_True by (by rewrite Hx1, Hx2). rewrite Hx1. apply list_elem_of_here.
Qed.

(** The [DELETE] of lines 56-60 removes the messages of [c] that collide
    with one of [t]. *)
Lemma deleted_by_collides c t ms m :
  m ∈ ms → deleted_by c c t ms m ↔ chat_jid m = c ∧ collides t ms m.
Proof.
  intros Hm. unfold deleted_by, collides. rewrite elem_of_duplicate_ids. split.
  - intros (Hc & m1 & m2 & _ & Hm2 & _ & Hx2 & _ & Ht). split; [done|]. by exists m2.
  - intros (Hc & m2 & Hm2 & Hid & Ht). split; [done|]. by exists m, m2.
Qed.

Lemma merge_into_messages c t s :
  t ≠ c →
  filter (λ m, chat_jid m = c ∨ chat_jid m = t) (messages (merge_into c t s)) =
  merged c t (messages s).
Proof.
  intros Hne. unfold merge_into, merged. simpl.
  assert (∀ ms : list message_row,
    filter (λ m, chat_jid m = c ∨ chat_jid m = t) (retarget c t <$> ms) =
    set_chat_jid t <$> filter (λ m, chat_jid m = c ∨ chat_jid m = t) ms) as Hre.
  { induction ms as [|m ms IH]; [done|]. rewrite fmap_cons, !filter_cons, IH.
    unfold retarget. destruct (decide (chat_jid m = c)) as [Hc|Hc]; simpl.
    - rewrite !decide_True by auto. done.
    - destruct (decide (chat_jid m = c ∨ chat_jid m = t)) as [[?|Ht]|]; [done| |done].
      f_equal. destruct m as [i cj sd o]. simpl in Ht. by subst cj. }
  rewrite Hre, list_filter_filter. f_equal. apply filter_ext_in. intros m Hm.
  rewrite deleted_by_collides by done. destruct (decide (chat_jid m = c)); naive_solver.
Qed.

Lemma collides_filter c t ms m :
  collides t (filter (λ m, chat_jid m = c ∨ chat_jid m = t) ms) m ↔ collides t ms m.
Proof.
  unfold collides. split.
  - intros (m2 & [_ ?]%list_elem_of_filter & ? & ?). by exists m2.
  - intros (m2 & ? & ? & ?). exists m2. split; [|done]. apply list_elem_of_filter. auto.
Qed.

(** [merged] looks at the messages of [c] and [t] only. *)
Lemma merged_filter c t ms :
  merged c t (filter (λ m, chat_jid m = c ∨ chat_jid m = t) ms) = merged c t ms.
Proof.
  unfold merged. f_equal. rewrite list_filter_filter. apply list_filter_iff. intros m.
  rewrite collides_filter. naive_solver.
Qed.

Lemma merged_chat_jid c t ms m : m ∈ merged c t ms → chat_jid m = t.
Proof. unfold merged. by intros (m0 & -> & _)%list_elem_of_fmap. Qed.

(** A step for another chat, whose target is neither [c] nor [t], leaves
    the chats and the messages of [c] and [t] alone. *)
Lemma chat_step_other jm um s c t c' :
  c' ≠ c → c' ≠ t →
  (∀ t', chat_target jm um c' = Some t' → t' ≠ t ∧ t' ≠ c) →
  filter (λ m, chat_jid m = c ∨ chat_jid m = t) (messages (chat_step jm um s c')) =
    filter (λ m, chat_jid m = c ∨ chat_jid m = t) (messages s) ∧
  filter (λ r, jid r = c ∨ jid r = t) (chats (chat_step jm um s c')) =
    filter (λ r, jid r = c ∨ jid r = t) (chats s).
Proof.
  intros Hc Ht Htarget. unfold chat_step.
  destruct (chat_target jm um c') as [t'|]; [|done].
  destruct (Htarget t' eq_refl) as [Ht't Ht'c].
  assert (∀ ms : list message_row,
    filter (λ m, chat_jid m = c ∨ chat_jid m = t) (retarget c' t' <$> ms) =
    filter (λ m, chat_jid m = c ∨ chat_jid m = t) ms) as Hre.
  { intros ms. apply filter_fmap_outside; intros m; unfold retarget;
      destruct (decide (chat_jid m = c')); simpl; naive_solver. }
  destruct (has_chat t' s); simpl; rewrite Hre.
  - split.
    + apply list_filter_filter_l. intros m Hm [Hdel _]. naive_solver.
    + apply list_filter_filter_l. naive_solver.
  - split; [done|]. apply filter_fmap_outside; intros r; unfold rejid;
      destruct (decide (jid r = c')); simpl; naive_solver.
Qed.

Lemma chat_loop_other jm um s c t cs :
  (∀ c', c' ∈ cs → c' ≠ c ∧ c' ≠ t ∧
         ∀ t', chat_target jm um c' = Some t' → t' ≠ t ∧ t' ≠ c) →
  filter (λ m, chat_jid m = c ∨ chat_jid m = t) (messages (foldl (chat_step jm um) s cs)) =
    filter (λ m, chat_jid m = c ∨ chat_jid m = t) (messages s) ∧
  filter (λ r, jid r = c ∨ jid r = t) (chats (foldl (chat_step jm um) s cs)) =
    filter (λ r, jid r = c ∨ jid r = t) (chats s).
Proof.
  revert s. induction cs as [|c' cs IH]; intros s Hcs; [done|]. simpl.
  destruct (Hcs c') as (? & ? & ?); [apply list_elem_of_here|].
  destruct (IH (chat_step jm um s c')) as [-> ->].
  { intros ??. by apply Hcs, list_elem_of_further. }
  by apply chat_step_other.
Qed.

Lemma filter_all {A} (P : A → Prop) `{!∀ x, Decision (P x)} (l : list A) :
  (∀ x, x ∈ l → P x) → filter P l = l.
Proof.
  induction l as [|a l IH]; intros Hall; [done|].
  rewrite filter_cons, decide_True by apply Hall, list_elem_of_here.
  f_equal. apply IH. intros x ?. by apply Hall, list_elem_of_further.
Qed.

Lemma filter_jid_absent t (rs : list chat_row) :
  t ∉ jid <$> rs → filter (λ r, jid r = t) rs = [].
Proof.
  induction rs as [|r rs IH]; [done|]. rewrite fmap_cons, not_elem_of_cons.
  intros [Hne Hnot]. rewrite filter_cons, decide_False by done. by apply IH.
Qed.

(** [jid] is the key of [chats]: one row for an identifier that is there. *)
Lemma filter_jid_unique t (rs : list chat_row) :
  NoDup (jid <$> rs) → t ∈ jid <$> rs → length (filter (λ r, jid r = t) rs) = 1.
Proof.
  induction rs as [|r rs IH]; [by intros _ ?%elem_of_nil|].
  rewrite fmap_cons, NoDup_cons, elem_of_cons, filter_cons. intros [Hnot Hnd] Hin.
  destruct (decide (jid r = t)) as [<-|Hne].
  - by rewrite filter_jid_absent.
  - apply IH; [done|]. by destruct Hin.
Qed.

(** C4 (as amended). Let the chat [c] be one the chat loop sees, with
    target [t], while a chat [t] exists before the run.  Provided that [t] is
    not itself an identifier the loop sees and that no other chat of the
    store the loop sees has the target [t] or [c] ([chats] having one row per
    identifier), after the run there is exactly one chat [t] and no chat [c];
    no message is filed under [c]; and the messages under [t] are, in their
    order and up to their senders, those that were under [t] before the run
    and those of [c] that had no message of the same [id] under [t] before the
    run. *)
Theorem merge_postcondition E path lid_map fs l s w' c t :
  let jm := jid_map lid_map in
  let um := user_map lid_map in
  fs !! path = Some (Database l (Some s)) →
  migrate_messages_db E path lid_map (boot fs) = (inr (), w') →
  NoDup (jid <$> chats s) →
  c ∈ jid <$> chats s →
  like_lid c = true →
  chat_target jm um c = Some t →
  t ∈ jid <$> chats s →
  like_lid t = false →
  (∀ c' t', c' ∈ jid <$> chats s → like_lid c' = true → c' ≠ c →
            chat_target jm um c' = Some t' → t' ≠ t ∧ t' ≠ c) →
  ∃ s', stored w' path = Some s' ∧
    length (filter (λ r, jid r = t) (chats s')) = 1 ∧
    (∀ r, r ∈ chats s' → jid r ≠ c) ∧
    (∀ m, m ∈ messages s' → chat_jid m ≠ c) ∧
    unsent <$> filter (λ m, chat_jid m = t) (messages s') =
    unsent <$> (set_chat_jid t <$>
      filter (λ m, chat_jid m = t ∨ (chat_jid m = c ∧ ¬ collides t (messages s) m))
             (messages s)).
Proof.
  intros jm um Hfs H Hnd Hc Hlid Htarget Ht Htlid Hothers.
  exists (migrate_store E lid_map s). split; [by eapply stored_after_run|].
  assert (t ≠ c) as Htc by (intros ->; congruence).
  (* the chats the loop sees, around [c] *)
  assert (c ∈ lid_chats E s) as Hin.
  { apply elem_of_lid_chats. by rewrite Hlid. }
  assert (NoDup (lid_chats E s)) as Hnd'.
  { unfold lid_chats. rewrite (row_order_perm E). by apply NoDup_filter. }
  apply list_elem_of_split in Hin as (pre & post & Hsplit).
  rewrite Hsplit in Hnd'. apply NoDup_app in Hnd' as (_ & Hpre & [Hpost _]%NoDup_cons).
  assert (∀ c', c' ∈ pre ∨ c' ∈ post → c' ≠ c ∧ c' ≠ t ∧
            ∀ t', chat_target jm um c' = Some t' → t' ≠ t ∧ t' ≠ c) as Hrest.
  { intros c' Hc'.
    assert (c' ∈ lid_chats E s) as [Hl' Hj']%elem_of_lid_chats.
    { rewrite Hsplit, elem_of_app, elem_of_cons. tauto. }
    apply Is_true_true in Hl'.
    assert (c' ≠ c) as Hne.
    { intros ->. destruct Hc' as [Hc'|Hc']; [by apply Hpre in Hc'; apply Hc', list_elem_of_here|done]. }
    split; [done|]. split; [intros ->; congruence|].
    intros t' Ht'. by apply (Hothers c'). }
  (* the loop, in three parts *)
  set (s_pre := foldl (chat_step jm um) s pre).
  destruct (chat_loop_other jm um s c t pre) as [Hm_pre Hc_pre]; [by auto|]. fold s_pre in Hm_pre, Hc_pre.
  assert (has_chat t s_pre = true) as Hhas.
  { apply list_elem_of_fmap in Ht as (r & -> & Hr).
    assert (r ∈ filter (λ r0, jid r0 = c ∨ jid r0 = jid r) (chats s_pre)) as Hr'.
    { rewrite Hc_pre. apply list_elem_of_filter. auto. }
    apply list_elem_of_filter in Hr' as [_ Hr']. by apply has_chat_elem_of. }
  set (s_c := chat_step jm um s_pre c).
  assert (s_c = merge_into c t s_pre) as Hs_c.
  { unfold s_c, chat_step. fold jm um. by rewrite Htarget, Hhas. }
  set (s_end := foldl (chat_step jm um) s_c post).
  assert (chat_pass E jm um s = s_end) as Hpass.
  { unfold chat_pass. by rewrite Hsplit, foldl_app. }
  destruct (chat_loop_other jm um s_c c t post) as [Hm_end Hc_end]; [by auto|].
  fold s_end in Hm_end, Hc_end.
  assert (filter (λ m, chat_jid m = c ∨ chat_jid m = t) (messages s_end)
          = merged c t (messages s)) as Hmessages.
  { rewrite Hm_end, Hs_c, merge_into_messages by done.
    by rewrite <- merged_filter, Hm_pre, merged_filter. }
  assert (filter (λ r, jid r = c ∨ jid r = t) (chats s_end)
          = filter (λ r, jid r = t) (chats s)) as Hchats.
  { rewrite Hc_end, Hs_c. unfold merge_into. simpl. rewrite list_filter_filter.
    rewrite <- (list_filter_filter_l (λ r, jid r = t) (λ r, jid r = c ∨ jid r = t) (chats s))
      by auto.
    rewrite <- Hc_pre, list_filter_filter. apply list_filter_iff. naive_solver. }
  (* the sender loops *)
  destruct (migrate_store_rows E lid_map s) as [Hchats' _]. fold jm um in Hchats'.
  rewrite Hpass in Hchats'.
  assert (messages (migrate_store E lid_map s) =
          (λ m, set_sender (final_sender E jm um s_end (sender m)) m) <$> messages s_end)
    as Hmessages'.
  { unfold migrate_store. fold jm um. by rewrite Hpass, sender_passes_rows. }
  rewrite Hchats', Hmessages'. split; [|split; [|split]].
  - rewrite <- (list_filter_filter_l (λ r, jid r = t) (λ r, jid r = c ∨ jid r = t)) by auto.
    rewrite Hchats, list_filter_filter_l by auto. by apply filter_jid_unique.
  - intros r Hr Hrc.
    assert (r ∈ filter (λ r, jid r = c ∨ jid r = t) (chats s_end)) as Hr'.
    { apply list_elem_of_filter. auto. }
    rewrite Hchats in Hr'. apply list_elem_of_filter in Hr' as [? _]. congruence.
  - intros m' (m & -> & Hm)%list_elem_of_fmap Hmc. simpl in Hmc.
    assert (m ∈ filter (λ m, chat_jid m = c ∨ chat_jid m = t) (messages s_end)) as Hm'.
    { apply list_elem_of_filter. auto. }
    rewrite Hmessages in Hm'. apply merged_chat_jid in Hm'. congruence.
  - rewrite filter_fmap_comm by done. rewrite <- list_fmap_compose.
    erewrite list_fmap_ext; [|by intros ???].
    rewrite <- (list_filter_filter_l (λ m, chat_jid m = t)
                  (λ m, chat_jid m = c ∨ chat_jid m = t)) by auto.
    rewrite Hmessages. f_equal. apply filter_all. intros m. apply merged_chat_jid.
Qed.

(** The second scenario of section 8: [m1] is dropped, [m2] is moved. *)
Lemma merge_postcondition_witness :
  ∃ s', stored (migrate_messages_db plain_engine "messages.db" sample_map
                  (boot sample_files)).2 "messages.db" = Some s' ∧
        unsent <$> filter (λ m, chat_jid m = "22211111111@s.whatsapp.net") (messages s') =
        [("m2", "22211111111@s.whatsapp.net", "again");
         ("m1", "22211111111@s.whatsapp.net", "hello")].
Proof.
  destruct (merge_postcondition plain_engine "messages.db" sample_map sample_files
              None sample_store
              (migrate_messages_db plain_engine "messages.db" sample_map (boot sample_files)).2
              "111@lid" "22211111111@s.whatsapp.net")
    as (s' & Hs' & _ & _ & _ & Hmsgs).
  - vm_compute. reflexivity.
  - vm_compute. reflexivity.
  - apply (bool_decide_unpack _). vm_compute. exact I.
  - vm_compute. apply list_elem_of_here.
  - vm_compute. reflexivity.
  - vm_compute. reflexivity.
  - vm_compute. apply list_elem_of_further, list_elem_of_here.
  - vm_compute. reflexivity.
  - intros c' t' Hin Hl Hne _. exfalso.
    apply elem_of_cons in Hin as [->|Hin]; [done|].
    apply list_elem_of_singleton in Hin as ->. vm_compute in Hl. discriminate Hl.
  - exists s'. split; [exact Hs'|]. rewrite Hmsgs. vm_compute. reflexivity.
Defined.

(** C4 fails as stated: two chats, [1@lid] and [2@lid], have the target
    [5@s.whatsapp.net], which exists and has no message.  Each has a message
    [m].  The message of [2@lid] collides with no message of the target
    before the run, yet it is not filed under the target: the one of [1@lid]
    got there first, and the [DELETE] of the second merge removes it. *)
Lemma merge_drops_message :
  let jm := jid_map shared_map in
  let um := user_map shared_map in
  let run := migrate_messages_db plain_engine "messages.db" shared_map (boot shared_files) in
  let m2 := MessageRow "m" "2@lid" "y" "second" in
  "2@lid" ∈ jid <$> chats shared_store ∧
  chat_target jm um "2@lid" = Some "5@s.whatsapp.net" ∧
  "5@s.whatsapp.net" ∈ jid <$> chats shared_store ∧
  m2 ∈ messages shared_store ∧
  ¬ collides "5@s.whatsapp.net" (messages shared_store) m2 ∧
  run.1 = inr () ∧
  messages <$> stored run.2 "messages.db"
    = Some [MessageRow "m" "5@s.whatsapp.net" "x" "first"] ∧
  ¬ (∀ s', stored run.2 "messages.db" = Some s' →
       set_chat_jid "5@s.whatsapp.net" m2 ∈ messages s').
Proof.
  repeat split; try by vm_compute.
  - vm_compute. apply list_elem_of_further, list_elem_of_here.
  - vm_compute. apply list_elem_of_further, list_elem_of_further, list_elem_of_here.
  - vm_compute. apply list_elem_of_further, list_elem_of_here.
  - intros Hc. apply (bool_decide_pack _) in Hc. vm_compute in Hc. exact Hc.
  - intros Hall.
    specialize (Hall (Store [ChatRow "5@s.whatsapp.net" "c"]
                            [MessageRow "m" "5@s.whatsapp.net" "x" "first"])
                     ltac:(by vm_compute)).
    apply (bool_decide_pack _) in Hall. vm_compute in Hall. exact Hall.
Qed.

(** * Further properties of the script *)

(** ** The lookup tables of lines 31-38 *)

Lemma build_maps_snoc lid_map lid pn :
  build_maps (lid_map ++ [(lid, pn)]) =
  (<[lid := pn]> (build_maps lid_map).1,
   <[user_part lid := user_part pn]> (build_maps lid_map).2).
Proof.
  unfold build_maps. rewrite foldl_app. simpl.
  by destruct (foldl _ _ lid_map) as [jm um].
Qed.

Lemma getitem_snoc d k lid pn :
  getitem k (d ++ [(lid, pn)]) =
  match getitem k d with
  | Some v => Some v
  | None => if decide (k = lid) then Some pn else None
  end.
Proof.
  induction d as [|[k1 v1] d IH]; simpl; [done|].
  destruct (decide (k = k1)); [done|]. apply IH.
Qed.

Lemma getitem_None d k : k ∉ d.*1 → getitem k d = None.
Proof.
  induction d as [|[k1 v1] d IH]; [done|]. rewrite fmap_cons, not_elem_of_cons.
  simpl. intros [Hne Hnot]. rewrite decide_False by done. by apply IH.
Qed.

(** X1. [jid_map] is a copy of [lid_map]: for a dictionary (one item per
    key) looking a key up in [jid_map] gives what [lid_map] holds for it. *)
Theorem jid_map_copies_lid_map lid_map k :
  NoDup lid_map.*1 → jid_map lid_map !! k = getitem k lid_map.
Proof.
  unfold jid_map. induction lid_map as [|[lid pn] lm IH] using rev_ind; [done|].
  rewrite fmap_app, NoDup_app. simpl. intros (Hnd & Hnot & _).
  rewrite build_maps_snoc, getitem_snoc. simpl.
  destruct (decide (k = lid)) as [->|Hne].
  - rewrite lookup_insert_eq, getitem_None; [done|].
    intros Hin. apply (Hnot lid Hin). apply list_elem_of_here.
  - rewrite lookup_insert_ne by done. rewrite IH by done. by destruct (getitem k lm).
Qed.

Lemma jid_map_copies_lid_map_witness :
  jid_map sample_map !! "333" = Some "44433333333".
Proof.
  rewrite (jid_map_copies_lid_map sample_map "333").
  - vm_compute. reflexivity.
  - apply (bool_decide_unpack _). vm_compute. exact I.
Defined.

(** X2. [user_map] is keyed by the user parts of the keys of [lid_map]:
    looking [u] up gives the user part of the value of the last item whose
    key has the user part [u] (two keys with one user part, as ["1@lid"] and
    ["1"], share an entry, and the later item wins).  Neither its keys nor
    its values hold an ["@"]. *)
Theorem user_map_last_item_wins (lid_map : list (string * string)) u :
  user_map lid_map !! u =
    (λ item, user_part item.2) <$> last (filter (λ item, user_part item.1 = u) lid_map) ∧
  ∀ pn_user, user_map lid_map !! u = Some pn_user →
    contains_at u = false ∧ contains_at pn_user = false.
Proof.
  assert (user_map lid_map !! u =
    (λ item, user_part item.2) <$> last (filter (λ item, user_part item.1 = u) lid_map))
    as Hlast.
  { unfold user_map. induction lid_map as [|[lid pn] lm IH] using rev_ind; [done|].
    rewrite build_maps_snoc, filter_app, filter_cons, filter_nil. simpl.
    destruct (decide (user_part lid = u)) as [<-|Hne].
    - by rewrite lookup_insert_eq, last_snoc.
    - by rewrite lookup_insert_ne, app_nil_r. }
  split; [done|]. intros pn_user Hu. split; [|by eapply user_map_no_at].
  rewrite Hlast in Hu.
  destruct (last _) as [[lid pn]|] eqn:Hl; [|done].
  apply last_Some_elem_of, list_elem_of_filter in Hl as [<- _]. apply user_part_no_at.
Qed.

Lemma jid_map_user_map lid_map k pn :
  jid_map lid_map !! k = Some pn → is_Some (user_map lid_map !! user_part k).
Proof.
  unfold jid_map, user_map. induction lid_map as [|[lid pn'] lm IH] using rev_ind; [done|].
  rewrite build_maps_snoc. simpl. intros [[-> _]|[_ Hk]]%lookup_insert_Some.
  - rewrite lookup_insert_eq. by eexists.
  - destruct (decide (user_part lid = user_part k)) as [->|Hne].
    + rewrite lookup_insert_eq. by eexists.
    + rewrite lookup_insert_ne by done. by apply IH.
Qed.

(** X3. For a chat identifier [u@lid] whose [u] holds no ["@"], the target
    is decided by the bare-user map alone: it is [<phone_user>@s.whatsapp.net]
    when the map has [u], and there is none otherwise.  The full-identifier
    branch of lines 71-90 is never taken for such an identifier, because a
    key [u@lid] of [lid_map] puts [u] in the bare-user map. *)
Theorem chat_target_bare_only lid_map u :
  contains_at u = false →
  chat_target (jid_map lid_map) (user_map lid_map) (u +:+ "@lid") =
    whatsapp_jid <$> user_map lid_map !! u ∧
  (user_map lid_map !! u = None → jid_map lid_map !! (u +:+ "@lid") = None).
Proof.
  intros Hu.
  assert (user_map lid_map !! u = None → jid_map lid_map !! (u +:+ "@lid") = None) as Hdead.
  { intros Hnone. destruct (jid_map lid_map !! (u +:+ "@lid")) as [pn|] eqn:Hj; [|done].
    apply jid_map_user_map in Hj as [? Hj]. rewrite user_part_lid in Hj by done. congruence. }
  split; [|done]. unfold chat_target. rewrite bare_lid_simple by done.
  destruct (user_map lid_map !! u) eqn:Hum; [done|]. by apply Hdead.
Qed.

Lemma chat_target_bare_only_witness :
  chat_target (jid_map sample_map) (user_map sample_map) ("111" +:+ "@lid") =
  Some "22211111111@s.whatsapp.net".
Proof.
  destruct (chat_target_bare_only sample_map "111") as [H _].
  - vm_compute. reflexivity.
  - rewrite H. vm_compute. reflexivity.
Defined.

Lemma user_map_last_item_wins_witness :
  user_map [("1@lid", "7@s.whatsapp.net"); ("1", "8")] !! "1" = Some "8" ∧
  contains_at "8" = false.
Proof.
  destruct (user_map_last_item_wins [("1@lid", "7@s.whatsapp.net"); ("1", "8")] "1")
    as [Hlast Hno].
  split.
  - rewrite Hlast. vm_compute. reflexivity.
  - apply (Hno "8"). vm_compute. reflexivity.
Defined.

(** ** A successful run, event by event *)

Lemma printed_app evs1 evs2 : printed (evs1 ++ evs2) = printed evs1 ++ printed evs2.
Proof. unfold printed. by rewrite omap_app. Qed.

Lemma stdout_printed w : stdout w = printed (trace w).
Proof. done. Qed.

Lemma connect_open E path fs c tr db :
  fs !! path = Some db →
  connect E path (World fs c tr) = (inr (), World fs (Some (path, db)) (tr ++ [EvConnect path])).
Proof. unfold connect. simpl. by intros ->. Qed.

Lemma merge_or_rename_run E c t fs path l s tr u w' :
  merge_or_rename E c t (World fs (Some (path, Database l (Some s))) tr) = (inr u, w') →
  ∃ evs,
    w' = World fs
           (Some (path, Database l
              (Some (if has_chat t s then merge_into c t s else rename_to c t s))))
           (tr ++ evs) ∧
    Forall inner evs ∧
    printed evs =
      [if has_chat t s
       then Merged c t
              (length (filter (deleted_by c c t (messages s)) (messages s)))
              (length (filter (λ m, chat_jid m = c)
                 (filter (λ m, ¬ deleted_by c c t (messages s) m) (messages s))))
       else Renamed c t].
Proof.
  intros H. unfold merge_or_rename in H.
  exec_step H. fold (has_chat t s) in H. destruct (has_chat t s).
  - do 3 exec_step H. unfold print, log in H. simplify_eq/=.
    eexists [_;_;_;_;_]. rewrite <- !app_assoc. split; [done|].
    split; [|done]. by repeat constructor.
  - do 2 exec_step H. unfold print, log in H. simplify_eq/=.
    eexists [_;_;_;_]. rewrite <- !app_assoc. split; [done|].
    split; [|done]. by repeat constructor.
Qed.

Lemma migrate_chat_run E jm um n c fs path l s tr n' w' :
  migrate_chat E jm um n c (World fs (Some (path, Database l (Some s))) tr) = (inr n', w') →
  ∃ evs,
    w' = World fs (Some (path, Database l (Some (chat_step jm um s c)))) (tr ++ evs) ∧
    n' = n + (if decide (is_Some (chat_target jm um c)) then 1 else 0) ∧
    Forall inner evs ∧ printed evs = [chat_line jm um s c].
Proof.
  rewrite migrate_chat_unfold. unfold chat_step, chat_line.
  destruct (chat_target jm um c) as [t|]; intros H.
  - apply bind_inr in H as (u & w1 & H1 & H).
    apply merge_or_rename_run in H1 as (evs & -> & Hin & Hpr).
    unfold mret, M_ret in H. simplify_eq. exists evs. done.
  - unfold print, log, mbind, M_bind, mret, M_ret in H. simplify_eq/=.
    eexists [_]. split; [done|]. split; [lia|]. split; [|done]. by repeat constructor.
Qed.

Lemma migrate_lid_sender_run E jm um n x fs path l s tr n' w' :
  migrate_lid_sender E jm um n x (World fs (Some (path, Database l (Some s))) tr)
    = (inr n', w') →
  ∃ evs,
    w' = World fs (Some (path, Database l (Some (sender_step (full_lookup jm um) s x))))
               (tr ++ evs) ∧
    n' = n + (if decide (is_Some (full_lookup jm um x)) then 1 else 0) ∧
    Forall inner evs ∧ printed evs = [].
Proof.
  unfold migrate_lid_sender, sender_step, full_lookup.
  destruct (jm !! x) as [t|]; [|destruct (um !! user_part x) as [t|]]; intros H.
  1,2: exec_step H; unfold mret, M_ret in H; simplify_eq; eexists [_];
    split; [done|]; split; [done|]; split; [|done]; by repeat constructor.
  unfold mret, M_ret in H. simplify_eq. exists []. rewrite app_nil_r.
  split; [done|]. split; [simpl; lia|]. done.
Qed.

Lemma migrate_bare_sender_run E um n x fs path l s tr n' w' :
  migrate_bare_sender E um n x (World fs (Some (path, Database l (Some s))) tr)
    = (inr n', w') →
  ∃ evs,
    w' = World fs (Some (path, Database l (Some (sender_step (bare_lookup um) s x))))
               (tr ++ evs) ∧
    n' = n + (if decide (is_Some (bare_lookup um x)) then 1 else 0) ∧
    Forall inner evs ∧ printed evs = [].
Proof.
  unfold migrate_bare_sender, sender_step, bare_lookup.
  destruct (contains_at x); simpl; [|destruct (um !! x) as [t|]]; intros H.
  2: exec_step H; unfold mret, M_ret in H; simplify_eq; eexists [_];
    split; [done|]; split; [done|]; split; [|done]; by repeat constructor.
  all: unfold mret, M_ret in H; simplify_eq; exists []; rewrite app_nil_r;
    split; [done|]; split; [simpl; lia|]; done.
Qed.

(** A loop whose body counts the items that satisfy [P] and prints
    [say s x] at the item [x]. *)
Lemma for_in_run {A} (body : nat → A → M nat) (step : store → A → store)
    (P : A → Prop) `{!∀ x, Decision (P x)} (say : store → A → list line) (xs : list A) :
  (∀ n x fs path l s tr n' w',
     body n x (World fs (Some (path, Database l (Some s))) tr) = (inr n', w') →
     ∃ evs, w' = World fs (Some (path, Database l (Some (step s x)))) (tr ++ evs) ∧
            n' = n + (if decide (P x) then 1 else 0) ∧
            Forall inner evs ∧ printed evs = say s x) →
  ∀ n fs path l s tr n' w',
    for_in xs n body (World fs (Some (path, Database l (Some s))) tr) = (inr n', w') →
    ∃ evs, w' = World fs (Some (path, Database l (Some (foldl step s xs)))) (tr ++ evs) ∧
           n' = n + length (filter P xs) ∧
           Forall inner evs ∧
           printed evs =
             (fix says s xs := match xs with
                               | [] => []
                               | x :: xs' => say s x ++ says (step s x) xs'
                               end) s xs.
Proof.
  intros Hbody. induction xs as [|x xs IH]; intros n fs path l s tr n' w' Hrun; simpl in Hrun.
  - unfold mret, M_ret in Hrun. simplify_eq. exists []. rewrite app_nil_r. simpl.
    split; [done|]. split; [lia|]. done.
  - apply bind_inr in Hrun as (n1 & w1 & H1 & Hrun).
    apply Hbody in H1 as (evs1 & -> & -> & Hin1 & Hpr1).
    apply IH in Hrun as (evs2 & -> & -> & Hin2 & Hpr2).
    exists (evs1 ++ evs2). rewrite app_assoc. split; [done|].
    rewrite filter_cons. split; [destruct (decide (P x)); simpl; lia|].
    split; [by apply Forall_app|]. by rewrite printed_app, Hpr1, Hpr2.
Qed.

Lemma quiet_says_nothing {A} (xs : list A) (step : store → A → store) s :
  (fix says s xs := match xs with
                    | [] => []
                    | x :: xs' => [] ++ says (step s x) xs'
                    end) s xs = @nil line.
Proof. revert s. induction xs as [|x xs IH]; intros s; [done|]. simpl. apply IH. Qed.

Lemma chat_says jm um s cs :
  (fix says s xs := match xs with
                    | [] => []
                    | x :: xs' => [chat_line jm um s x] ++ says (chat_step jm um s x) xs'
                    end) s cs = chat_lines jm um s cs.
Proof. revert s. induction cs as [|c cs IH]; intros s; [done|]. simpl. by rewrite IH. Qed.

(** The world after a successful run. *)
Lemma migrate_run E path lid_map fs c tr l s w' :
  fs !! path = Some (Database l (Some s)) →
  migrate_messages_db E path lid_map (World fs c tr) = (inr (), w') →
  let jm := jid_map lid_map in
  let um := user_map lid_map in
  let cs := lid_chats E s in
  let s1 := chat_pass E jm um s in
  let xs := lid_senders E s1 in
  let s2 := full_pass E jm um s1 in
  let ys := all_senders E s2 in
  let chats_updated := length (filter (λ c, is_Some (chat_target jm um c)) cs) in
  let senders_updated := length (filter (λ x, is_Some (full_lookup jm um x)) xs) in
  let bare_updated := length (filter (λ x, is_Some (bare_lookup um x)) ys) in
  ∃ evs,
    w' = World (<[path := Database l (Some (migrate_store E lid_map s))]> fs) None
           (tr ++ EvConnect path :: evs ++
              [EvCommit path; EvClose;
               EvPrint (Complete chats_updated (senders_updated + bare_updated))]) ∧
    Forall inner evs ∧
    printed evs =
      ChatsWithLid (length cs) :: chat_lines jm um s cs ++
      [ChatsUpdated chats_updated (length cs);
       LidSenders (length xs);
       LidSendersUpdated senders_updated (length xs);
       BareSendersUpdated bare_updated].
Proof.
  intros Hfs H. unfold migrate_messages_db, migrate_store, jid_map, user_map in *.
  apply bind_inr in H as (u & w1 & H1 & H).
  rewrite (connect_open _ _ _ _ _ _ Hfs) in H1. simplify_eq.
  unfold bare_pass, full_pass, chat_pass.
  destruct (build_maps lid_map) as [jm um]. simpl.
  exec_step H.
  apply bind_inr in H as (u1 & w1 & H1 & H). unfold print, log in H1. simplify_eq/=.
  apply bind_inr in H as (n1 & w1 & H1 & H).
  eapply (for_in_run _ (chat_step jm um) (λ c, is_Some (chat_target jm um c))
            (λ s c, [chat_line jm um s c])) in H1 as (evs1 & -> & -> & Hin1 & Hpr1).
  2:{ intros ????????? Hb. by apply migrate_chat_run in Hb. }
  rewrite chat_says in Hpr1.
  apply bind_inr in H as (u2 & w1 & H1 & H). unfold print, log in H1. simplify_eq/=.
  exec_step H.
  apply bind_inr in H as (u3 & w1 & H1 & H). unfold print, log in H1. simplify_eq/=.
  apply bind_inr in H as (n2 & w1 & H1 & H).
  eapply (for_in_run _ (sender_step (full_lookup jm um)) (λ x, is_Some (full_lookup jm um x))
            (λ _ _, [])) in H1 as (evs2 & -> & -> & Hin2 & Hpr2).
  2:{ intros ????????? Hb. by apply migrate_lid_sender_run in Hb. }
  rewrite quiet_says_nothing in Hpr2.
  apply bind_inr in H as (u4 & w1 & H1 & H). unfold print, log in H1. simplify_eq/=.
  exec_step H.
  apply bind_inr in H as (n3 & w1 & H1 & H).
  eapply (for_in_run _ (sender_step (bare_lookup um)) (λ x, is_Some (bare_lookup um x))
            (λ _ _, [])) in H1 as (evs3 & -> & -> & Hin3 & Hpr3).
  2:{ intros ????????? Hb. by apply migrate_bare_sender_run in Hb. }
  rewrite quiet_says_nothing in Hpr3.
  apply bind_inr in H as (u5 & w1 & H1 & H). unfold print, log in H1. simplify_eq/=.
  apply bind_inr in H as (u6 & w1 & H1 & H).
  unfold commit in H1. simpl in H1. destruct (commit_fault E _); [done|]. simplify_eq/=.
  apply bind_inr in H as (u7 & w1 & H1 & H). unfold close in H1. simplify_eq/=.
  unfold print, log in H. simplify_eq/=.
  eexists ([EvExecute SelectLidChats; EvPrint _] ++ evs1 ++
           [EvPrint _; EvExecute SelectLidSenders; EvPrint _] ++ evs2 ++
           [EvPrint _; EvExecute SelectSenders] ++ evs3 ++ [EvPrint _]).
  split; [|split].
  - f_equal. rewrite <- ?app_assoc. simpl. reflexivity.
  - repeat (apply Forall_app; split); try done; by repeat constructor.
  - rewrite !printed_app, Hpr1, Hpr2, Hpr3. simpl. done.
Qed.

(** ** The main block *)

Lemma append_inj_l a x y : a +:+ x = a +:+ y → x = y.
Proof.
  induction a as [|ch a IH]; [by rewrite !append_nil|].
  rewrite !append_cons. intros [= ?]. by apply IH.
Qed.

Lemma stores_differ script_dir : WHATSMEOW_DB script_dir ≠ MESSAGES_DB script_dir.
Proof.
  unfold WHATSMEOW_DB, MESSAGES_DB. generalize (STORE_DIR script_dir). intros a.
  unfold os_path_join.
  change (String.prefix "/" "whatsapp.db") with false.
  change (String.prefix "/" "messages.db") with false. cbv iota.
  destruct (_ || _); intros Heq.
  - by apply append_inj_l in Heq.
  - by apply append_inj_l, append_inj_l in Heq.
Qed.

Lemma quiet_close : quiet close.
Proof.
  intros w r w' H. unfold close in H. simplify_eq/=. split; [done|].
  exists [EvClose]. split; [done|]. set_solver.
Qed.

(** The loader on an existing file changes no file. *)
Lemma load_lid_map_files E path w r w' :
  is_Some (files w !! path) →
  load_lid_map E path w = (r, w') → files w' = files w.
Proof.
  intros [db Hdb] H. unfold load_lid_map in H.
  unfold mbind at 1, M_bind at 1 in H.
  destruct w as [fs c tr]. simpl in Hdb. rewrite (connect_open _ _ _ _ _ _ Hdb) in H.
  assert (quiet (cur ← execute E SelectLidMap;
                 close;;
                 print (Loaded (length (foldl (λ lid_map '(lid, pn), setitem lid pn lid_map) []
                                          (fetchall_pairs cur))));;
                 mret (foldl (λ lid_map '(lid, pn), setitem lid pn lid_map) []
                         (fetchall_pairs cur)))) as Hq.
  { apply quiet_bind; [apply quiet_execute|]. intros cur.
    apply quiet_bind; [apply quiet_close|]. intros _.
    apply quiet_bind; [apply quiet_print|]. intros _. apply quiet_ret. }
  by apply Hq in H as [H _].
Qed.

(** What the loader returns, and the world it leaves. *)
Lemma load_lid_map_run E path fs c tr db d w' :
  fs !! path = Some db →
  load_lid_map E path (World fs c tr) = (inr d, w') →
  ∃ rows, whatsmeow_lid_map db = Some rows ∧
    d = foldl (λ lid_map '(lid, pn), setitem lid pn lid_map) [] (pair_order E rows) ∧
    w' = World fs None
           (tr ++ [EvConnect path; EvExecute SelectLidMap; EvClose; EvPrint (Loaded (length d))]).
Proof.
  intros Hdb H. unfold load_lid_map in H.
  apply bind_inr in H as (u & w1 & H1 & H).
  rewrite (connect_open _ _ _ _ _ _ Hdb) in H1. simplify_eq.
  apply bind_inr in H as (cur & w1 & H1 & H).
  unfold execute in H1. simpl in H1.
  destruct (fault E SelectLidMap db); [done|]. simpl in H1.
  destruct (whatsmeow_lid_map db) as [rows|]; [|done]. simplify_eq/=.
  unfold close, print, log, mbind, M_bind, mret, M_ret in H. simplify_eq/=.
  exists rows. rewrite <- !app_assoc. done.
Qed.

(** A run on an existing file: only that file can change, and only when
    the run does not fail. *)
Lemma migrate_files E path lid_map w r w' :
  is_Some (files w !! path) →
  migrate_messages_db E path lid_map w = (r, w') →
  match r with
  | inl _ => files w' = files w
  | inr _ => ∃ db, files w' = <[path := db]> (files w)
  end.
Proof.
  intros [[l o] Hdb] H. destruct w as [fs c tr]. simpl in Hdb.
  destruct r as [e|[]].
  - unfold migrate_messages_db in H. unfold mbind at 1, M_bind at 1 in H.
    rewrite (connect_open _ _ _ _ _ _ Hdb) in H.
    apply guarded_migrate_after_connect in H as (evs & _ & Hf & _). done.
  - destruct o as [s|].
    + apply (migrate_run _ _ _ _ _ _ _ _ _ Hdb) in H as (evs & -> & _). by eexists.
    + unfold migrate_messages_db in H. apply bind_inr in H as (u & w1 & H1 & H).
      rewrite (connect_open _ _ _ _ _ _ Hdb) in H1. simplify_eq.
      destruct (build_maps lid_map) as [jm um].
      apply bind_inr in H as (cur & w1 & H1 & H).
      unfold execute in H1. simpl in H1. by destruct (fault E SelectLidChats _).
Qed.

(** X4. The two existence checks of the main block: when one of the two
    store files is missing, the script prints one line, which names the
    missing path (that of the whatsmeow store when both are missing), and
    exits with status 1; it has opened no connection and every file is as
    before. *)
Theorem main_checks_both_stores E script_dir fs :
  fs !! WHATSMEOW_DB script_dir = None ∨ fs !! MESSAGES_DB script_dir = None →
  main E script_dir (boot fs) =
    (inl (SystemExit 1),
     World fs None
       [EvPrint (if decide (fs !! WHATSMEOW_DB script_dir = None)
                 then WhatsmeowNotFound (WHATSMEOW_DB script_dir)
                 else MessagesNotFound (MESSAGES_DB script_dir));
        EvRaise (SystemExit 1)]).
Proof.
  intros Hmissing. unfold main, os_path_exists, mbind, M_bind, boot. simpl.
  destruct (decide (fs !! WHATSMEOW_DB script_dir = None)) as [Hw|Hw].
  - rewrite Hw, bool_decide_false by (by intros [??]). done.
  - destruct Hmissing as [?|Hm]; [done|].
    rewrite bool_decide_true by (by destruct (fs !! WHATSMEOW_DB script_dir); [eexists|]).
    simpl. rewrite Hm, bool_decide_false by (by intros [??]). done.
Qed.

(** The mapping is there, the message store is not. *)
Lemma main_checks_both_stores_witness :
  main plain_engine "" (boot {[ WHATSMEOW_DB "" := Database (Some sample_map) None ]}) =
    (inl (SystemExit 1),
     World {[ WHATSMEOW_DB "" := Database (Some sample_map) None ]} None
       [EvPrint (MessagesNotFound (MESSAGES_DB "")); EvRaise (SystemExit 1)]).
Proof.
  rewrite (main_checks_both_stores plain_engine ""
             {[ WHATSMEOW_DB "" := Database (Some sample_map) None ]}).
  - reflexivity.
  - right. vm_compute. reflexivity.
Defined.

(** The files after the script, however it ends. *)
Lemma main_files E script_dir fs r w' :
  main E script_dir (boot fs) = (r, w') →
  files w' = fs ∨
  is_Some (fs !! MESSAGES_DB script_dir) ∧ r = inr () ∧
    ∃ db, files w' = <[MESSAGES_DB script_dir := db]> fs.
Proof.
  intros H. unfold main, os_path_exists in H. unfold mbind at 1, M_bind at 1 in H.
  simpl in H.
  destruct (bool_decide (is_Some (fs !! WHATSMEOW_DB script_dir))) eqn:Hw;
    simpl in H; [|left; unfold print, exit, raise, log, mbind, M_bind in H; by simplify_eq/=].
  apply bool_decide_eq_true in Hw.
  unfold mbind at 1, M_bind at 1 in H. simpl in H.
  destruct (bool_decide (is_Some (fs !! MESSAGES_DB script_dir))) eqn:Hm;
    simpl in H; [|left; unfold print, exit, raise, log, mbind, M_bind in H; by simplify_eq/=].
  apply bool_decide_eq_true in Hm.
  unfold mbind at 1, M_bind at 1 in H.
  destruct (load_lid_map E (WHATSMEOW_DB script_dir) (boot fs)) as [[e|d] w1] eqn:Hload;
    apply load_lid_map_files in Hload; try done; simpl in Hload; [left; by simplify_eq|].
  apply migrate_files in H; [|by rewrite Hload].
  rewrite Hload in H. destruct r as [e|[]]; [by left|]. by right.
Qed.

(** X5. Whatever the script does and however it ends, with any engine: no
    file but the message store is changed, the whatsmeow store in
    particular is as before; no file is created and none removed; and when
    the script ends with an exception or exits, the message store is as
    before too. *)
Theorem main_writes_only_messages_db E script_dir fs :
  let run := main E script_dir (boot fs) in
  (∀ p, p ≠ MESSAGES_DB script_dir → files run.2 !! p = fs !! p) ∧
  files run.2 !! WHATSMEOW_DB script_dir = fs !! WHATSMEOW_DB script_dir ∧
  dom (files run.2) = dom fs ∧
  (∀ e, run.1 = inl e → files run.2 = fs).
Proof.
  intros run. destruct run as [r w'] eqn:Hrun. simpl.
  apply main_files in Hrun as [->|(Hm & -> & db & ->)]; [done|].
  split; [|split; [|split]].
  - intros p Hp. by rewrite lookup_insert_ne.
  - rewrite lookup_insert_ne; [done|]. apply not_eq_sym, stores_differ.
  - by apply dom_insert_lookup_L.
  - done.
Qed.

(** X6. The main block composes the loader and the migration: when both
    store files exist, the message store has its two tables and the script
    ends normally, the whatsmeow store had its mapping table, and the
    message store holds the tables migrated with the dictionary loaded from
    it.  The read connection was opened, read and closed before the message
    store was opened; after that there are only statements and lines until
    the single commit, which is followed by the close and the last line. *)
Theorem main_composes E script_dir fs whatsmeow l s w' :
  fs !! WHATSMEOW_DB script_dir = Some whatsmeow →
  fs !! MESSAGES_DB script_dir = Some (Database l (Some s)) →
  main E script_dir (boot fs) = (inr (), w') →
  ∃ rows,
    whatsmeow_lid_map whatsmeow = Some rows ∧
    let lid_map := foldl (λ lid_map '(lid, pn), setitem lid pn lid_map) [] (pair_order E rows) in
    files w' =
      <[MESSAGES_DB script_dir := Database l (Some (migrate_store E lid_map s))]> fs ∧
    connection w' = None ∧
    ∃ evs chats_updated senders_updated,
      trace w' =
        [EvConnect (WHATSMEOW_DB script_dir); EvExecute SelectLidMap; EvClose;
         EvPrint (Loaded (length lid_map))] ++
        EvConnect (MESSAGES_DB script_dir) :: evs ++
        [EvCommit (MESSAGES_DB script_dir); EvClose;
         EvPrint (Complete chats_updated senders_updated)] ∧
      Forall inner evs.
Proof.
  intros Hw Hm H. unfold main, os_path_exists in H.
  unfold mbind at 1, M_bind at 1 in H. simpl in H.
  rewrite Hw, bool_decide_true in H by (by eexists). simpl in H.
  unfold mbind at 1, M_bind at 1 in H. simpl in H.
  rewrite Hm, bool_decide_true in H by (by eexists). simpl in H.
  apply bind_inr in H as (d & w1 & Hload & H).
  apply (load_lid_map_run _ _ _ _ _ _ _ _ Hw) in Hload as (rows & Hrows & -> & ->).
  apply (migrate_run _ _ _ _ _ _ _ _ _ Hm) in H as (evs & -> & Hin & _).
  exists rows. split; [done|]. simpl. split; [done|]. split; [done|].
  by eexists evs, _, _.
Qed.

(** The two sample stores. *)
Lemma main_composes_witness :
  ∃ rows, whatsmeow_lid_map (Database (Some sample_map) None) = Some rows ∧
    files (main plain_engine "" (boot sample_disk)).2 !! MESSAGES_DB "" =
      Some (Database None (Some (migrate_store plain_engine
              (foldl (λ lid_map '(lid, pn), setitem lid pn lid_map) [] rows) sample_store))).
Proof.
  destruct (main_composes plain_engine "" sample_disk (Database (Some sample_map) None)
              None sample_store (main plain_engine "" (boot sample_disk)).2)
    as (rows & Hrows & Hfiles & _).
  - vm_compute. reflexivity.
  - vm_compute. reflexivity.
  - vm_compute. reflexivity.
  - exists rows. split; [done|]. simpl in Hfiles. rewrite Hfiles.
    apply lookup_insert_eq.
Defined.

(** ** The report *)

Lemma chat_lines_length jm um s cs : length (chat_lines jm um s cs) = length cs.
Proof. revert s. induction cs as [|c cs IH]; intros s; simpl; [done|]. by rewrite IH. Qed.

Lemma chat_lines_updates jm um s cs :
  length (filter update_line (chat_lines jm um s cs)) =
  length (filter (λ c, is_Some (chat_target jm um c)) cs).
Proof.
  revert s. induction cs as [|c cs IH]; intros s; [done|]. cbn [chat_lines].
  assert (update_line (chat_line jm um s c) ↔ is_Some (chat_target jm um c)) as Hline.
  { unfold chat_line. destruct (chat_target jm um c) as [t|].
    - destruct (has_chat t s); simpl; split; by eauto.
    - simpl. split; [done|]. by intros [??]. }
  rewrite !filter_cons.
  destruct (decide (update_line _)), (decide (is_Some _)); simpl; rewrite ?IH; tauto.
Qed.

(** X7. The report of a successful run, line by line: the number of chats
    the loop sees, one line for each of them in the order of the loop (each
    computed on the tables as the chats before it left them), then the four
    summary lines and the closing line.  The count of chats updated is the
    number of [MERGED] and [RENAMED] lines, that is of chats with a target;
    the counts of senders are those of the distinct sender values for which
    the lookup of the loop succeeds, and the closing line adds the two. *)
Theorem run_report E path lid_map fs l s w' :
  fs !! path = Some (Database l (Some s)) →
  migrate_messages_db E path lid_map (boot fs) = (inr (), w') →
  let jm := jid_map lid_map in
  let um := user_map lid_map in
  let cs := lid_chats E s in
  let s1 := chat_pass E jm um s in
  let xs := lid_senders E s1 in
  let ys := all_senders E (full_pass E jm um s1) in
  let chats_updated := length (filter (λ c, is_Some (chat_target jm um c)) cs) in
  let senders_updated := length (filter (λ x, is_Some (full_lookup jm um x)) xs) in
  let bare_updated := length (filter (λ x, is_Some (bare_lookup um x)) ys) in
  stdout w' =
    ChatsWithLid (length cs) :: chat_lines jm um s cs ++
    [ChatsUpdated chats_updated (length cs);
     LidSenders (length xs);
     LidSendersUpdated senders_updated (length xs);
     BareSendersUpdated bare_updated;
     Complete chats_updated (senders_updated + bare_updated)] ∧
  length (chat_lines jm um s cs) = length cs ∧
  length (filter update_line (chat_lines jm um s cs)) = chats_updated.
Proof.
  intros Hfs H jm um cs s1 xs ys chats_updated senders_updated bare_updated.
  apply (migrate_run _ _ _ _ _ _ _ _ _ Hfs) in H as (evs & -> & _ & Hpr).
  split; [|split; [apply chat_lines_length|apply chat_lines_updates]].
  rewrite stdout_printed. simpl.
  change (EvConnect path :: evs ++ ?tl) with ([EvConnect path] ++ evs ++ tl).
  rewrite !printed_app, Hpr. simpl. by rewrite <- app_assoc.
Qed.

(** The second scenario: one chat, merged, and two senders rewritten. *)
Lemma run_report_witness :
  stdout (migrate_messages_db plain_engine "messages.db" sample_map (boot sample_files)).2 =
    [ChatsWithLid 1; Merged "111@lid" "22211111111@s.whatsapp.net" 1 1; ChatsUpdated 1 1;
     LidSenders 1; LidSendersUpdated 1 1; BareSendersUpdated 1; Complete 1 2].
Proof.
  destruct (run_report plain_engine "messages.db" sample_map sample_files None sample_store
              (migrate_messages_db plain_engine "messages.db" sample_map (boot sample_files)).2)
    as (Hout & _).
  - vm_compute. reflexivity.
  - vm_compute. reflexivity.
  - rewrite Hout. vm_compute. reflexivity.
Defined.

(** ** Runs that succeed *)

Lemma succeeds_ret {A} (a : A) : succeeds open_store (mret a).
Proof. intros w Hw. by exists a, w. Qed.

Lemma succeeds_print l : succeeds open_store (print l).
Proof.
  intros w (path & l' & s & Hw). eexists (), _. split; [done|].
  exists path, l', s. done.
Qed.

Lemma succeeds_execute E q :
  calm E → q ≠ SelectLidMap → succeeds open_store (execute E q).
Proof.
  intros [Hcalm _] Hq w (path & l & s & Hw). unfold execute. rewrite Hw, Hcalm.
  destruct q; try done; simpl; eexists _, _; (split; [done|]); by eexists _, _, _.
Qed.

Lemma succeeds_bind {A B} Q (m : M A) (k : A → M B) :
  succeeds open_store m → (∀ a, succeeds Q (k a)) → succeeds Q (m ≫= k).
Proof.
  intros Hm Hk w Hw. destruct (Hm w Hw) as (a & w1 & Hmw & Hw1).
  destruct (Hk a w1 Hw1) as (b & w2 & Hkw & Hw2).
  exists b, w2. unfold mbind, M_bind. by rewrite Hmw.
Qed.

Lemma succeeds_for_in {A B} (xs : list A) (acc : B) (body : B → A → M B) :
  (∀ acc x, succeeds open_store (body acc x)) → succeeds open_store (for_in xs acc body).
Proof.
  intros Hbody. revert acc. induction xs as [|x xs IH]; intros acc; simpl.
  - apply succeeds_ret.
  - apply succeeds_bind; [apply Hbody|]. intros acc'. apply IH.
Qed.

Ltac succeeds_tac :=
  repeat first
    [ apply succeeds_ret | apply succeeds_print
    | apply succeeds_execute; [assumption|discriminate]
    | apply succeeds_bind; [|intros ?] ].

Lemma succeeds_migrate_chat E jm um n c :
  calm E → succeeds open_store (migrate_chat E jm um n c).
Proof.
  intros Hcalm. unfold migrate_chat.
  destruct (um !! bare_lid c) as [pu|]; [|destruct (jm !! c) as [t|]].
  3: succeeds_tac.
  all: apply succeeds_bind; [succeeds_tac|]; intros cur;
    destruct (0 <? fetchone_0 cur)%nat; succeeds_tac.
Qed.

Lemma succeeds_migrate_lid_sender E jm um n x :
  calm E → succeeds open_store (migrate_lid_sender E jm um n x).
Proof.
  intros Hcalm. unfold migrate_lid_sender.
  destruct (jm !! x); [|destruct (um !! user_part x)]; succeeds_tac.
Qed.

Lemma succeeds_migrate_bare_sender E um n x :
  calm E → succeeds open_store (migrate_bare_sender E um n x).
Proof.
  intros Hcalm. unfold migrate_bare_sender.
  destruct (negb (contains_at x)); [destruct (um !! x)|]; succeeds_tac.
Qed.

Lemma succeeds_commit_close E l :
  calm E → succeeds (λ _, True) (commit E;; close;; print l).
Proof.
  intros [_ Hcalm] w (path & l' & s & Hw).
  unfold mbind, M_bind, commit, close, print. rewrite Hw, Hcalm. by eexists _, _.
Qed.

Lemma migrate_succeeds E path lid_map fs c tr l s :
  calm E →
  fs !! path = Some (Database l (Some s)) →
  ∃ w', migrate_messages_db E path lid_map (World fs c tr) = (inr (), w').
Proof.
  intros Hcalm Hfs. unfold migrate_messages_db.
  unfold mbind at 1, M_bind at 1. rewrite (connect_open _ _ _ _ _ _ Hfs).
  destruct (build_maps lid_map) as [jm um].
  match goal with
  | |- ∃ w', ?m ?w = _ => set (w1 := w); assert (succeeds (λ _, True) m) as Hs
  end.
  { apply succeeds_bind; [succeeds_tac|]. intros cur1.
    apply succeeds_bind; [succeeds_tac|]. intros _.
    apply succeeds_bind;
      [apply succeeds_for_in; intros; by apply succeeds_migrate_chat|]. intros n1.
    apply succeeds_bind; [succeeds_tac|]. intros _.
    apply succeeds_bind; [succeeds_tac|]. intros cur2.
    apply succeeds_bind; [succeeds_tac|]. intros _.
    apply succeeds_bind;
      [apply succeeds_for_in; intros; by apply succeeds_migrate_lid_sender|]. intros n2.
    apply succeeds_bind; [succeeds_tac|]. intros _.
    apply succeeds_bind; [succeeds_tac|]. intros cur3.
    apply succeeds_bind;
      [apply succeeds_for_in; intros; by apply succeeds_migrate_bare_sender|]. intros n3.
    apply succeeds_bind; [succeeds_tac|]. intros _.
    by apply succeeds_commit_close. }
  destruct (Hs w1) as ([] & w' & Hrun & _); [by eexists _, _, _|]. by exists w'.
Qed.

(** X8. On stores whose values are all text, as the rows of [store] and of
    [whatsmeow_lid_map] are (a [NULL] or a number as [lid], [pn] or [sender]
    makes line 36, 37 or 124 raise [TypeError]: such rows are not rows of
    this model), the script ends normally, with exit status 0, whenever both
    store files exist, the whatsmeow store has its mapping table, the message
    store has its two tables and the engine raises nothing by itself: no
    statement of the script fails on its own account, whatever the text of
    the rows and of the mapping (a mapping without entries and tables without
    rows included). *)
Theorem main_succeeds E script_dir fs rows t_w l s :
  calm E →
  fs !! WHATSMEOW_DB script_dir = Some (Database (Some rows) t_w) →
  fs !! MESSAGES_DB script_dir = Some (Database l (Some s)) →
  ∃ w', main E script_dir (boot fs) = (inr (), w') ∧
        exit_status (main E script_dir (boot fs)).1 = 0.
Proof.
  intros Hcalm Hw Hm.
  assert (∃ w', main E script_dir (boot fs) = (inr (), w')) as [w' Hrun].
  { unfold main, os_path_exists.
    unfold mbind at 1, M_bind at 1. simpl.
    rewrite Hw, bool_decide_true by (by eexists). simpl.
    unfold mbind at 1, M_bind at 1. simpl.
    rewrite Hm, bool_decide_true by (by eexists). simpl.
    unfold mbind at 1, M_bind at 1.
    assert (∃ d tr, load_lid_map E (WHATSMEOW_DB script_dir) (boot fs)
                    = (inr d, World fs None tr)) as (d & tr & ->).
    { unfold load_lid_map, mbind, M_bind, boot.
      rewrite (connect_open _ _ _ _ _ _ Hw). unfold execute. simpl.
      destruct Hcalm as [-> _]. simpl. by eexists _, _. }
    by apply (migrate_succeeds _ _ _ _ _ _ l s). }
  exists w'. by rewrite Hrun.
Qed.

(** The two sample stores and the engine that raises nothing. *)
Lemma main_succeeds_witness :
  ∃ w', main plain_engine "" (boot sample_disk) = (inr (), w').
Proof.
  destruct (main_succeeds plain_engine "" sample_disk sample_map None None sample_store)
    as (w' & Hrun & _).
  - split; reflexivity.
  - vm_compute. reflexivity.
  - vm_compute. reflexivity.
  - by exists w'.
Defined.

(** ** The keys are kept *)

Lemma NoDup_fmap_elem_of {A B} (f : A → B) (l : list A) x y :
  NoDup (f <$> l) → x ∈ l → y ∈ l → f x = f y → x = y.
Proof.
  induction l as [|z l IH]; [by intros _ ?%elem_of_nil|].
  rewrite fmap_cons, NoDup_cons. intros [Hz Hnd] Hx Hy Hf.
  apply elem_of_cons in Hx as [->|Hx]; apply elem_of_cons in Hy as [->|Hy].
  - done.
  - destruct Hz. rewrite Hf. by apply list_elem_of_fmap_2.
  - destruct Hz. rewrite <- Hf. by apply list_elem_of_fmap_2.
  - by apply IH.
Qed.

Lemma merge_into_keys c t s :
  has_chat t s = true → well_keyed s → well_keyed (merge_into c t s).
Proof.
  intros Hhas (Hchats & Hmsgs & Hfk). unfold merge_into.
  assert (∀ m, m ∈ messages s → chat_jid m = c →
               ¬ deleted_by c c t (messages s) m → t ≠ c) as Htc.
  { intros m Hm Hc Hkept ->. apply Hkept. apply deleted_by_collides; [done|].
    split; [done|]. by exists m. }
  split; [|split]; simpl.
  - apply NoDup_fmap_2_strong.
    + intros r1 r2 [_ H1]%list_elem_of_filter [_ H2]%list_elem_of_filter.
      by apply (NoDup_fmap_elem_of jid (chats s)).
    + apply NoDup_filter. by eapply NoDup_fmap_1.
  - rewrite <- list_fmap_compose. apply NoDup_fmap_2_strong.
    + intros m1 m2 [Hk1 H1]%list_elem_of_filter [Hk2 H2]%list_elem_of_filter.
      unfold compose, message_key, retarget.
      destruct (decide (chat_jid m1 = c)) as [Hc1|Hc1],
               (decide (chat_jid m2 = c)) as [Hc2|Hc2]; simpl; intros [Hid Hjid]%pair_equal_spec.
      * apply (NoDup_fmap_elem_of message_key (messages s)); try done.
        unfold message_key. congruence.
      * destruct Hk1. apply deleted_by_collides; [done|]. split; [done|]. by exists m2.
      * destruct Hk2. apply deleted_by_collides; [done|]. split; [done|]. by exists m1.
      * apply (NoDup_fmap_elem_of message_key (messages s)); try done.
        unfold message_key. congruence.
    + apply NoDup_filter. by eapply NoDup_fmap_1.
  - intros m' (m & -> & [Hkept Hm]%list_elem_of_filter)%list_elem_of_fmap.
    unfold retarget. destruct (decide (chat_jid m = c)) as [Hc|Hc]; simpl.
    + assert (t ∈ jid <$> chats s) as (r & -> & Hr)%list_elem_of_fmap.
      { destruct (decide (t ∈ jid <$> chats s)) as [|Hno]; [done|].
        apply filter_jid_absent in Hno. unfold has_chat in Hhas. by rewrite Hno in Hhas. }
      apply list_elem_of_fmap_2, list_elem_of_filter. split; [|done]. by eapply Htc.
    + pose proof (Hfk m Hm) as (r & Hj & Hr)%list_elem_of_fmap.
      rewrite Hj. apply list_elem_of_fmap_2, list_elem_of_filter. split; [congruence|done].
Qed.

Lemma rename_to_keys c t s :
  has_chat t s = false → well_keyed s → well_keyed (rename_to c t s).
Proof.
  intros Hhas%has_chat_false (Hchats & Hmsgs & Hfk). unfold rename_to.
  split; [|split]; simpl.
  - rewrite <- list_fmap_compose. apply NoDup_fmap_2_strong; [|by eapply NoDup_fmap_1].
    intros r1 r2 H1 H2. unfold compose, rejid.
    destruct (decide (jid r1 = c)) as [Hc1|Hc1],
             (decide (jid r2 = c)) as [Hc2|Hc2]; simpl; intros Hjid.
    + apply (NoDup_fmap_elem_of jid (chats s)); congruence.
    + destruct Hhas. rewrite Hjid. by apply list_elem_of_fmap_2.
    + destruct Hhas. rewrite <- Hjid. by apply list_elem_of_fmap_2.
    + by apply (NoDup_fmap_elem_of jid (chats s)).
  - rewrite <- list_fmap_compose. apply NoDup_fmap_2_strong; [|by eapply NoDup_fmap_1].
    intros m1 m2 H1 H2. unfold compose, message_key, retarget.
    destruct (decide (chat_jid m1 = c)) as [Hc1|Hc1],
             (decide (chat_jid m2 = c)) as [Hc2|Hc2]; simpl; intros [Hid Hjid]%pair_equal_spec.
    + apply (NoDup_fmap_elem_of message_key (messages s)); try done.
      unfold message_key. congruence.
    + destruct Hhas. rewrite Hjid. by apply Hfk.
    + destruct Hhas. rewrite <- Hjid. by apply Hfk.
    + apply (NoDup_fmap_elem_of message_key (messages s)); try done.
      unfold message_key. congruence.
  - intros m' (m & -> & Hm)%list_elem_of_fmap.
    pose proof (Hfk m Hm) as (r & Hj & Hr)%list_elem_of_fmap.
    apply list_elem_of_fmap. exists (rejid c t r).
    split; [|by apply list_elem_of_fmap_2].
    unfold retarget, rejid. rewrite Hj. by destruct (decide (jid r = c)).
Qed.

Lemma chat_step_keys jm um s c : well_keyed s → well_keyed (chat_step jm um s c).
Proof.
  intros Hs. unfold chat_step. destruct (chat_target jm um c) as [t|]; [|done].
  destruct (has_chat t s) eqn:Hhas; [by apply merge_into_keys|by apply rename_to_keys].
Qed.

Lemma chat_loop_keys jm um s cs : well_keyed s → well_keyed (foldl (chat_step jm um) s cs).
Proof.
  revert s. induction cs as [|c cs IH]; intros s Hs; [done|].
  simpl. by apply IH, chat_step_keys.
Qed.

Lemma migrate_store_keys E lid_map s : well_keyed s → well_keyed (migrate_store E lid_map s).
Proof.
  intros Hs. unfold migrate_store. rewrite sender_passes_rows.
  destruct (chat_loop_keys (jid_map lid_map) (user_map lid_map) s (lid_chats E s) Hs)
    as (Hchats & Hmsgs & Hfk).
  fold (chat_pass E (jid_map lid_map) (user_map lid_map) s) in Hchats, Hmsgs, Hfk.
  split; [|split]; simpl.
  - done.
  - by rewrite <- list_fmap_compose.
  - intros m' (m & -> & Hm)%list_elem_of_fmap. simpl. by apply Hfk.
Qed.

(** X9. The keys of the message store are kept by a successful run: when
    before the run the chat table has one row per [jid], the message table
    one row per [id] and chat, and every message is filed under a chat that
    has a row, the same holds of the tables that are committed.  (The merge
    deletes the messages of the old chat whose [id] is under the target
    before it moves the others there; the rename is chosen only when no chat
    has the target.) *)
Theorem keys_preserved E path lid_map fs l s w' :
  fs !! path = Some (Database l (Some s)) →
  migrate_messages_db E path lid_map (boot fs) = (inr (), w') →
  well_keyed s →
  ∃ s', stored w' path = Some s' ∧ well_keyed s'.
Proof.
  intros Hfs H Hs. exists (migrate_store E lid_map s).
  split; [by eapply stored_after_run|]. by apply migrate_store_keys.
Qed.

(** The second scenario: [m1] is filed under both chats before the run. *)
Lemma keys_preserved_witness :
  ∃ s', stored (migrate_messages_db plain_engine "messages.db" sample_map
                  (boot sample_files)).2 "messages.db" = Some s' ∧
        well_keyed s'.
Proof.
  apply (keys_preserved plain_engine "messages.db" sample_map sample_files None sample_store).
  - vm_compute. reflexivity.
  - apply surjective_pairing.
  - split; [|split].
    + apply (bool_decide_unpack _). vm_compute. exact I.
    + apply (bool_decide_unpack _). vm_compute. exact I.
    + apply Forall_forall. apply (bool_decide_unpack _). vm_compute. exact I.
Defined.

(** ** One chat through the whole run *)

(** The loop over the chats, seen from the chat [c] and its target [t],
    when no other chat the loop sees is [t] or has the target [t] or [c]:
    only the step for [c] counts. *)
Lemma chat_pass_around E jm um s c t :
  NoDup (jid <$> chats s) →
  c ∈ jid <$> chats s →
  like_lid c = true →
  (∀ c', c' ∈ jid <$> chats s → like_lid c' = true → c' ≠ c →
         c' ≠ t ∧ ∀ t', chat_target jm um c' = Some t' → t' ≠ t ∧ t' ≠ c) →
  ∃ pre post, lid_chats E s = pre ++ c :: post ∧
    let s_pre := foldl (chat_step jm um) s pre in
    let s_c := chat_step jm um s_pre c in
    filter (λ m, chat_jid m = c ∨ chat_jid m = t) (messages s_pre) =
      filter (λ m, chat_jid m = c ∨ chat_jid m = t) (messages s) ∧
    filter (λ r, jid r = c ∨ jid r = t) (chats s_pre) =
      filter (λ r, jid r = c ∨ jid r = t) (chats s) ∧
    filter (λ m, chat_jid m = c ∨ chat_jid m = t) (messages (chat_pass E jm um s)) =
      filter (λ m, chat_jid m = c ∨ chat_jid m = t) (messages s_c) ∧
    filter (λ r, jid r = c ∨ jid r = t) (chats (chat_pass E jm um s)) =
      filter (λ r, jid r = c ∨ jid r = t) (chats s_c).
Proof.
  intros Hnd Hc Hlid Hothers.
  assert (c ∈ lid_chats E s) as Hin.
  { apply elem_of_lid_chats. by rewrite Hlid. }
  assert (NoDup (lid_chats E s)) as Hnd'.
  { unfold lid_chats. rewrite (row_order_perm E). by apply NoDup_filter. }
  apply list_elem_of_split in Hin as (pre & post & Hsplit).
  rewrite Hsplit in Hnd'. apply NoDup_app in Hnd' as (_ & Hpre & [Hpost _]%NoDup_cons).
  assert (∀ c', c' ∈ pre ∨ c' ∈ post → c' ≠ c ∧ c' ≠ t ∧
            ∀ t', chat_target jm um c' = Some t' → t' ≠ t ∧ t' ≠ c) as Hrest.
  { intros c' Hc'.
    assert (c' ∈ lid_chats E s) as [Hl' Hj']%elem_of_lid_chats.
    { rewrite Hsplit, elem_of_app, elem_of_cons. tauto. }
    apply Is_true_true in Hl'.
    assert (c' ≠ c) as Hne.
    { intros ->. destruct Hc' as [Hc'|Hc']; [by apply Hpre in Hc'; apply Hc', list_elem_of_here|done]. }
    destruct (Hothers c' Hj' Hl' Hne) as [? ?]. done. }
  exists pre, post. split; [done|]. intros s_pre s_c.
  destruct (chat_loop_other jm um s c t pre) as [Hm_pre Hc_pre]; [by auto|].
  destruct (chat_loop_other jm um s_c c t post) as [Hm_end Hc_end]; [by auto|].
  assert (chat_pass E jm um s = foldl (chat_step jm um) s_c post) as ->.
  { unfold chat_pass. by rewrite Hsplit, foldl_app. }
  done.
Qed.

(** The sender loops leave the chats and the filing of the messages. *)
Lemma migrate_store_filing E lid_map s (P : string → Prop) `{!∀ j, Decision (P j)} :
  let s1 := chat_pass E (jid_map lid_map) (user_map lid_map) s in
  chats (migrate_store E lid_map s) = chats s1 ∧
  unsent <$> filter (λ m, P (chat_jid m)) (messages (migrate_store E lid_map s)) =
    unsent <$> filter (λ m, P (chat_jid m)) (messages s1).
Proof.
  intros s1. unfold migrate_store. fold s1. rewrite sender_passes_rows. simpl.
  split; [done|]. rewrite filter_fmap_comm by done. rewrite <- list_fmap_compose.
  apply list_fmap_ext. by intros ???.
Qed.

Lemma filter_chat_jid_view c t j (l k : list message_row) :
  j = c ∨ j = t →
  filter (λ m, chat_jid m = c ∨ chat_jid m = t) l =
    filter (λ m, chat_jid m = c ∨ chat_jid m = t) k →
  filter (λ m, chat_jid m = j) l = filter (λ m, chat_jid m = j) k.
Proof.
  intros Hj Heq.
  rewrite <- (list_filter_filter_l (λ m, chat_jid m = j)
                (λ m, chat_jid m = c ∨ chat_jid m = t) l) by (intros ? ->; tauto).
  rewrite <- (list_filter_filter_l (λ m, chat_jid m = j)
                (λ m, chat_jid m = c ∨ chat_jid m = t) k) by (intros ? ->; tauto).
  by rewrite Heq.
Qed.

Lemma filter_jid_view c t j (l k : list chat_row) :
  j = c ∨ j = t →
  filter (λ r, jid r = c ∨ jid r = t) l = filter (λ r, jid r = c ∨ jid r = t) k →
  filter (λ r, jid r = j) l = filter (λ r, jid r = j) k.
Proof.
  intros Hj Heq.
  rewrite <- (list_filter_filter_l (λ r, jid r = j)
                (λ r, jid r = c ∨ jid r = t) l) by (intros ? ->; tauto).
  rewrite <- (list_filter_filter_l (λ r, jid r = j)
                (λ r, jid r = c ∨ jid r = t) k) by (intros ? ->; tauto).
  by rewrite Heq.
Qed.

Lemma has_chat_view t s s' :
  filter (λ r, jid r = t) (chats s) = filter (λ r, jid r = t) (chats s') →
  has_chat t s = has_chat t s'.
Proof. unfold has_chat. by intros ->. Qed.

Lemma filter_nil_not_elem_of_inv {A} (P : A → Prop) `{!∀ x, Decision (P x)} (l : list A) :
  (∀ x, x ∈ l → ¬ P x) → filter P l = [].
Proof.
  induction l as [|x l IH]; intros Hl; [done|].
  rewrite filter_cons_False by (apply Hl, list_elem_of_here).
  apply IH. intros ??. by apply Hl, list_elem_of_further.
Qed.

(** X10. The rename: let the chat [c] be one the chat loop sees, with
    target [t], while no chat [t] exists before the run.  Provided that no
    other chat of the store the loop sees has the target [t] or [c] ([chats]
    having one row per identifier), after the run the row of [c] is the one
    chat [t], with its other columns as they were, and no chat [c] exists;
    no message is filed under [c]; the messages under [t] are, in their order
    and up to their senders, all those that were under [c] (and those that
    were under [t], had there been any): none was deleted.  The line
    [RENAMED] was printed for the chat. *)
Theorem rename_postcondition E path lid_map fs l s w' c t :
  let jm := jid_map lid_map in
  let um := user_map lid_map in
  fs !! path = Some (Database l (Some s)) →
  migrate_messages_db E path lid_map (boot fs) = (inr (), w') →
  NoDup (jid <$> chats s) →
  c ∈ jid <$> chats s →
  like_lid c = true →
  chat_target jm um c = Some t →
  t ∉ jid <$> chats s →
  (∀ c' t', c' ∈ jid <$> chats s → like_lid c' = true → c' ≠ c →
            chat_target jm um c' = Some t' → t' ≠ t ∧ t' ≠ c) →
  ∃ s', stored w' path = Some s' ∧
    filter (λ r, jid r = t) (chats s') = set_jid t <$> filter (λ r, jid r = c) (chats s) ∧
    length (filter (λ r, jid r = t) (chats s')) = 1 ∧
    (∀ r, r ∈ chats s' → jid r ≠ c) ∧
    (∀ m, m ∈ messages s' → chat_jid m ≠ c) ∧
    unsent <$> filter (λ m, chat_jid m = t) (messages s') =
      unsent <$> (set_chat_jid t <$>
        filter (λ m, chat_jid m = c ∨ chat_jid m = t) (messages s)) ∧
    EvPrint (Renamed c t) ∈ trace w'.
Proof.
  intros jm um Hfs H Hnd Hc Hlid Htarget Ht Hothers.
  exists (migrate_store E lid_map s). split; [by eapply stored_after_run|].
  assert (t ≠ c) as Htc by (by intros ->).
  destruct (chat_pass_around E jm um s c t Hnd Hc Hlid)
    as (pre & post & Hsplit & Hm_pre & Hc_pre & Hm_end & Hc_end).
  { intros c' Hc' Hl' Hne. split; [by intros ->|]. intros t'. by apply Hothers. }
  set (s_pre := foldl (chat_step jm um) s pre) in *.
  assert (has_chat t s_pre = false) as Hhas.
  { rewrite (has_chat_view t s_pre s) by (apply (filter_jid_view c t); auto).
    unfold has_chat. by rewrite filter_jid_absent. }
  assert (chat_step jm um s_pre c = rename_to c t s_pre) as Hs_c.
  { unfold chat_step. by rewrite Htarget, Hhas. }
  rewrite Hs_c in Hm_end, Hc_end.
  assert (filter (λ m, chat_jid m = c ∨ chat_jid m = t) (messages (chat_pass E jm um s)) =
          set_chat_jid t <$> filter (λ m, chat_jid m = c ∨ chat_jid m = t) (messages s))
    as Hmessages.
  { rewrite Hm_end. unfold rename_to. simpl. rewrite filter_fmap_comm.
    - rewrite Hm_pre. apply list_fmap_ext. intros i m Hm.
      apply list_elem_of_lookup_2, list_elem_of_filter in Hm as [HP _].
      unfold retarget. destruct (decide (chat_jid m = c)); [done|].
      destruct HP as [?|<-]; [done|]. by rewrite set_chat_jid_same.
    - intros m. unfold retarget. destruct (decide (chat_jid m = c)); simpl; naive_solver. }
  assert (filter (λ r, jid r = c ∨ jid r = t) (chats (chat_pass E jm um s)) =
          set_jid t <$> filter (λ r, jid r = c) (chats s)) as Hchats.
  { rewrite Hc_end. unfold rename_to. simpl. rewrite filter_fmap_comm.
    - rewrite Hc_pre.
      rewrite (filter_ext_in (λ r, jid r = c ∨ jid r = t) (λ r, jid r = c) (chats s)).
      + apply list_fmap_ext. intros i r Hr.
        apply list_elem_of_lookup_2, list_elem_of_filter in Hr as [Hr _].
        unfold rejid. by rewrite decide_True.
      + intros r Hr. split; [|by left]. intros [?|Hrt]; [done|].
        destruct Ht. rewrite <- Hrt. by apply list_elem_of_fmap_2.
    - intros r. unfold rejid. destruct (decide (jid r = c)); simpl; naive_solver. }
  destruct (migrate_store_filing E lid_map s (λ j, j = t)) as [Hchats' Hfiled].
  fold jm um in Hchats', Hfiled.
  assert (filter (λ r, jid r = t) (chats (migrate_store E lid_map s)) =
          set_jid t <$> filter (λ r, jid r = c) (chats s)) as Hrow.
  { rewrite Hchats'.
    rewrite <- (list_filter_filter_l (λ r, jid r = t) (λ r, jid r = c ∨ jid r = t)) by auto.
    rewrite Hchats. apply filter_all.
    intros r' (r & -> & _)%list_elem_of_fmap. done. }
  split; [done|]. split; [|split; [|split; [|split]]].
  - rewrite Hrow, length_fmap. by apply filter_jid_unique.
  - intros r Hr Hrc. rewrite Hchats' in Hr.
    assert (r ∈ filter (λ r, jid r = c ∨ jid r = t) (chats (chat_pass E jm um s))) as Hr'.
    { apply list_elem_of_filter. auto. }
    rewrite Hchats in Hr'. apply list_elem_of_fmap in Hr' as (r0 & -> & _). done.
  - intros m Hm Hmc.
    destruct (migrate_store_filing E lid_map s (λ j, j = c)) as [_ Hfiled_c].
    fold jm um in Hfiled_c.
    assert (filter (λ m, chat_jid m = c) (messages (chat_pass E jm um s)) = []) as Hnone.
    { rewrite <- (list_filter_filter_l (λ m, chat_jid m = c)
                    (λ m, chat_jid m = c ∨ chat_jid m = t)) by auto.
      rewrite Hmessages. apply filter_nil_not_elem_of_inv.
      intros m' (m0 & -> & _)%list_elem_of_fmap. done. }
    rewrite Hnone in Hfiled_c. apply fmap_nil_inv in Hfiled_c.
    by eapply (filter_nil_not_elem_of _ _ m Hfiled_c).
  - rewrite Hfiled. f_equal.
    rewrite <- (list_filter_filter_l (λ m, chat_jid m = t)
                  (λ m, chat_jid m = c ∨ chat_jid m = t)) by auto.
    rewrite Hmessages. apply filter_all.
    intros m' (m0 & -> & _)%list_elem_of_fmap. done.
  - destruct (migrate_tables E path lid_map fs l s w' Hfs H) as (_ & _ & Hsaid).
    specialize (Hsaid pre c post Hsplit). fold jm um in Hsaid. fold s_pre in Hsaid.
    unfold chat_line in Hsaid. by rewrite Htarget, Hhas in Hsaid.
Qed.

(** The first scenario of section 8: the chat is renamed and keeps its two
    messages. *)
Lemma rename_postcondition_witness :
  ∃ s', stored (migrate_messages_db plain_engine "messages.db" sample_map
                  (boot fresh_files)).2 "messages.db" = Some s' ∧
        chats s' = [ChatRow "22211111111@s.whatsapp.net" "alice"] ∧
        unsent <$> filter (λ m, chat_jid m = "22211111111@s.whatsapp.net") (messages s') =
        [("m1", "22211111111@s.whatsapp.net", "hello");
         ("m2", "22211111111@s.whatsapp.net", "again")].
Proof.
  destruct (rename_postcondition plain_engine "messages.db" sample_map fresh_files
              None fresh_store
              (migrate_messages_db plain_engine "messages.db" sample_map (boot fresh_files)).2
              "111@lid" "22211111111@s.whatsapp.net")
    as (s' & Hs' & _ & _ & _ & _ & Hmsgs & _).
  - vm_compute. reflexivity.
  - vm_compute. reflexivity.
  - apply (bool_decide_unpack _). vm_compute. exact I.
  - vm_compute. apply list_elem_of_here.
  - vm_compute. reflexivity.
  - vm_compute. reflexivity.
  - apply (bool_decide_unpack _). vm_compute. exact I.
  - intros c' t' Hin Hl Hne _. exfalso.
    apply list_elem_of_singleton in Hin. done.
  - exists s'. split; [exact Hs'|]. rewrite Hmsgs. split; [|vm_compute; reflexivity].
    assert (stored (migrate_messages_db plain_engine "messages.db" sample_map
                      (boot fresh_files)).2 "messages.db" =
            Some (Store [ChatRow "22211111111@s.whatsapp.net" "alice"]
                    [MessageRow "m1" "22211111111@s.whatsapp.net"
                       "22211111111@s.whatsapp.net" "hello";
                     MessageRow "m2" "22211111111@s.whatsapp.net" "44433333333" "again"]))
      as Hrun by (vm_compute; reflexivity).
    rewrite Hrun in Hs'. by injection Hs' as <-.
Defined.

(** ** The counts of a merge *)

Lemma filter_split_length {A} (P Q : A → Prop)
    `{!∀ x, Decision (P x), !∀ x, Decision (Q x)} (l : list A) :
  length (filter (λ x, P x ∧ Q x) l) + length (filter (λ x, P x ∧ ¬ Q x) l) =
  length (filter P l).
Proof.
  induction l as [|x l IH]; [done|]. rewrite !filter_cons.
  destruct (decide (P x)), (decide (Q x)).
  - rewrite decide_True, decide_False by tauto. simpl. lia.
  - rewrite decide_False, decide_True by tauto. simpl. lia.
  - rewrite !decide_False by tauto. done.
  - rewrite !decide_False by tauto. done.
Qed.

(** The rows the [DELETE] of a merge removes and those the [UPDATE] moves
    depend on the messages of the two chats only. *)
Lemma merge_counts_view c t (l k : list message_row) :
  filter (λ m, chat_jid m = c ∨ chat_jid m = t) l =
    filter (λ m, chat_jid m = c ∨ chat_jid m = t) k →
  filter (deleted_by c c t l) l = filter (λ m, chat_jid m = c ∧ collides t k m) k ∧
  filter (λ m, chat_jid m = c) (filter (λ m, ¬ deleted_by c c t l m) l) =
    filter (λ m, chat_jid m = c ∧ ¬ collides t k m) k.
Proof.
  intros Hview.
  assert (∀ l : list message_row,
    filter (deleted_by c c t l) l =
      filter (λ m, chat_jid m = c ∧ collides t (filter (λ m, chat_jid m = c ∨ chat_jid m = t) l) m)
        (filter (λ m, chat_jid m = c ∨ chat_jid m = t) l) ∧
    filter (λ m, chat_jid m = c) (filter (λ m, ¬ deleted_by c c t l m) l) =
      filter (λ m, chat_jid m = c ∧
                   ¬ collides t (filter (λ m, chat_jid m = c ∨ chat_jid m = t) l) m)
        (filter (λ m, chat_jid m = c ∨ chat_jid m = t) l)) as Hown.
  { intros l0. rewrite !list_filter_filter. split.
    - apply filter_ext_in. intros m Hm.
      rewrite deleted_by_collides, collides_filter by done. tauto.
    - apply filter_ext_in. intros m Hm.
      rewrite deleted_by_collides, collides_filter by done. tauto. }
  destruct (Hown l) as [-> ->]. rewrite Hview.
  rewrite !list_filter_filter. split.
  - apply filter_ext_in. intros m Hm. rewrite collides_filter. tauto.
  - apply filter_ext_in. intros m Hm. rewrite collides_filter. tauto.
Qed.

(** X11. The line of a merge: under the provisos of the merge (the chat [c]
    is one the loop sees, its target [t] exists and is not one the loop sees,
    no other chat the loop sees has the target [t] or [c]), the run prints
    [MERGED: c -> t] with, as dupes removed, the number of messages that were
    under [c] before the run with a message of the same [id] under [t], and,
    as moved, the number of the other messages that were under [c]; the two
    add up to the number of messages that were under [c]. *)
Theorem merge_report E path lid_map fs l s w' c t :
  let jm := jid_map lid_map in
  let um := user_map lid_map in
  let dupes :=
    length (filter (λ m, chat_jid m = c ∧ collides t (messages s) m) (messages s)) in
  let moved :=
    length (filter (λ m, chat_jid m = c ∧ ¬ collides t (messages s) m) (messages s)) in
  fs !! path = Some (Database l (Some s)) →
  migrate_messages_db E path lid_map (boot fs) = (inr (), w') →
  NoDup (jid <$> chats s) →
  c ∈ jid <$> chats s →
  like_lid c = true →
  chat_target jm um c = Some t →
  t ∈ jid <$> chats s →
  like_lid t = false →
  (∀ c' t', c' ∈ jid <$> chats s → like_lid c' = true → c' ≠ c →
            chat_target jm um c' = Some t' → t' ≠ t ∧ t' ≠ c) →
  EvPrint (Merged c t dupes moved) ∈ trace w' ∧
  dupes + moved = length (filter (λ m, chat_jid m = c) (messages s)).
Proof.
  intros jm um dupes moved Hfs H Hnd Hc Hlid Htarget Ht Htlid Hothers.
  split; [|apply (filter_split_length (λ m, chat_jid m = c))].
  destruct (chat_pass_around E jm um s c t Hnd Hc Hlid)
    as (pre & post & Hsplit & Hm_pre & Hc_pre & _).
  { intros c' Hc' Hl' Hne. split; [intros ->; congruence|]. intros t'. by apply Hothers. }
  set (s_pre := foldl (chat_step jm um) s pre) in *.
  assert (has_chat t s_pre = true) as Hhas.
  { rewrite (has_chat_view t s_pre s) by (apply (filter_jid_view c t); auto).
    apply list_elem_of_fmap in Ht as (r & -> & Hr). by apply has_chat_elem_of. }
  destruct (migrate_tables E path lid_map fs l s w' Hfs H) as (_ & _ & Hsaid).
  specialize (Hsaid pre c post Hsplit). fold jm um in Hsaid. fold s_pre in Hsaid.
  unfold chat_line in Hsaid. rewrite Htarget, Hhas in Hsaid.
  destruct (merge_counts_view c t (messages s_pre) (messages s) Hm_pre) as [Hd Hmv].
  by rewrite Hd, Hmv in Hsaid.
Qed.

(** The second scenario of section 8: one dupe removed, one message moved. *)
Lemma merge_report_witness :
  EvPrint (Merged "111@lid" "22211111111@s.whatsapp.net" 1 1) ∈
    trace (migrate_messages_db plain_engine "messages.db" sample_map (boot sample_files)).2.
Proof.
  destruct (merge_report plain_engine "messages.db" sample_map sample_files
              None sample_store
              (migrate_messages_db plain_engine "messages.db" sample_map (boot sample_files)).2
              "111@lid" "22211111111@s.whatsapp.net")
    as (Hline & _).
  - vm_compute. reflexivity.
  - vm_compute. reflexivity.
  - apply (bool_decide_unpack _). vm_compute. exact I.
  - vm_compute. apply list_elem_of_here.
  - vm_compute. reflexivity.
  - vm_compute. reflexivity.
  - vm_compute. apply list_elem_of_further, list_elem_of_here.
  - vm_compute. reflexivity.
  - intros c' t' Hin Hl Hne _. exfalso.
    apply elem_of_cons in Hin as [->|Hin]; [done|].
    apply list_elem_of_singleton in Hin as ->. vm_compute in Hl. discriminate Hl.
  - exact Hline.
Defined.

(** ** A chat mapped to itself *)

(** X12. A mapping of a chat identifier to itself is destructive: when the
    chat [c] is one the loop sees, its target is [c] itself (an entry of
    [lid_map] with equal key and value, for an identifier the bare-user map
    does not resolve) and no other chat the loop sees has the target [c],
    the run takes the merge branch, whose [DELETE] finds every message of
    [c] to be its own duplicate: after the run there is no chat [c] and no
    message under [c], and the line printed reports all the messages that
    were under [c] as dupes removed and none as moved. *)
Theorem self_mapping_deletes_chat E path lid_map fs l s w' c :
  let jm := jid_map lid_map in
  let um := user_map lid_map in
  fs !! path = Some (Database l (Some s)) →
  migrate_messages_db E path lid_map (boot fs) = (inr (), w') →
  NoDup (jid <$> chats s) →
  c ∈ jid <$> chats s →
  like_lid c = true →
  chat_target jm um c = Some c →
  (∀ c' t', c' ∈ jid <$> chats s → like_lid c' = true → c' ≠ c →
            chat_target jm um c' = Some t' → t' ≠ c) →
  ∃ s', stored w' path = Some s' ∧
    (∀ r, r ∈ chats s' → jid r ≠ c) ∧
    (∀ m, m ∈ messages s' → chat_jid m ≠ c) ∧
    EvPrint (Merged c c (length (filter (λ m, chat_jid m = c) (messages s))) 0) ∈ trace w'.
Proof.
  intros jm um Hfs H Hnd Hc Hlid Htarget Hothers.
  exists (migrate_store E lid_map s). split; [by eapply stored_after_run|].
  destruct (chat_pass_around E jm um s c c Hnd Hc Hlid)
    as (pre & post & Hsplit & Hm_pre & Hc_pre & Hm_end & Hc_end).
  { intros c' Hc' Hl' Hne. split; [done|]. intros t' Ht'.
    split; by eapply Hothers. }
  set (s_pre := foldl (chat_step jm um) s pre) in *.
  assert (has_chat c s_pre = true) as Hhas.
  { rewrite (has_chat_view c s_pre s) by (apply (filter_jid_view c c); auto).
    apply list_elem_of_fmap in Hc as (r & -> & Hr). by apply has_chat_elem_of. }
  assert (chat_step jm um s_pre c = merge_into c c s_pre) as Hs_c.
  { unfold chat_step. by rewrite Htarget, Hhas. }
  rewrite Hs_c in Hm_end, Hc_end.
  assert (∀ m, m ∈ messages s_pre → chat_jid m = c → deleted_by c c c (messages s_pre) m)
    as Hself.
  { intros m Hm Hmc. apply deleted_by_collides; [done|]. split; [done|]. by exists m. }
  assert (filter (λ m, chat_jid m = c ∨ chat_jid m = c) (messages (chat_pass E jm um s)) = [])
    as Hmessages.
  { rewrite Hm_end. unfold merge_into. simpl. apply filter_nil_not_elem_of_inv.
    intros m' (m & -> & [Hkept Hm]%list_elem_of_filter)%list_elem_of_fmap.
    unfold retarget. destruct (decide (chat_jid m = c)) as [Hmc|Hmc]; [|tauto].
    destruct Hkept. by apply Hself. }
  assert (filter (λ r, jid r = c ∨ jid r = c) (chats (chat_pass E jm um s)) = []) as Hchats.
  { rewrite Hc_end. unfold merge_into. simpl. apply filter_nil_not_elem_of_inv.
    intros r [Hr _]%list_elem_of_filter. tauto. }
  destruct (migrate_store_filing E lid_map s (λ j, j = c)) as [Hchats' Hfiled].
  fold jm um in Hchats', Hfiled.
  split; [|split].
  - intros r Hr Hrc. rewrite Hchats' in Hr.
    apply (filter_nil_not_elem_of _ _ r Hchats); [by left|done].
  - intros m Hm Hmc.
    rewrite (filter_chat_jid_view c c c (messages (chat_pass E jm um s)) []
               (or_introl eq_refl)) in Hfiled by (by rewrite Hmessages).
    apply fmap_nil_inv in Hfiled. by apply (filter_nil_not_elem_of _ _ m Hfiled).
  - destruct (migrate_tables E path lid_map fs l s w' Hfs H) as (_ & _ & Hsaid).
    specialize (Hsaid pre c post Hsplit). fold jm um in Hsaid. fold s_pre in Hsaid.
    unfold chat_line in Hsaid. rewrite Htarget, Hhas in Hsaid.
    assert (filter (deleted_by c c c (messages s_pre)) (messages s_pre) =
            filter (λ m, chat_jid m = c) (messages s)) as Hd.
    { rewrite <- (filter_chat_jid_view c c c _ _ (or_introl eq_refl) Hm_pre).
      apply filter_ext_in. intros m Hm. split; [by intros [? _]|by apply Hself]. }
    assert (filter (λ m, chat_jid m = c)
              (filter (λ m, ¬ deleted_by c c c (messages s_pre) m) (messages s_pre)) = [])
      as Hmv.
    { apply filter_nil_not_elem_of_inv. intros m [Hkept Hm]%list_elem_of_filter Hmc.
      destruct Hkept. by apply Hself. }
    by rewrite Hd, Hmv in Hsaid.
Qed.

(** The chat [1@LID], mapped to itself, loses its row and its message. *)
Lemma self_mapping_deletes_chat_witness :
  stored (migrate_messages_db plain_engine "messages.db" self_map (boot self_files)).2
    "messages.db" =
  Some (Store [ChatRow "9@s.whatsapp.net" "group"]
              [MessageRow "m2" "9@s.whatsapp.net" "9" "again"]).
Proof.
  destruct (self_mapping_deletes_chat plain_engine "messages.db" self_map self_files
              None self_store
              (migrate_messages_db plain_engine "messages.db" self_map (boot self_files)).2
              "1@LID")
    as (s' & Hs' & _).
  - vm_compute. reflexivity.
  - vm_compute. reflexivity.
  - apply (bool_decide_unpack _). vm_compute. exact I.
  - vm_compute. apply list_elem_of_here.
  - vm_compute. reflexivity.
  - vm_compute. reflexivity.
  - intros c' t' Hin Hl Hne _. exfalso.
    apply elem_of_cons in Hin as [->|Hin]; [done|].
    apply list_elem_of_singleton in Hin as ->. vm_compute in Hl. discriminate Hl.
  - vm_compute. reflexivity.
Defined.

(** ** Nothing to migrate *)

Lemma chat_lines_no_mapping jm um s cs :
  (∀ c, c ∈ cs → chat_target jm um c = None) →
  chat_lines jm um s cs = NoMapping <$> cs.
Proof.
  revert s. induction cs as [|c cs IH]; intros s Hcs; [done|]. simpl.
  unfold chat_line at 1, chat_step. rewrite (Hcs c) by apply list_elem_of_here.
  f_equal. apply IH. intros ??. by apply Hcs, list_elem_of_further.
Qed.

Lemma filter_length_none {A} (P : A → Prop) `{!∀ x, Decision (P x)} (l : list A) :
  (∀ x, x ∈ l → ¬ P x) → length (filter P l) = 0.
Proof. intros Hl. by rewrite filter_nil_not_elem_of_inv. Qed.

Lemma sender_loop_noop g s xs :
  (∀ x, x ∈ xs → g x = None) → foldl (sender_step g) s xs = s.
Proof.
  induction xs as [|x xs IH]; intros Hxs; [done|]. simpl.
  unfold sender_step at 2. rewrite (Hxs x) by apply list_elem_of_here.
  apply IH. intros ??. by apply Hxs, list_elem_of_further.
Qed.

(** X13. A run that finds nothing to migrate: when no chat of the store is
    one the loop sees and rewrites, and no sender of a message has an
    applicable mapping (as with a mapping without entries), the run changes
    no file, whether it ends normally or with an exception; when it ends
    normally it has printed [NO MAPPING] for each chat the loop sees and
    zero for each of the counts of updates. *)
Theorem nothing_to_migrate E path lid_map fs l s r w' :
  let jm := jid_map lid_map in
  let um := user_map lid_map in
  fs !! path = Some (Database l (Some s)) →
  migrate_messages_db E path lid_map (boot fs) = (r, w') →
  (∀ row, row ∈ chats s → ¬ mapped_chat jm um (jid row)) →
  (∀ m, m ∈ messages s → sender_target jm um (sender m) = None) →
  files w' = fs ∧
  (r = inr () →
   stdout w' =
     ChatsWithLid (length (lid_chats E s)) :: (NoMapping <$> lid_chats E s) ++
     [ChatsUpdated 0 (length (lid_chats E s));
      LidSenders (length (lid_senders E s));
      LidSendersUpdated 0 (length (lid_senders E s));
      BareSendersUpdated 0;
      Complete 0 0]).
Proof.
  intros jm um Hfs H Hchats Hsenders.
  assert (∀ c, c ∈ lid_chats E s → chat_target jm um c = None) as Hnone.
  { intros c [Hl (row & -> & Hrow)%list_elem_of_fmap]%elem_of_lid_chats.
    destruct (chat_target jm um (jid row)) as [t|] eqn:Ht; [|done].
    destruct (Hchats row Hrow). split; [done|]. rewrite Ht. by eexists. }
  assert (chat_pass E jm um s = s) as Hpass by (by apply chat_pass_noop).
  assert (∀ x, x ∈ lid_senders E s → full_lookup jm um x = None) as Hnone_full.
  { intros x [Hl (m & -> & Hm)%list_elem_of_fmap]%elem_of_lid_senders.
    apply Is_true_true in Hl. by apply (sender_target_None jm um (sender m)); [apply Hsenders|]. }
  assert (∀ x, x ∈ all_senders E s → bare_lookup um x = None) as Hnone_bare.
  { intros x (m & -> & Hm)%elem_of_all_senders%list_elem_of_fmap.
    by apply (sender_target_None jm um (sender m)), Hsenders. }
  assert (full_pass E jm um s = s) as Hfull by (by apply sender_loop_noop).
  destruct r as [e|[]].
  - split; [|done].
    destruct (guarded_migrate E path lid_map fs (inl e) w') as (evs & _ & Hf & _);
      [by eexists|done|done].
  - apply (migrate_run _ _ _ _ _ _ _ _ _ Hfs) in H as (evs & Hw' & _ & Hpr).
    fold jm um in Hpr, Hw'. rewrite Hpass, Hfull in Hpr, Hw'.
    rewrite chat_lines_no_mapping in Hpr by done.
    assert (length (filter (λ c, is_Some (chat_target jm um c)) (lid_chats E s)) = 0) as Hk.
    { apply filter_length_none. intros x Hx [? Hsome]. by rewrite Hnone in Hsome. }
    assert (length (filter (λ x, is_Some (full_lookup jm um x)) (lid_senders E s)) = 0) as Hj.
    { apply filter_length_none. intros x Hx [? Hsome]. by rewrite Hnone_full in Hsome. }
    assert (length (filter (λ x, is_Some (bare_lookup um x)) (all_senders E s)) = 0) as Hb.
    { apply filter_length_none. intros x Hx [? Hsome]. by rewrite Hnone_bare in Hsome. }
    rewrite Hk, Hj, Hb in Hpr, Hw'. subst w'. split.
    + simpl. rewrite migrate_store_noop by done. by apply insert_id.
    + intros _. rewrite stdout_printed. simpl.
      change (EvConnect path :: evs ++ ?tl) with ([EvConnect path] ++ evs ++ tl).
      rewrite !printed_app, Hpr. simpl. by rewrite <- app_assoc.
Qed.

(** The second scenario and a mapping without entries. *)
Lemma nothing_to_migrate_witness :
  files (migrate_messages_db plain_engine "messages.db" [] (boot sample_files)).2 =
    sample_files.
Proof.
  destruct (nothing_to_migrate plain_engine "messages.db" [] sample_files None sample_store
              (migrate_messages_db plain_engine "messages.db" [] (boot sample_files)).1
              (migrate_messages_db plain_engine "messages.db" [] (boot sample_files)).2)
    as [Hfiles _].
  - vm_compute. reflexivity.
  - apply surjective_pairing.
  - apply Forall_forall. apply (bool_decide_unpack _). vm_compute. exact I.
  - apply Forall_forall. apply (bool_decide_unpack _). vm_compute. exact I.
  - exact Hfiles.
Defined.

(** ** The rows of the chat table *)

Lemma chat_step_chat_rows jm um s c rs :
  like_lid c →
  evolved (λ r, mapped_chat jm um (jid r))
          (λ r r', chat_cols r' = chat_cols r ∧ (¬ mapped_chat jm um (jid r) → r' = r))
          rs (chats s) →
  evolved (λ r, mapped_chat jm um (jid r))
          (λ r r', chat_cols r' = chat_cols r ∧ (¬ mapped_chat jm um (jid r) → r' = r))
          rs (chats (chat_step jm um s c)).
Proof.
  intros Hlid Hev. unfold chat_step.
  destruct (chat_target jm um c) as [t|] eqn:Ht; [|done].
  assert (mapped_chat jm um c) as Hmapped by (split; [done|by rewrite Ht; eexists]).
  destruct (has_chat t s); simpl.
  - rewrite <- (list_fmap_id (filter _ _)). apply evolved_filter_fmap; [done| |done].
    intros r r' [_ Hsame] Hgone. destruct (decide (mapped_chat jm um (jid r))) as [|Hno]; [done|].
    rewrite (Hsame Hno) in Hgone. destruct Hgone. intros Heq. by rewrite Heq in Hno.
  - eapply evolved_fmap; [done|]. intros r r' [Hcols Hsame]. unfold rejid.
    split.
    + by destruct (decide (jid r' = c)).
    + intros Hno. rewrite (Hsame Hno). rewrite decide_False; [done|].
      intros Heq. by rewrite Heq in Hno.
Qed.

Lemma chat_loop_chat_rows jm um s cs :
  (∀ c, c ∈ cs → like_lid c) →
  evolved (λ r, mapped_chat jm um (jid r))
          (λ r r', chat_cols r' = chat_cols r ∧ (¬ mapped_chat jm um (jid r) → r' = r))
          (chats s) (chats (foldl (chat_step jm um) s cs)).
Proof.
  intros Hcs.
  induction cs as [|c cs IH] using rev_ind; [by apply evolved_refl|].
  rewrite foldl_app. simpl. apply chat_step_chat_rows.
  - apply Hcs. rewrite elem_of_app, list_elem_of_singleton. by right.
  - apply IH. intros ??. apply Hcs, elem_of_app. by left.
Qed.

(** X14. The rows of the chat table through a successful run: the table
    after the run is the table before it, in the same order, with some rows
    deleted and some [jid] rewritten; no row is added; the other columns of a
    row are never changed; and a row is deleted or has its [jid] rewritten
    only if its [jid] matches [LIKE '%@lid'] and has a target: every other
    row is exactly as before. *)
Theorem chat_rows_evolve E path lid_map fs l s w' :
  let jm := jid_map lid_map in
  let um := user_map lid_map in
  fs !! path = Some (Database l (Some s)) →
  migrate_messages_db E path lid_map (boot fs) = (inr (), w') →
  ∃ s', stored w' path = Some s' ∧
    evolved (λ r, mapped_chat jm um (jid r))
            (λ r r', chat_cols r' = chat_cols r ∧ (¬ mapped_chat jm um (jid r) → r' = r))
            (chats s) (chats s').
Proof.
  intros jm um Hfs H. exists (migrate_store E lid_map s).
  split; [by eapply stored_after_run|].
  destruct (migrate_store_rows E lid_map s) as [-> _].
  apply chat_loop_chat_rows. intros c [Hl _]%elem_of_lid_chats. done.
Qed.

(** The second scenario: the row of [111@lid] is deleted, the other stays. *)
Lemma chat_rows_evolve_witness :
  ∃ s', stored (migrate_messages_db plain_engine "messages.db" sample_map
                  (boot sample_files)).2 "messages.db" = Some s' ∧
        chats s' = [ChatRow "22211111111@s.whatsapp.net" "alice"].
Proof.
  destruct (chat_rows_evolve plain_engine "messages.db" sample_map sample_files
              None sample_store
              (migrate_messages_db plain_engine "messages.db" sample_map (boot sample_files)).2)
    as (s' & Hs' & Hev).
  - vm_compute. reflexivity.
  - vm_compute. reflexivity.
  - exists s'. split; [exact Hs'|].
    assert (stored (migrate_messages_db plain_engine "messages.db" sample_map
                      (boot sample_files)).2 "messages.db" =
            Some (migrate_store plain_engine sample_map sample_store)) as Hrun
      by (vm_compute; reflexivity).
    rewrite Hrun in Hs'. injection Hs' as <-. vm_compute. reflexivity.
Defined.

(** ** Senders are rewritten by value *)

(** X15. The sender loops rewrite by value: there is a function of the
    sender value alone such that every message row that is still in the table
    after a successful run has, as sender, the function of the sender it had
    before; two rows with one sender before the run have one sender after it,
    whatever their chats and ids.  The rows after the run are rows of before
    the run, in the same order, with their [id] and other columns. *)
Theorem senders_rewritten_by_value E path lid_map fs l s w' :
  fs !! path = Some (Database l (Some s)) →
  migrate_messages_db E path lid_map (boot fs) = (inr (), w') →
  ∃ s' (rewritten : string → string), stored w' path = Some s' ∧
    evolved (λ m, mapped_chat (jid_map lid_map) (user_map lid_map) (chat_jid m))
            (λ m m', msg_id m' = msg_id m ∧ msg_cols m' = msg_cols m ∧
                     sender m' = rewritten (sender m))
            (messages s) (messages s').
Proof.
  intros Hfs H.
  exists (migrate_store E lid_map s),
         (final_sender E (jid_map lid_map) (user_map lid_map)
            (chat_pass E (jid_map lid_map) (user_map lid_map) s)).
  split; [by eapply stored_after_run|].
  destruct (migrate_store_rows E lid_map s) as [_ Hev].
  eapply evolved_weaken; [exact Hev|]. simpl. intros m m' _ _ (? & ? & _ & _ & ?). done.
Qed.

(** The second scenario: the senders [333] and [111@lid] of the two rows
    that remain are rewritten. *)
Lemma senders_rewritten_by_value_witness :
  ∃ s', stored (migrate_messages_db plain_engine "messages.db" sample_map
                  (boot sample_files)).2 "messages.db" = Some s' ∧
        sender <$> messages s' = ["44433333333"; "22211111111@s.whatsapp.net"].
Proof.
  destruct (senders_rewritten_by_value plain_engine "messages.db" sample_map sample_files
              None sample_store
              (migrate_messages_db plain_engine "messages.db" sample_map (boot sample_files)).2)
    as (s' & f & Hs' & Hev).
  - vm_compute. reflexivity.
  - vm_compute. reflexivity.
  - exists s'. split; [exact Hs'|].
    assert (stored (migrate_messages_db plain_engine "messages.db" sample_map
                      (boot sample_files)).2 "messages.db" =
            Some (migrate_store plain_engine sample_map sample_store)) as Hrun
      by (vm_compute; reflexivity).
    rewrite Hrun in Hs'. injection Hs' as <-. vm_compute. reflexivity.
Defined.

(** ** Identifiers with the suffix in another case *)

Lemma user_map_key_no_at lid_map u :
  is_Some (user_map lid_map !! u) → contains_at u = false.
Proof.
  unfold user_map. induction lid_map as [|[lid pn] lm IH] using rev_ind.
  - by intros [??].
  - rewrite build_maps_snoc. simpl. intros [v [[<- _]|[_ Hu]]%lookup_insert_Some].
    + apply user_part_no_at.
    + apply IH. by eexists.
Qed.

(** X16. The chats the loop sees are those that match [LIKE '%@lid'], which
    ignores the case of the letters, while line 48 strips the suffix only
    when the identifier ends with ["@lid"] as written.  For an identifier
    the loop sees that does not end with ["@lid"] as written (["1@LID"]),
    the lookup in the bare-user map always misses, because its keys hold no
    ["@"]: the target is the entry of the identifier in the full-identifier
    map, if any. *)
Theorem chat_target_other_case lid_map c :
  like_lid c = true →
  endswith c "@lid" = false →
  bare_lid c = c ∧
  user_map lid_map !! bare_lid c = None ∧
  chat_target (jid_map lid_map) (user_map lid_map) c = jid_map lid_map !! c.
Proof.
  intros Hlike Hends.
  assert (bare_lid c = c) as Hbare by (unfold bare_lid; by rewrite Hends).
  assert (user_map lid_map !! c = None) as Hmiss.
  { destruct (user_map lid_map !! c) as [v|] eqn:Hu; [|done].
    assert (contains_at c = false) as Hno by (apply (user_map_key_no_at lid_map); by eexists).
    apply like_lid_contains_at in Hlike. congruence. }
  split; [done|]. rewrite Hbare. split; [done|].
  unfold chat_target. by rewrite Hbare, Hmiss.
Qed.

(** The identifier [1@LID] and the mapping of [1@LID] to itself. *)
Lemma chat_target_other_case_witness :
  chat_target (jid_map self_map) (user_map self_map) "1@LID" = Some "1@LID".
Proof.
  destruct (chat_target_other_case self_map "1@LID") as (_ & _ & ->).
  - vm_compute. reflexivity.
  - vm_compute. reflexivity.
  - vm_compute. reflexivity.
Defined.

(** ** The dictionary of the loader *)

Lemma loaded_keys (rows : list (string * string)) :
  (foldl (λ lid_map '(lid, pn), setitem lid pn lid_map) [] rows).*1 =
  reverse (remove_dups (reverse rows.*1)).
Proof.
  induction rows as [|[lid pn] rows IH] using rev_ind; [done|].
  rewrite foldl_app, fmap_app. change ([(lid, pn)].*1) with [lid].
  rewrite reverse_snoc. cbn [foldl remove_dups].
  assert (lid ∈ (foldl (λ lid_map '(lid, pn), setitem lid pn lid_map) [] rows).*1 ↔
          lid ∈ reverse rows.*1) as Hin.
  { by rewrite IH, elem_of_reverse, elem_of_remove_dups. }
  destruct (decide_rel elem_of lid (reverse rows.*1)) as [Hlid|Hlid].
  - rewrite setitem_keys by (by apply Hin). done.
  - rewrite setitem_new_key by (by rewrite Hin). by rewrite reverse_cons, IH.
Qed.

(** X17. The dictionary the loader returns has its keys in the order in
    which the [lid] values are first met in the rows (a later row with a
    [lid] already met changes the value and not the place), and the number
    it prints is the number of distinct [lid] values, not of rows. *)
Theorem loader_keys_first_seen E path fs db d w' :
  fs !! path = Some db →
  load_lid_map E path (boot fs) = (inr d, w') →
  ∃ rows, whatsmeow_lid_map db = Some rows ∧
    d.*1 = reverse (remove_dups (reverse (pair_order E rows).*1)) ∧
    length d = length (remove_dups rows.*1) ∧
    stdout w' = [Loaded (length (remove_dups rows.*1))].
Proof.
  intros Hfs H. unfold boot in H.
  apply (load_lid_map_run _ _ _ _ _ _ _ _ Hfs) in H as (rows & Hrows & -> & ->).
  exists rows. split; [done|].
  assert (length (foldl (λ lid_map '(lid, pn), setitem lid pn lid_map) [] (pair_order E rows))
          = length (remove_dups rows.*1)) as Hlen.
  { rewrite <- (length_fmap fst), loaded_keys, length_reverse.
    apply Permutation_length, NoDup_Permutation; [apply NoDup_remove_dups..|].
    intros k. rewrite !elem_of_remove_dups, elem_of_reverse.
    by rewrite (pair_order_perm E rows). }
  split; [apply loaded_keys|]. split; [done|]. by rewrite <- Hlen.
Qed.

(** Three rows, two of them for one [lid]: two mappings are loaded. *)
Lemma loader_keys_first_seen_witness :
  stdout (load_lid_map plain_engine "whatsapp.db"
            (boot {[ "whatsapp.db" :=
                       Database (Some [("1", "7"); ("2", "8"); ("1", "9")]) None ]})).2
  = [Loaded 2].
Proof.
  destruct (loader_keys_first_seen plain_engine "whatsapp.db"
              {[ "whatsapp.db" := Database (Some [("1", "7"); ("2", "8"); ("1", "9")]) None ]}
              (Database (Some [("1", "7"); ("2", "8"); ("1", "9")]) None)
              [("1", "9"); ("2", "8")]
              (load_lid_map plain_engine "whatsapp.db"
                 (boot {[ "whatsapp.db" :=
                            Database (Some [("1", "7"); ("2", "8"); ("1", "9")]) None ]})).2)
    as (rows & Hrows & _ & _ & Hout).
  - vm_compute. reflexivity.
  - vm_compute. reflexivity.
  - rewrite Hout. injection Hrows as <-. vm_compute. reflexivity.
Defined.

(** ** No message is lost but to a copy *)

Lemma chat_step_ids jm um s c i :
  chat_target jm um c ≠ Some c →
  i ∈ msg_id <$> messages (chat_step jm um s c) ↔ i ∈ msg_id <$> messages s.
Proof.
  intros Hself. unfold chat_step. destruct (chat_target jm um c) as [t|]; [|done].
  assert (t ≠ c) as Htc by congruence.
  assert (∀ m, msg_id (retarget c t m) = msg_id m) as Hid.
  { intros m. unfold retarget. by destruct (decide (chat_jid m = c)). }
  destruct (has_chat t s); simpl.
  - rewrite !list_elem_of_fmap. split.
    + intros (m' & -> & (m & -> & [_ Hm]%list_elem_of_filter)%list_elem_of_fmap).
      exists m. by rewrite Hid.
    + intros (m & -> & Hm).
      destruct (decide (deleted_by c c t (messages s) m)) as [Hdel|Hkept].
      * apply deleted_by_collides in Hdel as [_ (m2 & Hm2 & Hid2 & Hchat2)]; [|done].
        exists (retarget c t m2). rewrite Hid. split; [done|].
        apply list_elem_of_fmap_2, list_elem_of_filter. split; [|done].
        intros [Hc2 _]. congruence.
      * exists (retarget c t m). rewrite Hid. split; [done|].
        by apply list_elem_of_fmap_2, list_elem_of_filter.
  - rewrite <- list_fmap_compose. by erewrite list_fmap_ext; [|intros ???; apply Hid].
Qed.

Lemma chat_loop_ids jm um s cs i :
  (∀ c, c ∈ cs → chat_target jm um c ≠ Some c) →
  i ∈ msg_id <$> messages (foldl (chat_step jm um) s cs) ↔ i ∈ msg_id <$> messages s.
Proof.
  revert s. induction cs as [|c cs IH]; intros s Hcs; [done|]. simpl.
  rewrite IH by (intros ??; by apply Hcs, list_elem_of_further).
  apply chat_step_ids, Hcs, list_elem_of_here.
Qed.

(** A mapping none of whose values matches [LIKE '%@lid'] gives no chat the
    loop sees itself as target. *)
Lemma no_self_target_check jm um :
  bool_decide (map_Forall (λ _ v, like_lid v = false) jm) →
  ∀ c, like_lid c = true → chat_target jm um c ≠ Some c.
Proof.
  intros Hj%bool_decide_unpack c Hlike [[pu Hc]|[k Hk]]%chat_target_img.
  - rewrite Hc, whatsapp_jid_not_lid in Hlike. done.
  - apply Hj in Hk. simpl in Hk. congruence.
Qed.

(** X18. No message is lost but to a copy: provided that no chat the loop
    sees has itself as target, the [id] values of the message table are the
    same after a successful run as before it.  A message is deleted only by
    a merge, which keeps the message of the same [id] that is under the
    target; the updates change no [id]. *)
Theorem message_ids_kept E path lid_map fs l s w' :
  let jm := jid_map lid_map in
  let um := user_map lid_map in
  fs !! path = Some (Database l (Some s)) →
  migrate_messages_db E path lid_map (boot fs) = (inr (), w') →
  (∀ c, like_lid c = true → chat_target jm um c ≠ Some c) →
  ∃ s', stored w' path = Some s' ∧
    ∀ i, i ∈ msg_id <$> messages s' ↔ i ∈ msg_id <$> messages s.
Proof.
  intros jm um Hfs H Hself. exists (migrate_store E lid_map s).
  split; [by eapply stored_after_run|]. intros i.
  unfold migrate_store. fold jm um. rewrite sender_passes_rows. simpl.
  rewrite <- list_fmap_compose.
  erewrite (list_fmap_ext (msg_id ∘ _) msg_id); [|by intros ???].
  apply chat_loop_ids. intros c [Hl _]%elem_of_lid_chats.
  apply Hself. by apply Is_true_true.
Qed.

(** The second scenario: [m1] and [m2] before, [m2] and [m1] after. *)
Lemma message_ids_kept_witness :
  ∃ s', stored (migrate_messages_db plain_engine "messages.db" sample_map
                  (boot sample_files)).2 "messages.db" = Some s' ∧
        ("m1" ∈ msg_id <$> messages s' ∧ "m2" ∈ msg_id <$> messages s').
Proof.
  destruct (message_ids_kept plain_engine "messages.db" sample_map sample_files
              None sample_store
              (migrate_messages_db plain_engine "messages.db" sample_map (boot sample_files)).2)
    as (s' & Hs' & Hids).
  - vm_compute. reflexivity.
  - vm_compute. reflexivity.
  - apply no_self_target_check. vm_compute. exact I.
  - exists s'. split; [exact Hs'|]. split; apply Hids; vm_compute.
    + apply list_elem_of_here.
    + apply list_elem_of_further, list_elem_of_here.
Defined.
